(** * A shallow embedding of the VPL compilation pipeline

    The development follows the Python sources of the final stage
    (Vpl14: [Lexer.py], [Parser.py], [Visitor.py], [Asm.py], [driver.py])
    and of the constraint generator of stage Vpl9 ([Visitor.py]).

    Python integers are unbounded and are modelled by [Z]; dictionaries
    are [gmap]s, sets are [gset]s, lists are [list]s.  A Python exception
    or [sys.exit] is a value of [exn]; every function that can raise
    returns a [result]. *)

From stdpp Require Import base gmap sets list strings pretty.
From Stdlib Require Import ZArith Lia Ascii.

Local Open Scope Z_scope.

(** ** Exceptions and results *)

Inductive exn :=
| SysExit (msg : string)      (* [sys.exit(msg)] *)
| ZeroDivisionError           (* [a // 0] *)
| IndexError                  (* list index out of range *)
| TypeError                   (* operand of the wrong dynamic type *)
| ValueError (msg : string)   (* [raise ValueError(msg)] *)
| TupleOperand                (* an operator applied to closure tuples
                                 for which Python computes by its tuple
                                 rules; outside the integer machine *)
| OutOfFuel.                  (* the recursion bound of the model was hit
                                 (Python: unbounded recursion) *)

Inductive result (A : Type) :=
| Ok (a : A)
| Raise (e : exn).
Arguments Ok {A} a.
Arguments Raise {A} e.

#[global] Instance result_ret : MRet result := @Ok.
#[global] Instance result_bind : MBind result := λ A B f m,
  match m with Ok a => f a | Raise e => Raise e end.

(** ** Expressions (Vpl14) *)

Module Expression.

(** Modelled from the spec: [Vpl14/Expression.py] is not part of the
    sources at hand.  The constructors and their field names are the ones
    [Parser.py] builds and [Visitor.py] reads ([identifier], [bln], [num],
    [left]/[right], [exp], [exp_def]/[exp_body], [cond]/[e0]/[e1],
    [formal]/[body], [function]/[actual]). *)
Inductive expr :=
| Var (identifier : string)
| Bln (bln : bool)
| Num (num : Z)
| Eql (left right : expr)
| And (left right : expr)
| Or (left right : expr)
| Add (left right : expr)
| Sub (left right : expr)
| Mul (left right : expr)
| Div (left right : expr)
| Leq (left right : expr)
| Lth (left right : expr)
| Neg (exp : expr)
| Not (exp : expr)
| Let (identifier : string) (exp_def exp_body : expr)
| IfThenElse (cond e0 e1 : expr)
| Fn (formal : string) (body : expr)
| App (function actual : expr).

End Expression.

(** ** The abstract machine ([Asm.py]) *)

Module Asm.

(** What a register or a memory cell holds: a Python [int], or the tuple
    [("closure", formal, body, env)] that [GenVisitor.visit_fn] stores in
    the environment. *)
#[warnings="-register-all"]
Inductive value :=
| VInt (n : Z)
| VClosure (formal : string) (body : Expression.expr) (captured : gmap string value).

Inductive inst :=
| Beq (rs1 rs2 : string) (lab : option Z)
| Jal (rd : string) (lab : option Z)
| Jalr (rd rs : string) (offset : option Z)
| Sw (rs1 : string) (offset : Z) (reg : string)
| Lw (rs1 : string) (offset : Z) (reg : string)
| Add (rd rs1 rs2 : string)
| Addi (rd rs1 : string) (imm : Z)
| Mul (rd rs1 rs2 : string)
| Sub (rd rs1 rs2 : string)
| Xor (rd rs1 rs2 : string)
| Xori (rd rs1 : string) (imm : Z)
| Div (rd rs1 rs2 : string)
| Slt (rd rs1 rs2 : string)
| Slti (rd rs1 : string) (imm : Z).

(** [BranchOp.set_target] *)
Definition set_target (i : inst) (l : Z) : inst :=
  match i with
  | Beq rs1 rs2 _ => Beq rs1 rs2 (Some l)
  | Jal rd _ => Jal rd (Some l)
  | other => other
  end.

(** [pc] is [None] after a branch whose target was never set. *)
Record Program := mkProgram {
  mem : list value;
  env : gmap string value;
  insts : list inst;
  pc : option Z
}.

(** [Program.__init__] *)
Definition init (memory_size : Z) (env0 : gmap string value) (instrs : list inst)
  : Program :=
  {| mem := replicate (Z.to_nat memory_size) (VInt 0);
     env := <["sp" := VInt memory_size]> (<["x0" := VInt 0]> env0);
     insts := instrs;
     pc := Some 0 |}.

Definition get_number_of_instructions (p : Program) : Z :=
  Z.of_nat (length (insts p)).

Definition add_inst (i : inst) (p : Program) : Program :=
  {| mem := mem p; env := env p; insts := insts p ++ [i]; pc := pc p |}.

Definition get_pc (p : Program) : option Z := pc p.

Definition set_pc (l : option Z) (p : Program) : Program :=
  {| mem := mem p; env := env p; insts := insts p; pc := l |}.

(** [Program.set_val] *)
Definition set_val (name : string) (v : value) (p : Program) : Program :=
  if decide (name ≠ "x0")
  then {| mem := mem p; env := <[name := v]> (env p);
          insts := insts p; pc := pc p |}
  else p.

(** [Program.get_val] *)
Definition get_val (name : string) (p : Program) : result value :=
  match env p !! name with
  | Some v => Ok v
  | None => Raise (SysExit ("Undefined register: " +:+ name))
  end.

(** Python list indexing: [-len <= i < 0] counts from the end. *)
Definition py_index (len : nat) (i : Z) : option nat :=
  if decide (0 ≤ i < Z.of_nat len) then Some (Z.to_nat i)
  else if decide (- Z.of_nat len ≤ i < 0) then Some (Z.to_nat (Z.of_nat len + i))
  else None.

(** [Program.set_mem] *)
Definition set_mem (addr : Z) (v : value) (p : Program) : result Program :=
  match py_index (length (mem p)) addr with
  | Some k => Ok {| mem := <[k := v]> (mem p); env := env p;
                    insts := insts p; pc := pc p |}
  | None => Raise IndexError
  end.

(** [Program.get_mem] *)
Definition get_mem (addr : Z) (p : Program) : result value :=
  match py_index (length (mem p)) addr with
  | Some k => match mem p !! k with Some v => Ok v | None => Raise IndexError end
  | None => Raise IndexError
  end.

(** [Program.get_inst]: [None] is Python's [None]; comparing a [None]
    program counter with [0] raises. *)
Definition get_inst (p : Program) : result (option (inst * Program)) :=
  match pc p with
  | None => Raise TypeError
  | Some n =>
      if decide (0 ≤ n ∧ n < Z.of_nat (length (insts p))) then
        match insts p !! Z.to_nat n with
        | Some i => Ok (Some (i, set_pc (Some (n + 1)) p))
        | None => Raise IndexError
        end
      else Ok None
  end.

(** *** Python operators on register values *)

Definition py_add (a b : value) : result value :=
  match a, b with
  | VInt x, VInt y => Ok (VInt (x + y))
  | VClosure _ _ _, VClosure _ _ _ => Raise TupleOperand
  | _, _ => Raise TypeError
  end.

Definition py_sub (a b : value) : result value :=
  match a, b with
  | VInt x, VInt y => Ok (VInt (x - y))
  | _, _ => Raise TypeError
  end.

Definition py_mul (a b : value) : result value :=
  match a, b with
  | VInt x, VInt y => Ok (VInt (x * y))
  | VClosure _ _ _, VClosure _ _ _ => Raise TypeError
  | _, _ => Raise TupleOperand
  end.

Definition py_xor (a b : value) : result value :=
  match a, b with
  | VInt x, VInt y => Ok (VInt (Z.lxor x y))
  | _, _ => Raise TypeError
  end.

Definition py_floordiv (a b : value) : result value :=
  match a, b with
  | VInt x, VInt y =>
      if decide (y = 0) then Raise ZeroDivisionError else Ok (VInt (x `div` y))
  | _, _ => Raise TypeError
  end.

Definition py_lt (a b : value) : result bool :=
  match a, b with
  | VInt x, VInt y => Ok (bool_decide (x < y))
  | VClosure _ _ _, VClosure _ _ _ => Raise TupleOperand
  | _, _ => Raise TypeError
  end.

(** [==] never raises; an [int] never equals a tuple. *)
Definition py_eq (a b : value) : result bool :=
  match a, b with
  | VInt x, VInt y => Ok (bool_decide (x = y))
  | VClosure _ _ _, VClosure _ _ _ => Raise TupleOperand
  | _, _ => Ok false
  end.

Definition py_add_imm (a : value) (imm : option Z) : result Z :=
  match a, imm with
  | VInt x, Some k => Ok (x + k)
  | _, _ => Raise TypeError
  end.

(** *** [eval] of each instruction class *)

(** The first statement of [Jal.eval] and [Jalr.eval]:
    [if self.rd != "x0": prog.set_val(self.rd, prog.get_pc())].  In the
    loop of [Program.eval] the program counter is an [int] here, since
    [get_inst] has just incremented it. *)
Definition link (rd : string) (p : Program) : result Program :=
  if decide (rd ≠ "x0") then
    match get_pc p with
    | Some n => Ok (set_val rd (VInt n) p)
    | None => Raise TypeError
    end
  else Ok p.

Definition inst_eval (i : inst) (p : Program) : result Program :=
  match i with
  | Beq rs1 rs2 lab =>
      a ← get_val rs1 p; b ← get_val rs2 p; c ← py_eq a b;
      Ok (if c : bool then set_pc lab p else p)
  | Jal rd lab =>
      p1 ← link rd p;
      Ok (set_pc lab p1)
  | Jalr rd rs offset =>
      p1 ← link rd p;
      rs_val ← get_val rs p1;
      t ← py_add_imm rs_val offset;
      Ok (set_pc (Some t) p1)
  | Sw rs1 offset reg =>
      val ← get_val reg p;
      b ← get_val rs1 p;
      addr ← py_add_imm b (Some offset);
      set_mem addr val p
  | Lw rs1 offset reg =>
      b ← get_val rs1 p;
      addr ← py_add_imm b (Some offset);
      val ← get_mem addr p;
      Ok (set_val reg val p)
  | Add rd rs1 rs2 =>
      a ← get_val rs1 p; b ← get_val rs2 p; v ← py_add a b;
      Ok (set_val rd v p)
  | Addi rd rs1 imm =>
      a ← get_val rs1 p; v ← py_add a (VInt imm);
      Ok (set_val rd v p)
  | Mul rd rs1 rs2 =>
      a ← get_val rs1 p; b ← get_val rs2 p; v ← py_mul a b;
      Ok (set_val rd v p)
  | Sub rd rs1 rs2 =>
      a ← get_val rs1 p; b ← get_val rs2 p; v ← py_sub a b;
      Ok (set_val rd v p)
  | Xor rd rs1 rs2 =>
      a ← get_val rs1 p; b ← get_val rs2 p; v ← py_xor a b;
      Ok (set_val rd v p)
  | Xori rd rs1 imm =>
      a ← get_val rs1 p; v ← py_xor a (VInt imm);
      Ok (set_val rd v p)
  | Div rd rs1 rs2 =>
      a ← get_val rs1 p; b ← get_val rs2 p; v ← py_floordiv a b;
      Ok (set_val rd v p)
  | Slt rd rs1 rs2 =>
      a ← get_val rs1 p; b ← get_val rs2 p; c ← py_lt a b;
      Ok (set_val rd (VInt (if c : bool then 1 else 0)) p)
  | Slti rd rs1 imm =>
      a ← get_val rs1 p; c ← py_lt a (VInt imm);
      Ok (set_val rd (VInt (if c : bool then 1 else 0)) p)
  end.

(** The destination register of an instruction, when it has one. *)
Definition destination (i : inst) : option string :=
  match i with
  | Beq _ _ _ | Sw _ _ _ => None
  | Jal rd _ | Jalr rd _ _ => Some rd
  | Lw _ _ reg => Some reg
  | Add rd _ _ | Addi rd _ _ | Mul rd _ _ | Sub rd _ _ | Xor rd _ _
  | Xori rd _ _ | Div rd _ _ | Slt rd _ _ | Slti rd _ _ => Some rd
  end.

(** One turn of the loop of [Program.eval]: fetch, then execute.
    [Ok None] says that [get_inst] returned [None] and the loop ends. *)
Definition step (p : Program) : result (option Program) :=
  f ← get_inst p;
  match f with
  | None => Ok None
  | Some (i, p1) => p2 ← inst_eval i p1; Ok (Some p2)
  end.

(** [Program.eval]: the state in which the loop ends. *)
Fixpoint eval (fuel : nat) (p : Program) : result Program :=
  match fuel with
  | O => Raise OutOfFuel
  | S fuel' =>
      o ← step p;
      match o with
      | None => Ok p
      | Some p' => eval fuel' p'
      end
  end.

(** The state after exactly [n] turns of the loop, when there are that
    many. *)
Fixpoint run (n : nat) (p : Program) : option Program :=
  match n with
  | O => Some p
  | S n' =>
      match step p with
      | Ok (Some p') => run n' p'
      | _ => None
      end
  end.

End Asm.

(** ** The renamer ([Visitor.py], class [RenameVisitor]) *)

Module RenameVisitor.
Import Expression.

(** [RenameVisitor.rename]: the name for [base] under counter value [c];
    the counter is then [S c]. *)
Definition rename (base : string) (c : nat) : string :=
  base +:+ "_" +:+ pretty c.

(** [exp.accept(self, name_map)]: the visitor rewrites the tree in place
    and counts in [self._counter]; here it returns the rewritten tree and
    the new counter. *)
Fixpoint visit (exp : expr) (name_map : gmap string string) (c : nat)
  : expr * nat :=
  match exp with
  | Var identifier =>
      match name_map !! identifier with
      | Some m => (Var m, c)
      | None => (Var identifier, c)
      end
  | Bln b => (Bln b, c)
  | Num n => (Num n, c)
  | Eql l r =>
      let '(l', c1) := visit l name_map c in
      let '(r', c2) := visit r name_map c1 in (Eql l' r', c2)
  | And l r =>
      let '(l', c1) := visit l name_map c in
      let '(r', c2) := visit r name_map c1 in (And l' r', c2)
  | Or l r =>
      let '(l', c1) := visit l name_map c in
      let '(r', c2) := visit r name_map c1 in (Or l' r', c2)
  | Add l r =>
      let '(l', c1) := visit l name_map c in
      let '(r', c2) := visit r name_map c1 in (Add l' r', c2)
  | Sub l r =>
      let '(l', c1) := visit l name_map c in
      let '(r', c2) := visit r name_map c1 in (Sub l' r', c2)
  | Mul l r =>
      let '(l', c1) := visit l name_map c in
      let '(r', c2) := visit r name_map c1 in (Mul l' r', c2)
  | Div l r =>
      let '(l', c1) := visit l name_map c in
      let '(r', c2) := visit r name_map c1 in (Div l' r', c2)
  | Leq l r =>
      let '(l', c1) := visit l name_map c in
      let '(r', c2) := visit r name_map c1 in (Leq l' r', c2)
  | Lth l r =>
      let '(l', c1) := visit l name_map c in
      let '(r', c2) := visit r name_map c1 in (Lth l' r', c2)
  | Neg e => let '(e', c1) := visit e name_map c in (Neg e', c1)
  | Not e => let '(e', c1) := visit e name_map c in (Not e', c1)
  | Let originalId exp_def exp_body =>
      let '(d', c1) := visit exp_def name_map c in
      let newId := rename originalId c1 in
      let extended_map := <[originalId := newId]> name_map in
      let '(b', c2) := visit exp_body extended_map (S c1) in
      (Let newId d' b', c2)
  | IfThenElse cond e0 e1 =>
      let '(cond', c1) := visit cond name_map c in
      let '(e0', c2) := visit e0 name_map c1 in
      let '(e1', c3) := visit e1 name_map c2 in
      (IfThenElse cond' e0' e1', c3)
  | Fn originalId body =>
      let newId := rename originalId c in
      let extended_map := <[originalId := newId]> name_map in
      let '(b', c1) := visit body extended_map (S c) in
      (Fn newId b', c1)
  | App f a =>
      let '(f', c1) := visit f name_map c in
      let '(a', c2) := visit a name_map c1 in (App f' a', c2)
  end.

(** The names the binders of a tree carry ([Let] identifiers and [Fn]
    formals), in the order in which the visitor meets them. *)
Fixpoint binders (e : expr) : list string :=
  match e with
  | Var _ | Bln _ | Num _ => []
  | Eql l r | And l r | Or l r | Add l r | Sub l r | Mul l r | Div l r
  | Leq l r | Lth l r | App l r => binders l ++ binders r
  | Neg e | Not e => binders e
  | Let x d b => binders d ++ x :: binders b
  | IfThenElse c a b => binders c ++ binders a ++ binders b
  | Fn x b => x :: binders b
  end.

(** [scoped m e e']: the tree [e'] is the tree [e] with other names, and
    each variable of [e] carries in [e'] the name that the innermost
    binder of [e] around it carries in [e'].  The map [m] sends the source
    names bound around [e] to the names their innermost binders carry in
    the renamed tree; a variable outside [m] has no binder and keeps its
    name. *)
Fixpoint scoped (m : gmap string string) (e e' : expr) : Prop :=
  match e, e' with
  | Var x, Var y => y = default x (m !! x)
  | Bln a, Bln b => a = b
  | Num a, Num b => a = b
  | Eql l r, Eql l' r' | And l r, And l' r' | Or l r, Or l' r'
  | Add l r, Add l' r' | Sub l r, Sub l' r' | Mul l r, Mul l' r'
  | Div l r, Div l' r' | Leq l r, Leq l' r' | Lth l r, Lth l' r'
  | App l r, App l' r' => scoped m l l' ∧ scoped m r r'
  | Neg a, Neg a' | Not a, Not a' => scoped m a a'
  | Let x d b, Let x' d' b' => scoped m d d' ∧ scoped (<[x := x']> m) b b'
  | IfThenElse c a b, IfThenElse c' a' b' =>
      scoped m c c' ∧ scoped m a a' ∧ scoped m b b'
  | Fn x b, Fn x' b' => scoped (<[x := x']> m) b b'
  | _, _ => False
  end.

(** A name that [rename] made with a counter value in [[lo, hi)]. *)
Definition stamped (lo hi : nat) (x : string) : Prop :=
  ∃ b k, x = rename b k ∧ (lo ≤ k < hi)%nat.

(** A string without the character [_]. *)
Fixpoint no_underscore (s : string) : Prop :=
  match s with
  | EmptyString => True
  | String c s' => c ≠ "_"%char ∧ no_underscore s'
  end.

End RenameVisitor.

(** ** The code generator ([Visitor.py], class [GenVisitor]) *)

Module GenVisitor.
Import Expression.

(** The visitor's counter and the program it appends to. *)
Record state := mkState {
  next_var_counter : nat;
  prog : Asm.Program
}.

Definition gen (A : Type) : Type := state → result (A * state).

Definition gret {A} (a : A) : gen A := λ s, Ok (a, s).
Definition gbind {A B} (m : gen A) (f : A → gen B) : gen B := λ s,
  match m s with
  | Ok (a, s') => f a s'
  | Raise e => Raise e
  end.

#[local] Notation "x <- m ;; k" := (gbind m (λ x, k))
  (at level 100, m at next level, right associativity).
#[local] Notation "m ;;; k" := (gbind m (λ _, k))
  (at level 100, right associativity).

(** The name [f"tmp{n}"]. *)
Definition tmp (n : nat) : string := "tmp" +:+ pretty n.

(** [GenVisitor.next_var_name] *)
Definition next_var_name : gen string := λ s,
  let n := S (next_var_counter s) in
  Ok (tmp n, {| next_var_counter := n; prog := prog s |}).

Definition with_prog (f : Asm.Program → Asm.Program) : gen unit := λ s,
  Ok (tt, {| next_var_counter := next_var_counter s; prog := f (prog s) |}).

Definition add_inst (i : Asm.inst) : gen unit := with_prog (Asm.add_inst i).

Definition get_number_of_instructions : gen Z := λ s,
  Ok (Asm.get_number_of_instructions (prog s), s).

(** [b.set_target(l)] for the branch object [b] that was appended as
    instruction number [k]: the list holds that same object. *)
Definition set_target_at (k l : Z) : gen unit :=
  with_prog (λ p, {| Asm.mem := Asm.mem p; Asm.env := Asm.env p;
                     Asm.insts := alter (λ i, Asm.set_target i l)
                                        (Z.to_nat k) (Asm.insts p);
                     Asm.pc := Asm.pc p |}).

Definition get_val (name : string) : gen Asm.value := λ s,
  match Asm.get_val name (prog s) with
  | Ok v => Ok (v, s)
  | Raise e => Raise e
  end.

Definition set_val (name : string) (v : Asm.value) : gen unit :=
  with_prog (Asm.set_val name v).

Definition lookup_env (name : string) : gen (option Asm.value) := λ s,
  Ok (Asm.env (prog s) !! name, s).

Definition current_env : gen (gmap string Asm.value) := λ s,
  Ok (Asm.env (prog s), s).

Definition is_fn (e : expr) : bool :=
  match e with Fn _ _ => true | _ => false end.

(** [copy.deepcopy(body)] followed by
    [body_copy.accept(RenameVisitor(), {formal: arg_var})]. *)
Definition substituted (formal arg_var : string) (body : expr) : expr :=
  fst (RenameVisitor.visit body {[formal := arg_var]} 0).

Definition binop (fuel : nat) (visit : nat → expr → gen string)
    (mk : string → string → string → Asm.inst) (l r : expr) : gen string :=
  left_var <- visit fuel l;;
  right_var <- visit fuel r;;
  dest <- next_var_name;;
  add_inst (mk dest left_var right_var);;;
  gret dest.

(** [exp.accept(self, prog)].  The generator is not structurally
    recursive: an application visits a renamed copy of a function body,
    so the recursion is bounded by [fuel]. *)
Fixpoint visit (fuel : nat) (exp : expr) : gen string :=
  match fuel with
  | O => λ _, Raise OutOfFuel
  | S fuel =>
    match exp with
    | Var identifier => gret identifier
    | Bln b =>
        dest <- next_var_name;;
        add_inst (Asm.Addi dest "x0" (if b then 1 else 0));;;
        gret dest
    | Num n =>
        dest <- next_var_name;;
        add_inst (Asm.Addi dest "x0" n);;;
        gret dest
    | Eql l r =>
        left_var <- visit fuel l;;
        right_var <- visit fuel r;;
        diff <- next_var_name;;
        add_inst (Asm.Sub diff left_var right_var);;;
        lt_one <- next_var_name;;
        add_inst (Asm.Slti lt_one diff 1);;;
        lt_zero <- next_var_name;;
        add_inst (Asm.Slti lt_zero diff 0);;;
        result <- next_var_name;;
        add_inst (Asm.Xor result lt_one lt_zero);;;
        gret result
    | And l r =>
        left_var <- visit fuel l;;
        beq <- get_number_of_instructions;;
        add_inst (Asm.Beq left_var "x0" None);;;
        right_var <- visit fuel r;;
        dest <- next_var_name;;
        add_inst (Asm.Add dest right_var "x0");;;
        jmp <- get_number_of_instructions;;
        add_inst (Asm.Jal "x0" None);;;
        n <- get_number_of_instructions;;
        set_target_at beq n;;;
        add_inst (Asm.Addi dest "x0" 0);;;
        n' <- get_number_of_instructions;;
        set_target_at jmp n';;;
        gret dest
    | Or l r =>
        left_var <- visit fuel l;;
        beq <- get_number_of_instructions;;
        add_inst (Asm.Beq left_var "x0" None);;;
        dest <- next_var_name;;
        add_inst (Asm.Addi dest "x0" 1);;;
        jmp <- get_number_of_instructions;;
        add_inst (Asm.Jal "x0" None);;;
        n <- get_number_of_instructions;;
        set_target_at beq n;;;
        right_var <- visit fuel r;;
        add_inst (Asm.Add dest right_var "x0");;;
        n' <- get_number_of_instructions;;
        set_target_at jmp n';;;
        gret dest
    | Add l r => binop fuel visit Asm.Add l r
    | Sub l r => binop fuel visit Asm.Sub l r
    | Mul l r => binop fuel visit Asm.Mul l r
    | Div l r => binop fuel visit Asm.Div l r
    | Leq l r =>
        left_var <- visit fuel l;;
        right_var <- visit fuel r;;
        lower_than <- next_var_name;;
        add_inst (Asm.Slt lower_than right_var left_var);;;
        dest <- next_var_name;;
        add_inst (Asm.Xori dest lower_than 1);;;
        gret dest
    | Lth l r => binop fuel visit Asm.Slt l r
    | Neg e =>
        operand <- visit fuel e;;
        dest <- next_var_name;;
        add_inst (Asm.Sub dest "x0" operand);;;
        gret dest
    | Not e =>
        operand <- visit fuel e;;
        lt_one <- next_var_name;;
        add_inst (Asm.Slti lt_one operand 1);;;
        lt_zero <- next_var_name;;
        add_inst (Asm.Slti lt_zero operand 0);;;
        dest <- next_var_name;;
        add_inst (Asm.Xor dest lt_one lt_zero);;;
        gret dest
    | Let identifier exp_def exp_body =>
        value_var <- visit fuel exp_def;;
        (if is_fn exp_def
         then v <- get_val value_var;; set_val identifier v
         else add_inst (Asm.Add identifier value_var "x0"));;;
        visit fuel exp_body
    | IfThenElse cond e0 e1 =>
        cond_var <- visit fuel cond;;
        beq <- get_number_of_instructions;;
        add_inst (Asm.Beq cond_var "x0" None);;;
        e0_var <- visit fuel e0;;
        dest <- next_var_name;;
        add_inst (Asm.Add dest e0_var "x0");;;
        jmp <- get_number_of_instructions;;
        add_inst (Asm.Jal "x0" None);;;
        n <- get_number_of_instructions;;
        set_target_at beq n;;;
        e1_var <- visit fuel e1;;
        add_inst (Asm.Add dest e1_var "x0");;;
        n' <- get_number_of_instructions;;
        set_target_at jmp n';;;
        gret dest
    | Fn formal body =>
        closure_id <- next_var_name;;
        captured <- current_env;;
        set_val closure_id (Asm.VClosure formal body captured);;;
        gret closure_id
    | App function actual =>
        match function with
        | Fn formal body =>
            arg_var <- visit fuel actual;;
            visit fuel (substituted formal arg_var body)
        | _ =>
            fn_var <- visit fuel function;;
            arg_var <- visit fuel actual;;
            closure_tuple <- lookup_env fn_var;;
            match closure_tuple with
            | Some (Asm.VClosure formal_param body_expr _) =>
                visit fuel (substituted formal_param arg_var body_expr)
            | _ =>
                result <- next_var_name;;
                add_inst (Asm.Add result fn_var "x0");;;
                gret result
            end
        end
    end
  end.

(** [l] is [base] with instructions appended. *)
Definition extends (base l : list Asm.inst) : Prop := ∃ suf, l = base ++ suf.

End GenVisitor.

(** ** The lexer ([Lexer.py]) *)

Module Lexer.

Inductive TokenType :=
| EOF | NLN | WSP | COM | NUM | STR | TRU | FLS | VAR | LET | INX | END
| EQL | ADD | SUB | MUL | DIV | LEQ | LTH | NEG | NOT | LPR | RPR | ASN
| ORX | AND | IFX | THN | ELS | FNX | ARW | TPF | COL | INT | LGC.

#[global] Instance TokenType_eq_dec : EqDecision TokenType.
Proof. solve_decision. Defined.

(** [token_type.name] *)
Definition name (k : TokenType) : string :=
  match k with
  | EOF => "EOF" | NLN => "NLN" | WSP => "WSP" | COM => "COM" | NUM => "NUM"
  | STR => "STR" | TRU => "TRU" | FLS => "FLS" | VAR => "VAR" | LET => "LET"
  | INX => "INX" | END => "END" | EQL => "EQL" | ADD => "ADD" | SUB => "SUB"
  | MUL => "MUL" | DIV => "DIV" | LEQ => "LEQ" | LTH => "LTH" | NEG => "NEG"
  | NOT => "NOT" | LPR => "LPR" | RPR => "RPR" | ASN => "ASN" | ORX => "ORX"
  | AND => "AND" | IFX => "IFX" | THN => "THN" | ELS => "ELS" | FNX => "FNX"
  | ARW => "ARW" | TPF => "TPF" | COL => "COL" | INT => "INT" | LGC => "LGC"
  end.

Record Token := mkToken { text : string; kind : TokenType }.

(** Characters are the 8-bit [ascii]; [str.isdigit], [str.isalpha] and
    [str.isalnum] are given on the ASCII range (codes above 127 are
    taken as neither digit nor letter). *)
Definition isdigit (c : ascii) : bool :=
  let n := nat_of_ascii c in (48 <=? n)%nat && (n <=? 57)%nat.
Definition isalpha (c : ascii) : bool :=
  let n := nat_of_ascii c in
  ((65 <=? n)%nat && (n <=? 90)%nat) || ((97 <=? n)%nat && (n <=? 122)%nat).
Definition isalnum (c : ascii) : bool := isalpha c || isdigit c.

Definition newline : ascii := ascii_of_nat 10.
Definition tab : ascii := ascii_of_nat 9.
Definition cr : ascii := ascii_of_nat 13.

Definition ascii_eqb (a b : ascii) : bool := bool_decide (a = b).
Arguments ascii_eqb (a b)%_char.

(** The longest prefix whose characters satisfy [p], and the rest. *)
Fixpoint span (p : ascii → bool) (s : string) : string * string :=
  match s with
  | String c s' =>
      if p c then let '(a, b) := span p s' in (String c a, b) else ("", s)
  | EmptyString => ("", s)
  end.

(** The loop of the block comment: the text from the cursor up to and
    including the first star followed by a closing parenthesis, and the
    rest; [None] when the loop runs
    to the end ([raise ValueError]). *)
Fixpoint block_comment (s : string) : option (string * string) :=
  match s with
  | String c1 ((String c2 s2) as s1) =>
      if ascii_eqb c1 "*" && ascii_eqb c2 ")" then Some (String c1 (String c2 ""), s2)
      else match block_comment s1 with
           | Some (a, b) => Some (String c1 a, b)
           | None => None
           end
  | _ => None
  end.

Definition keywords (txt : string) : TokenType :=
  if decide (txt = "let") then LET
  else if decide (txt = "in") then INX
  else if decide (txt = "end") then END
  else if decide (txt = "true") then TRU
  else if decide (txt = "false") then FLS
  else if decide (txt = "if") then IFX
  else if decide (txt = "then") then THN
  else if decide (txt = "else") then ELS
  else if decide (txt = "or") then ORX
  else if decide (txt = "and") then AND
  else if decide (txt = "not") then NOT
  else if decide (txt = "fn") then FNX
  else if decide (txt = "int") then INT
  else if decide (txt = "bool") then LGC
  else VAR.

(** [Lexer.getToken] on the text from the cursor on: the token, and the
    text from the new cursor on. *)
Definition getToken (s : string) : result (Token * string) :=
  match s with
  | EmptyString => Ok (mkToken "" EOF, s)
  | String c rest =>
      if ascii_eqb c newline then Ok (mkToken (String c "") NLN, rest)
      else if ascii_eqb c " " || ascii_eqb c tab || ascii_eqb c cr
      then Ok (mkToken (String c "") WSP, rest)
      else if ascii_eqb c "-" &&
              match rest with String d _ => ascii_eqb d "-" | _ => false end
      then let '(a, b) := span (λ x, negb (ascii_eqb x newline)) s in
           Ok (mkToken a COM, b)
      else if ascii_eqb c "(" &&
              match rest with String d _ => ascii_eqb d "*" | _ => false end
      then match rest with
           | String d rest2 =>
               match block_comment rest2 with
               | Some (a, b) => Ok (mkToken (String c (String d a)) COM, b)
               | None => Raise (ValueError "Unterminated block comment")
               end
           | EmptyString => Raise (ValueError "Unterminated block comment")
           end
      else if isdigit c
      then let '(a, b) := span isdigit s in Ok (mkToken a NUM, b)
      else if isalpha c
      then let '(a, b) := span (λ x, isalnum x || ascii_eqb x "_") s in
           Ok (mkToken a (keywords a), b)
      else if ascii_eqb c "+" then Ok (mkToken "+" ADD, rest)
      else if ascii_eqb c "-" then
        match rest with
        | String ">" r => Ok (mkToken "->" TPF, r)
        | _ => Ok (mkToken "-" SUB, rest)
        end
      else if ascii_eqb c "*" then Ok (mkToken "*" MUL, rest)
      else if ascii_eqb c "/" then Ok (mkToken "/" DIV, rest)
      else if ascii_eqb c "<" then
        match rest with
        | String "-" r => Ok (mkToken "<-" ASN, r)
        | String "=" r => Ok (mkToken "<=" LEQ, r)
        | _ => Ok (mkToken "<" LTH, rest)
        end
      else if ascii_eqb c "=" then
        match rest with
        | String ">" r => Ok (mkToken "=>" ARW, r)
        | String "=" r => Ok (mkToken "==" EQL, r)
        | _ => Ok (mkToken "=" EQL, rest)
        end
      else if ascii_eqb c "~" then Ok (mkToken "~" NEG, rest)
      else if ascii_eqb c ":" then Ok (mkToken ":" COL, rest)
      else if ascii_eqb c "(" then Ok (mkToken "(" LPR, rest)
      else if ascii_eqb c ")" then Ok (mkToken ")" RPR, rest)
      else Raise (ValueError ("Unexpected character: " +:+ String c ""))
  end.

(** [Lexer.tokens], forced to a list (as [Parser.__init__] does).  Every
    token but [EOF] consumes a character, so [S (length source)] turns
    suffice. *)
Fixpoint tokens_from (fuel : nat) (s : string) : result (list Token) :=
  match fuel with
  | O => Raise OutOfFuel
  | S fuel =>
      r ← getToken s;
      let '(token, s') := r in
      if decide (kind token = EOF) then Ok []
      else
        rest ← tokens_from fuel s';
        Ok (if decide (kind token ≠ WSP ∧ kind token ≠ COM ∧ kind token ≠ NLN)
            then token :: rest else rest)
  end.

Definition tokens (source : string) : result (list Token) :=
  tokens_from (S (String.length source)) source.

End Lexer.

(** ** The parser ([Parser.py]) *)

Module Parser.
Import Expression Lexer.

Record state := mkState {
  tokens : list Token;
  cur_token_idx : nat
}.

(** [Parser.__init__] *)
Definition init (toks : list Token) : state :=
  {| tokens := toks ++ [mkToken "" EOF]; cur_token_idx := 0 |}.

Definition parser (A : Type) : Type := state → result (A * state).

Definition pret {A} (a : A) : parser A := λ s, Ok (a, s).
Definition pbind {A B} (m : parser A) (f : A → parser B) : parser B := λ s,
  match m s with
  | Ok (a, s') => f a s'
  | Raise e => Raise e
  end.
Definition praise {A} (e : exn) : parser A := λ _, Raise e.

#[local] Notation "x <- m ;; k" := (pbind m (λ x, k))
  (at level 100, m at next level, right associativity).
#[local] Notation "m ;;; k" := (pbind m (λ _, k))
  (at level 100, right associativity).

(** [Parser._current]: [self.tokens[self.cur_token_idx]] *)
Definition _current : parser Token := λ s,
  match tokens s !! cur_token_idx s with
  | Some t => Ok (t, s)
  | None => Raise IndexError
  end.

(** [Parser._advance] *)
Definition _advance : parser unit := λ s,
  if decide (Z.of_nat (cur_token_idx s) < Z.of_nat (length (tokens s)) - 1)
  then Ok (tt, {| tokens := tokens s; cur_token_idx := S (cur_token_idx s) |})
  else Ok (tt, s).

(** [Parser._error] *)
Definition _error {A} (message : string) : parser A :=
  praise (SysExit ("Parse error: " +:+ message)).

(** [Parser._expect] *)
Definition _expect (token_type : TokenType) : parser Token :=
  token <- _current;;
  (if decide (kind token ≠ token_type)
   then _error ("Expected " +:+ name token_type)
   else pret tt);;;
  _advance;;;
  pret token.

Definition _is_application_start : parser bool :=
  token <- _current;;
  pret (bool_decide (kind token ∈ [NUM; TRU; FLS; VAR; LPR; LET; FNX; NEG; NOT])).

(** [int(token.text)] for a run of decimal digits, the only text the
    lexer gives a [NUM] token. *)
Definition digit_value (c : ascii) : Z := Z.of_nat (nat_of_ascii c) - 48.

Fixpoint int_of_digits_from (acc : Z) (s : string) : result Z :=
  match s with
  | EmptyString => Ok acc
  | String c s' =>
      if isdigit c then int_of_digits_from (10 * acc + digit_value c) s'
      else Raise (ValueError "invalid literal for int() with base 10")
  end.

Definition int_of_digits (s : string) : result Z :=
  match s with
  | EmptyString => Raise (ValueError "invalid literal for int() with base 10")
  | _ => int_of_digits_from 0 s
  end.

Section Grammar.

(** Python's [int] on the text of a [NUM] token.  A caller may hand the
    parser tokens of any text, so the conversion is left open here;
    [int_of_digits] is its value on what the lexer produces. *)
Variable int : string → result Z.

Definition num_of (token : Token) : parser expr := λ s,
  match int (text token) with
  | Ok n => Ok (Num n, s)
  | Raise e => Raise e
  end.

(** The methods [_parse_*].  They call each other without a decreasing
    argument, so the recursion is bounded by [fuel]; every [while] loop
    is the function named [*_loop] after its method. *)
Fixpoint _parse_expression (fuel : nat) : parser expr :=
  match fuel with
  | O => praise OutOfFuel
  | S fuel =>
      t0 <- _current;;
      if decide (kind t0 = IFX) then
        _advance;;;
        cond <- _parse_or fuel;;
        _expect THN;;;
        e0 <- _parse_expression fuel;;
        _expect ELS;;;
        e1 <- _parse_expression fuel;;
        _expect END;;;
        pret (IfThenElse cond e0 e1)
      else
        t1 <- _current;;
        if decide (kind t1 = FNX) then _parse_lambda fuel
        else _parse_or fuel
  end
with _parse_or (fuel : nat) : parser expr :=
  match fuel with
  | O => praise OutOfFuel
  | S fuel => left <- _parse_and fuel;; _parse_or_loop fuel left
  end
with _parse_or_loop (fuel : nat) (left : expr) : parser expr :=
  match fuel with
  | O => praise OutOfFuel
  | S fuel =>
      t <- _current;;
      if decide (kind t = ORX) then
        _advance;;;
        right <- _parse_and fuel;;
        _parse_or_loop fuel (Or left right)
      else pret left
  end
with _parse_and (fuel : nat) : parser expr :=
  match fuel with
  | O => praise OutOfFuel
  | S fuel => left <- _parse_equality fuel;; _parse_and_loop fuel left
  end
with _parse_and_loop (fuel : nat) (left : expr) : parser expr :=
  match fuel with
  | O => praise OutOfFuel
  | S fuel =>
      t <- _current;;
      if decide (kind t = AND) then
        _advance;;;
        right <- _parse_equality fuel;;
        _parse_and_loop fuel (And left right)
      else pret left
  end
with _parse_let (fuel : nat) : parser expr :=
  match fuel with
  | O => praise OutOfFuel
  | S fuel =>
      _expect LET;;;
      id <- _expect VAR;;
      _expect ASN;;;
      exp_def <- _parse_expression fuel;;
      _expect INX;;;
      exp_body <- _parse_expression fuel;;
      _expect END;;;
      pret (Let (text id) exp_def exp_body)
  end
with _parse_lambda (fuel : nat) : parser expr :=
  match fuel with
  | O => praise OutOfFuel
  | S fuel =>
      _expect FNX;;;
      formal <- _expect VAR;;
      _expect ARW;;;
      body <- _parse_expression fuel;;
      pret (Fn (text formal) body)
  end
with _parse_equality (fuel : nat) : parser expr :=
  match fuel with
  | O => praise OutOfFuel
  | S fuel => left <- _parse_comparison fuel;; _parse_equality_loop fuel left
  end
with _parse_equality_loop (fuel : nat) (left : expr) : parser expr :=
  match fuel with
  | O => praise OutOfFuel
  | S fuel =>
      t <- _current;;
      if decide (kind t = EQL) then
        _advance;;;
        right <- _parse_comparison fuel;;
        _parse_equality_loop fuel (Eql left right)
      else pret left
  end
with _parse_comparison (fuel : nat) : parser expr :=
  match fuel with
  | O => praise OutOfFuel
  | S fuel => left <- _parse_additive fuel;; _parse_comparison_loop fuel left
  end
with _parse_comparison_loop (fuel : nat) (left : expr) : parser expr :=
  match fuel with
  | O => praise OutOfFuel
  | S fuel =>
      t <- _current;;
      if decide (kind t = LEQ) then
        _advance;;;
        right <- _parse_additive fuel;;
        _parse_comparison_loop fuel (Leq left right)
      else if decide (kind t = LTH) then
        _advance;;;
        right <- _parse_additive fuel;;
        _parse_comparison_loop fuel (Lth left right)
      else pret left
  end
with _parse_application (fuel : nat) : parser expr :=
  match fuel with
  | O => praise OutOfFuel
  | S fuel =>
      left <- _parse_multiplicative fuel;; _parse_application_loop fuel left
  end
with _parse_application_loop (fuel : nat) (left : expr) : parser expr :=
  match fuel with
  | O => praise OutOfFuel
  | S fuel =>
      b <- _is_application_start;;
      if b : bool then
        right <- _parse_multiplicative fuel;;
        _parse_application_loop fuel (App left right)
      else pret left
  end
with _parse_additive (fuel : nat) : parser expr :=
  match fuel with
  | O => praise OutOfFuel
  | S fuel => left <- _parse_application fuel;; _parse_additive_loop fuel left
  end
with _parse_additive_loop (fuel : nat) (left : expr) : parser expr :=
  match fuel with
  | O => praise OutOfFuel
  | S fuel =>
      t <- _current;;
      if decide (kind t = ADD) then
        _advance;;;
        right <- _parse_application fuel;;
        _parse_additive_loop fuel (Add left right)
      else if decide (kind t = SUB) then
        _advance;;;
        right <- _parse_application fuel;;
        _parse_additive_loop fuel (Sub left right)
      else pret left
  end
with _parse_multiplicative (fuel : nat) : parser expr :=
  match fuel with
  | O => praise OutOfFuel
  | S fuel => left <- _parse_unary fuel;; _parse_multiplicative_loop fuel left
  end
with _parse_multiplicative_loop (fuel : nat) (left : expr) : parser expr :=
  match fuel with
  | O => praise OutOfFuel
  | S fuel =>
      t <- _current;;
      if decide (kind t = MUL) then
        _advance;;;
        right <- _parse_unary fuel;;
        _parse_multiplicative_loop fuel (Mul left right)
      else if decide (kind t = DIV) then
        _advance;;;
        right <- _parse_unary fuel;;
        _parse_multiplicative_loop fuel (Div left right)
      else pret left
  end
with _parse_unary (fuel : nat) : parser expr :=
  match fuel with
  | O => praise OutOfFuel
  | S fuel =>
      t <- _current;;
      if decide (kind t = NEG) then
        _advance;;; e <- _parse_unary fuel;; pret (Neg e)
      else if decide (kind t = NOT) then
        _advance;;; e <- _parse_unary fuel;; pret (Not e)
      else _parse_primary fuel
  end
with _parse_primary (fuel : nat) : parser expr :=
  match fuel with
  | O => praise OutOfFuel
  | S fuel =>
      token <- _current;;
      if decide (kind token = NUM) then _advance;;; num_of token
      else if decide (kind token = TRU) then _advance;;; pret (Bln true)
      else if decide (kind token = FLS) then _advance;;; pret (Bln false)
      else if decide (kind token = VAR) then _advance;;; pret (Var (text token))
      else if decide (kind token = LPR) then
        _advance;;;
        e <- _parse_expression fuel;;
        _expect RPR;;;
        pret e
      else if decide (kind token = LET) then _parse_let fuel
      else if decide (kind token = FNX) then _parse_lambda fuel
      else if decide (kind token = IFX) then _parse_expression fuel
      else _error "Unexpected token"
  end.

(** [Parser.parse] *)
Definition parse (fuel : nat) : parser expr :=
  e <- _parse_expression fuel;;
  _expect EOF;;;
  pret e.

End Grammar.

(** The cursor is on a token of the buffer. *)
Definition in_bounds (s : state) : Prop :=
  (cur_token_idx s < length (tokens s))%nat.

(** A computation of the parser that, from a state whose cursor is in
    bounds, never raises [IndexError], and leaves the buffer as it was
    and the cursor in bounds when it returns. *)
Definition safe {A} (m : parser A) : Prop :=
  ∀ s, in_bounds s →
    match m s with
    | Ok (_, s') => in_bounds s' ∧ tokens s' = tokens s
    | Raise e => e ≠ IndexError
    end.

End Parser.

(** ** The driver ([driver.py]) *)

Module Driver.

(** [rename_variables] *)
Definition rename_variables (exp : Expression.expr) : Expression.expr :=
  fst (RenameVisitor.visit exp ∅ 0).

(** The line [print(f"Answer: {v}")] writes for an integer [v]. *)
Definition answer_line (n : Z) : string := "Answer: " +:+ pretty n.

(** The body of [__main__]: the value handed to [print], or the
    exception that ends the run.  [fuel] bounds the recursion of the
    parser, of the generator and the loop of the machine. *)
Definition main (fuel : nat) (text : string) : result Asm.value :=
  toks ← Lexer.tokens text;
  r ← Parser.parse Parser.int_of_digits fuel (Parser.init toks);
  let exp := rename_variables (fst r) in
  let prog := Asm.init 1000 ∅ [] in
  g ← GenVisitor.visit fuel exp
        {| GenVisitor.next_var_counter := 0; GenVisitor.prog := prog |};
  let '(var_answer, st) := g in
  prog' ← Asm.eval fuel (GenVisitor.prog st);
  Asm.get_val var_answer prog'.

End Driver.

(** ** The constraint generator of stage Vpl9 ([Vpl9/Visitor.py]) *)

Module Vpl9.

(** Modelled from the spec: [Vpl9/Expression.py] is not part of the
    sources at hand.  The constructors are those for which the abstract
    [Visitor] of [Vpl9/Visitor.py] declares a [visit_*] method, with the
    fields its visitors read. *)
Inductive expr :=
| Var (identifier : string)
| Bln (bln : bool)
| Num (num : Z)
| Eql (left right : expr)
| Add (left right : expr)
| Sub (left right : expr)
| Mul (left right : expr)
| Div (left right : expr)
| Mod (left right : expr)
| Leq (left right : expr)
| Lth (left right : expr)
| Neg (exp : expr)
| Not (exp : expr)
| Let (identifier : string) (exp_def exp_body : expr)
| IfThenElse (cond e0 e1 : expr)
| Or (left right : expr)
| And (left right : expr)
| Fn (formal : string) (body : expr)
| Fun (name formal : string) (body : expr)
| App (function actual : expr).

(** The two sides of a constraint: the class [int] ([type(1)]), the class
    [bool] ([type(True)]), or a string, which names a program variable
    or a type variable [TV_n]. *)
Inductive term :=
| TInt
| TBool
| Name (s : string).

#[global] Instance term_eq_dec : EqDecision term.
Proof. solve_decision. Defined.

Definition term_code (t : term) : string + bool :=
  match t with Name s => inl s | TInt => inr true | TBool => inr false end.
Definition term_decode (x : string + bool) : term :=
  match x with inl s => Name s | inr true => TInt | inr false => TBool end.

#[global] Instance term_countable : Countable term.
Proof.
  refine (inj_countable' term_code term_decode _).
  intros []; reflexivity.
Defined.

Abbreviation constraints := (gset (term * term)).

Module CtrGenVisitor.

(** [CtrGenVisitor.fresh_type_var] under counter value [c]; the counter
    is then [S c]. *)
Definition fresh_type_var (c : nat) : string := "TV_" +:+ pretty (S c).

Definition binary (visit : expr → term → nat → constraints * nat)
    (operand result : term) (l r : expr) (type_var : term) (c : nat)
  : constraints * nat :=
  let '(left_, c1) := visit l operand c in
  let '(right_, c2) := visit r operand c1 in
  (left_ ∪ right_ ∪ {[ (result, type_var) ]}, c2).

(** [exp.accept(self, type_var)] with [self.fresh_type_counter = c]: the
    set of constraints and the new counter. *)
Fixpoint visit (exp : expr) (type_var : term) (c : nat) : constraints * nat :=
  match exp with
  | Var identifier => ({[ (Name identifier, type_var) ]}, c)
  | Bln _ => ({[ (TBool, type_var) ]}, c)
  | Num _ => ({[ (TInt, type_var) ]}, c)
  | Eql l r =>
      let tv_1 := Name (fresh_type_var c) in
      let '(left_, c1) := visit l tv_1 (S c) in
      let '(right_, c2) := visit r tv_1 c1 in
      (left_ ∪ right_ ∪ {[ (TBool, type_var) ]}, c2)
  | And l r => binary visit TBool TBool l r type_var c
  | Or l r => binary visit TBool TBool l r type_var c
  | Add l r => binary visit TInt TInt l r type_var c
  | Sub l r => binary visit TInt TInt l r type_var c
  | Mul l r => binary visit TInt TInt l r type_var c
  | Div l r => binary visit TInt TInt l r type_var c
  | Mod l r => binary visit TInt TInt l r type_var c
  | Leq l r => binary visit TInt TBool l r type_var c
  | Lth l r => binary visit TInt TBool l r type_var c
  | Neg e =>
      let '(number, c1) := visit e TInt c in
      (number ∪ {[ (TInt, type_var) ]}, c1)
  | Not e =>
      let '(arg, c1) := visit e TBool c in
      (arg ∪ {[ (TBool, type_var) ]}, c1)
  | Let identifier exp_def exp_body =>
      let '(K0, c1) := visit exp_def (Name identifier) c in
      let TV_2 := Name (fresh_type_var c1) in
      let '(K1, c2) := visit exp_body TV_2 (S c1) in
      (K0 ∪ K1 ∪ {[ (TV_2, type_var) ]}, c2)
  | IfThenElse cond e0 e1 =>
      let '(cnd, c1) := visit cond TBool c in
      let TV_2 := Name (fresh_type_var c1) in
      let '(thn, c2) := visit e0 TV_2 (S c1) in
      let '(els, c3) := visit e1 TV_2 c2 in
      (cnd ∪ thn ∪ els ∪ {[ (TV_2, type_var) ]}, c3)
  | Fn formal body =>
      let TV_param := Name (fresh_type_var c) in
      let TV_body := Name (fresh_type_var (S c)) in
      let '(body_constraints, c1) := visit body TV_body (S (S c)) in
      (body_constraints ∪ {[ (TV_body, type_var) ]}, c1)
  | Fun _ formal body =>
      let TV_param := Name (fresh_type_var c) in
      let TV_body := Name (fresh_type_var (S c)) in
      let '(body_constraints, c1) := visit body TV_body (S (S c)) in
      (body_constraints ∪ {[ (TV_body, type_var) ]}, c1)
  | App function actual =>
      let TV_func := Name (fresh_type_var c) in
      let TV_arg := Name (fresh_type_var (S c)) in
      let '(func_constraints, c1) := visit function TV_func (S (S c)) in
      let '(arg_constraints, c2) := visit actual TV_arg c1 in
      (func_constraints ∪ arg_constraints ∪ {[ (TV_func, type_var) ]}, c2)
  end.

End CtrGenVisitor.

(** The type terms of the specification's constraint rules, in which a
    function type is [Arrow]. *)
Inductive spec_term :=
| SInt
| SBool
| SName (s : string)
| SArrow (head tail : spec_term).

#[global] Instance spec_term_eq_dec : EqDecision spec_term.
Proof. solve_decision. Defined.

Definition to_spec (t : term) : spec_term :=
  match t with TInt => SInt | TBool => SBool | Name s => SName s end.

(** The rule of the specification for [Fn x body] against [τ], read on a
    result [K] of the generator that drew [α] and then [β]: [K] holds the
    constraints of the body generated against [β], the pair [(x, α)] and
    the pair [(Arrow(α, β), τ)]. *)
Definition spec_fn_rule (x : string) (body_constraints : constraints)
    (α β : string) (τ : term) (K : constraints) : Prop :=
  body_constraints ⊆ K ∧
  (Name x, Name α) ∈ K ∧
  ∃ k, k ∈ K ∧ (to_spec k.1, to_spec k.2) = (SArrow (SName α) (SName β), to_spec τ).

End Vpl9.


(** ** The two example programs of [Asm.py] *)

Module AsmPrograms.
Import Asm.

(** [max(a, b)]: the program is built on [Program(0, {}, [])], run, and
    register [rd] is read.  [fuel] bounds the loop of [Program.eval]. *)
Definition max (fuel : nat) (a b : Z) : result value :=
  let p := init 0 ∅ [] in
  let p := set_val "rs1" (VInt a) p in
  let p := set_val "rs2" (VInt b) p in
  let p := add_inst (Slt "t0" "rs2" "rs1") p in
  let p := add_inst (Slt "t1" "rs1" "rs2") p in
  let p := add_inst (Mul "t0" "t0" "rs1") p in
  let p := add_inst (Mul "t1" "t1" "rs2") p in
  let p := add_inst (Add "rd" "t0" "t1") p in
  p' ← eval fuel p;
  get_val "rd" p'.

(** [distance_with_acceleration(V, A, T)] *)
Definition distance_with_acceleration (fuel : nat) (V A T : Z) : result value :=
  let p := init 0 ∅ [] in
  let p := set_val "rs1" (VInt V) p in
  let p := set_val "rs2" (VInt A) p in
  let p := set_val "rs3" (VInt T) p in
  let p := add_inst (Addi "two" "x0" 2) p in
  let p := add_inst (Mul "t0" "rs1" "rs3") p in
  let p := add_inst (Mul "t1" "rs3" "rs3") p in
  let p := add_inst (Mul "t2" "rs2" "t1") p in
  let p := add_inst (Div "t2" "t2" "two") p in
  let p := add_inst (Add "rd" "t0" "t2") p in
  p' ← eval fuel p;
  get_val "rd" p'.

End AsmPrograms.

(** ** Notions used in the statements about the machine *)

Module AsmFacts.
Import Asm.

(** The registers an instruction reads. *)
Definition sources (i : inst) : list string :=
  match i with
  | Beq rs1 rs2 _ => [rs1; rs2]
  | Jal _ _ => []
  | Jalr _ rs _ => [rs]
  | Sw rs1 _ reg => [reg; rs1]
  | Lw rs1 _ _ => [rs1]
  | Add _ rs1 rs2 | Mul _ rs1 rs2 | Sub _ rs1 rs2 | Xor _ rs1 rs2
  | Div _ rs1 rs2 | Slt _ rs1 rs2 => [rs1; rs2]
  | Addi _ rs1 _ | Xori _ rs1 _ | Slti _ rs1 _ => [rs1]
  end.

End AsmFacts.

(** ** Notions used in the statements about the generator *)

Module GenFacts.
Import Expression.

(** The four binary nodes that [GenVisitor] lowers to one instruction
    on the registers of the operands: [visit_add], [visit_sub],
    [visit_mul] and [visit_lth]. *)
Inductive arith := PAdd | PSub | PMul | PLth.

Definition node (op : arith) (l r : expr) : expr :=
  match op with
  | PAdd => Add l r | PSub => Sub l r | PMul => Mul l r | PLth => Lth l r
  end.

Definition instruction (op : arith) (rd rs1 rs2 : string) : Asm.inst :=
  match op with
  | PAdd => Asm.Add rd rs1 rs2 | PSub => Asm.Sub rd rs1 rs2
  | PMul => Asm.Mul rd rs1 rs2 | PLth => Asm.Slt rd rs1 rs2
  end.

(** What the node means on two integers; a comparison gives 1 or 0. *)
Definition denote (op : arith) (a b : Z) : Z :=
  match op with
  | PAdd => a + b | PSub => a - b | PMul => a * b
  | PLth => if decide (a < b) then 1 else 0
  end.

(** *** What an expression computes

    The integer an expression without functions denotes under an
    assignment of integers to its free variables; truth values are 1 and
    0, as in [visit_bln].  [None] stands for an expression that has no
    integer value: a variable without a binding, a division by zero that
    is evaluated, a function or an application.  [And] and [Or] evaluate
    their right operand only when the left one does not decide, and
    [And] then hands on the value of the right operand as it is. *)
Fixpoint value (ρ : gmap string Z) (e : expr) : option Z :=
  match e with
  | Var x => ρ !! x
  | Bln b => Some (if b then 1 else 0)
  | Num n => Some n
  | Eql l r =>
      a ← value ρ l; b ← value ρ r; Some (if decide (a = b) then 1 else 0)
  | And l r => a ← value ρ l; if decide (a = 0) then Some 0 else value ρ r
  | Or l r => a ← value ρ l; if decide (a = 0) then value ρ r else Some 1
  | Add l r => a ← value ρ l; b ← value ρ r; Some (a + b)
  | Sub l r => a ← value ρ l; b ← value ρ r; Some (a - b)
  | Mul l r => a ← value ρ l; b ← value ρ r; Some (a * b)
  | Div l r =>
      a ← value ρ l; b ← value ρ r;
      if decide (b = 0) then None else Some (a `div` b)
  | Leq l r =>
      a ← value ρ l; b ← value ρ r; Some (if decide (a ≤ b) then 1 else 0)
  | Lth l r =>
      a ← value ρ l; b ← value ρ r; Some (if decide (a < b) then 1 else 0)
  | Neg e => a ← value ρ e; Some (- a)
  | Not e => a ← value ρ e; Some (if decide (a = 0) then 1 else 0)
  | Let x d b => a ← value ρ d; value (<[x := a]> ρ) b
  | IfThenElse c e0 e1 =>
      a ← value ρ c; if decide (a = 0) then value ρ e1 else value ρ e0
  | Fn _ _ | App _ _ => None
  end.

(** A register name that is neither [x0] nor a temporary of the
    generator. *)
Definition user_name (x : string) : Prop :=
  x ≠ "x0" ∧ ∀ j : nat, x ≠ GenVisitor.tmp j.

(** The binder names [W] are fit for code generation under the variables
    of [ρ]: every binder has a name of its own, which is not a variable
    of [ρ], and binders and variables are user names. *)
Definition hygienic_names (ρ : gmap string Z) (W : list string) : Prop :=
  NoDup W
  ∧ (∀ x, x ∈ W → user_name x ∧ ρ !! x = None)
  ∧ (∀ x, is_Some (ρ !! x) → user_name x).

(** The condition on the binders of an expression; it is what
    [RenameVisitor] establishes. *)
Definition hygienic (ρ : gmap string Z) (e : expr) : Prop :=
  hygienic_names ρ (RenameVisitor.binders e).

(** The machine [p] holds the instructions [code] from index [k] on. *)
Definition loaded (p : Asm.Program) (k : nat) (code : list Asm.inst) : Prop :=
  ∀ i x, code !! i = Some x → Asm.insts p !! (k + i)%nat = Some x.

(** The registers of [p] hold the variables of [ρ]. *)
Definition holds (p : Asm.Program) (ρ : gmap string Z) : Prop :=
  ∀ x a, ρ !! x = Some a → Asm.env p !! x = Some (Asm.VInt a).

(** Register [x] is none of the temporaries numbered [c+1] to [c'] and
    none of the names [W]. *)
Definition untouched (c c' : nat) (W : list string) (x : string) : Prop :=
  (∀ j, (c < j ≤ c')%nat → x ≠ GenVisitor.tmp j) ∧ x ∉ W.

(** Started at its first instruction, at index [k], in a state with 0
    in [x0] that satisfies [P], [code] runs to its end and leaves [v] in
    register [r]; it writes no register but the temporaries numbered
    [c+1] to [c'] and the names [W]. *)
Definition runs (P : Asm.Program → Prop) (code : list Asm.inst)
    (k c c' : nat) (W : list string) (r : string) (v : Z) : Prop :=
  ∀ p, loaded p k code →
       Asm.pc p = Some (Z.of_nat k) →
       Asm.env p !! "x0" = Some (Asm.VInt 0) →
       P p →
       ∃ n p', Asm.run n p = Some p'
               ∧ Asm.pc p' = Some (Z.of_nat (k + length code))
               ∧ Asm.insts p' = Asm.insts p
               ∧ Asm.env p' !! r = Some (Asm.VInt v)
               ∧ ∀ x, untouched c c' W x → Asm.env p' !! x = Asm.env p !! x.

(** [runs] from the states whose registers hold the variables of [ρ]. *)
Definition computes (code : list Asm.inst) (k c c' : nat) (W : list string)
    (ρ : gmap string Z) (r : string) (v : Z) : Prop :=
  runs (λ p, holds p ρ) code k c c' W r v.

(** The register a visit returns: one of its temporaries, one of its
    binders [W], or a variable. *)
Definition result_register (ρ : gmap string Z) (W : list string) (c c' : nat)
    (r : string) : Prop :=
  (∃ j, r = GenVisitor.tmp j ∧ (c < j ≤ c')%nat)
  ∨ r ∈ W
  ∨ is_Some (ρ !! r).

(** Expressions without functions and applications. *)
Fixpoint first_order (e : expr) : bool :=
  match e with
  | Var _ | Bln _ | Num _ => true
  | Eql l r | And l r | Or l r | Add l r | Sub l r | Mul l r | Div l r
  | Leq l r | Lth l r => first_order l && first_order r
  | Neg e | Not e => first_order e
  | Let _ d b => first_order d && first_order b
  | IfThenElse c a b => first_order c && first_order a && first_order b
  | Fn _ _ | App _ _ => false
  end.

(** The height of the tree, which bounds the recursion of a visit of a
    first-order expression. *)
Fixpoint depth (e : expr) : nat :=
  match e with
  | Var _ | Bln _ | Num _ => 0
  | Eql l r | And l r | Or l r | Add l r | Sub l r | Mul l r | Div l r
  | Leq l r | Lth l r | App l r => S (Nat.max (depth l) (depth r))
  | Neg e | Not e => S (depth e)
  | Let _ d b => S (Nat.max (depth d) (depth b))
  | IfThenElse c a b => S (Nat.max (depth c) (Nat.max (depth a) (depth b)))
  | Fn _ b => S (depth b)
  end.

(** What the visits with recursion bound [fuel] owe: on an expression
    with a value and fit names, a visit that returns has appended code
    that computes the value into the register it returns. *)
Definition correct (fuel : nat) : Prop :=
  ∀ e st r st' ρ v,
    GenVisitor.visit fuel e st = Ok (r, st') →
    value ρ e = Some v →
    hygienic ρ e →
    ∃ code,
      Asm.insts (GenVisitor.prog st') = Asm.insts (GenVisitor.prog st) ++ code
      ∧ result_register ρ (RenameVisitor.binders e)
          (GenVisitor.next_var_counter st) (GenVisitor.next_var_counter st') r
      ∧ computes code (length (Asm.insts (GenVisitor.prog st)))
          (GenVisitor.next_var_counter st) (GenVisitor.next_var_counter st')
          (RenameVisitor.binders e) ρ r v.

End GenFacts.

(** ** Notions used in the statements about the renamer *)

Module RenameFacts.

(** The name map [m] and the counter [c] of the renamer relate the
    variables of [ρ] to those of [ρ']: each variable of [ρ] is mapped,
    to a name made by [rename] with a counter value below [c], which
    holds the same integer in [ρ']. *)
Definition renames (m : gmap string string) (c : nat) (ρ ρ' : gmap string Z)
  : Prop :=
  ∀ y a, ρ !! y = Some a →
    ∃ y', m !! y = Some y' ∧ RenameVisitor.stamped 0 c y' ∧ ρ' !! y' = Some a.

End RenameFacts.

(** ** The back half of the driver *)

Module Backend.

(** The statements of [__main__] in [driver.py] after parsing: rename,
    generate code into a fresh program, run it and read the answer. *)
Definition compile_and_run (fuel : nat) (exp : Expression.expr)
  : result Asm.value :=
  let exp := Driver.rename_variables exp in
  let prog := Asm.init 1000 ∅ [] in
  g ← GenVisitor.visit fuel exp
        {| GenVisitor.next_var_counter := 0; GenVisitor.prog := prog |};
  let '(var_answer, st) := g in
  prog' ← Asm.eval fuel (GenVisitor.prog st);
  Asm.get_val var_answer prog'.

End Backend.
(** * Properties *)

(** ** Tactics *)

(** Case analysis on the outcome of a computation that is bound in a
    hypothesis or in the goal. *)
Ltac unbind :=
  unfold mbind, result_bind, mret, result_ret in *.

Ltac split_result H :=
  unbind;
  repeat match type of H with
  | context [match ?x with Ok _ => _ | Raise _ => _ end] =>
      let E := fresh "E" in destruct x eqn:E; try discriminate
  | context [match ?x with Some _ => _ | None => _ end] =>
      let E := fresh "E" in destruct x eqn:E; try discriminate
  | context [if ?x then _ else _] =>
      let E := fresh "E" in destruct x eqn:E; try discriminate
  | context [let '(_, _) := ?x in _] =>
      let E := fresh "E" in destruct x eqn:E
  end.

(** ** The abstract machine *)

Section Machine.
Import Asm.

Lemma env_set_pc l p : env (set_pc l p) = env p.
Proof. reflexivity. Qed.

Lemma insts_set_pc l p : insts (set_pc l p) = insts p.
Proof. reflexivity. Qed.

Lemma insts_set_val name v p : insts (set_val name v p) = insts p.
Proof. unfold set_val. case_decide; reflexivity. Qed.

Lemma pc_set_val name v p : pc (set_val name v p) = pc p.
Proof. unfold set_val. case_decide; reflexivity. Qed.

Lemma mem_set_val name v p : mem (set_val name v p) = mem p.
Proof. unfold set_val. case_decide; reflexivity. Qed.

Lemma set_val_x0 v p : set_val "x0" v p = p.
Proof. unfold set_val. case_decide; [congruence | reflexivity]. Qed.

Lemma lookup_set_val_ne name v p r :
  r ≠ name → env (set_val name v p) !! r = env p !! r.
Proof.
  intros Hne. unfold set_val. case_decide; [|reflexivity].
  simpl. by rewrite lookup_insert_ne.
Qed.

Lemma lookup_set_val_eq name v p :
  name ≠ "x0" → env (set_val name v p) !! name = Some v.
Proof.
  intros Hne. unfold set_val. case_decide; [|done].
  simpl. by rewrite lookup_insert_eq.
Qed.

Lemma lookup_set_val_x0 name v p :
  env (set_val name v p) !! "x0" = env p !! "x0".
Proof.
  destruct (decide (name = "x0")) as [->|Hne].
  - by rewrite set_val_x0.
  - by apply lookup_set_val_ne.
Qed.

Lemma env_set_mem addr v p p' : set_mem addr v p = Ok p' → env p' = env p.
Proof.
  unfold set_mem. destruct (py_index _ _); [|discriminate].
  by intros [= <-].
Qed.

Lemma insts_set_mem addr v p p' :
  set_mem addr v p = Ok p' → insts p' = insts p ∧ pc p' = pc p.
Proof.
  unfold set_mem. destruct (py_index _ _); [|discriminate].
  by intros [= <-].
Qed.

Lemma link_x0 rd p p' : link rd p = Ok p' → env p' !! "x0" = env p !! "x0".
Proof.
  unfold link. intros H. split_result H; injection H as <-;
    by rewrite ?lookup_set_val_x0.
Qed.

Lemma link_insts rd p p' : link rd p = Ok p' → insts p' = insts p.
Proof.
  unfold link. intros H. split_result H; injection H as <-;
    by rewrite ?insts_set_val.
Qed.

Lemma link_to_x0 p : link "x0" p = Ok p.
Proof. unfold link. case_decide; [congruence | reflexivity]. Qed.

(** No instruction changes what [x0] holds. *)
Lemma inst_eval_x0 i p p' :
  inst_eval i p = Ok p' → env p' !! "x0" = env p !! "x0".
Proof.
  intros H. destruct i; simpl in H; split_result H;
    try (injection H as <-);
    rewrite ?env_set_pc, ?lookup_set_val_x0, ?env_set_pc, ?lookup_set_val_x0;
    try reflexivity.
  all: try (apply env_set_mem in H; by rewrite H).
  all: match goal with H1 : link _ _ = _ |- _ => by apply link_x0 in H1 end.
Qed.

(** No instruction changes the list of instructions. *)
Lemma inst_eval_insts i p p' : inst_eval i p = Ok p' → insts p' = insts p.
Proof.
  intros H. destruct i; simpl in H; split_result H;
    try (injection H as <-);
    rewrite ?insts_set_pc, ?insts_set_val, ?insts_set_pc, ?insts_set_val;
    try reflexivity.
  all: try (apply insts_set_mem in H as [H _]; by rewrite H).
  all: match goal with H1 : link _ _ = _ |- _ => by apply link_insts in H1 end.
Qed.

Lemma get_inst_env p i p1 :
  get_inst p = Ok (Some (i, p1)) → env p1 = env p ∧ insts p1 = insts p.
Proof.
  unfold get_inst. intros H. split_result H. by injection H as <- <-.
Qed.

Lemma inst_eval_insts_step p p' : step p = Ok (Some p') → insts p' = insts p.
Proof.
  unfold step. intros H. split_result H.
  injection H as <-.
  match goal with H1 : get_inst _ = _ |- _ => apply get_inst_env in H1 as [_ <-] end.
  eauto using inst_eval_insts.
Qed.

Lemma step_x0 p p' : step p = Ok (Some p') → env p' !! "x0" = env p !! "x0".
Proof.
  unfold step. intros H. split_result H.
  injection H as <-.
  match goal with H1 : get_inst _ = _ |- _ => apply get_inst_env in H1 as [<- _] end.
  eauto using inst_eval_x0.
Qed.

Lemma run_x0 n p p' : run n p = Some p' → env p' !! "x0" = env p !! "x0".
Proof.
  revert p. induction n as [|n IH]; intros p; simpl.
  - by intros [= <-].
  - destruct (step p) as [[p1|]|] eqn:E; try discriminate.
    intros H. rewrite (IH _ H). by apply step_x0.
Qed.

Lemma inst_eval_dest_x0 i p p' :
  destination i = Some "x0" → inst_eval i p = Ok p' → env p' = env p.
Proof.
  intros Hd H. destruct i; simpl in Hd; try discriminate;
    injection Hd as ->; simpl in H; split_result H;
    try (injection H as <-); rewrite ?env_set_pc, ?set_val_x0;
    rewrite ?link_to_x0 in *; by simplify_eq.
Qed.

(** C1: register [x0] reads as 0 in the state that [Program.__init__]
    builds from any memory size, any initial environment and any
    instruction list, and in every state the loop of [Program.eval]
    reaches from it; [set_val] on [x0] returns the program unchanged, and
    an instruction whose destination is [x0] leaves the whole
    environment as it was. *)
Theorem x0_always_zero (memory_size : Z) (env0 : gmap string value)
    (instrs : list inst) :
  get_val "x0" (init memory_size env0 instrs) = Ok (VInt 0)
  ∧ (∀ v p, set_val "x0" v p = p)
  ∧ (∀ i p p', destination i = Some "x0" → inst_eval i p = Ok p' →
               env p' = env p)
  ∧ (∀ n p', run n (init memory_size env0 instrs) = Some p' →
             get_val "x0" p' = Ok (VInt 0)).
Proof.
  assert (H0 : env (init memory_size env0 instrs) !! "x0" = Some (VInt 0)).
  { simpl. rewrite lookup_insert_ne by done. by rewrite lookup_insert_eq. }
  split; [by unfold get_val; rewrite H0|].
  split; [apply set_val_x0|].
  split; [apply inst_eval_dest_x0|].
  intros n p' Hrun. unfold get_val.
  by rewrite (run_x0 _ _ _ Hrun), H0.
Qed.


(** Witness of [x0_always_zero]: the example of the docstring of
    [Program.eval], [Add("x0", "b0", "b1")] from [{"b0": 2, "b1": 3}]. *)
Lemma x0_always_zero_witness :
  let p := init 0 {[ "b0" := VInt 2; "b1" := VInt 3 ]} [Add "x0" "b0" "b1"] in
  ∃ p', run 1 p = Some p' ∧ get_val "x0" p' = Ok (VInt 0).
Proof.
  intros p. destruct (run 1 p) as [p'|] eqn:E; [|discriminate E].
  exists p'. split; [reflexivity|].
  exact (proj2 (proj2 (proj2 (x0_always_zero 0 _ _))) 1%nat p' E).
Defined.

(** C5: [Div.eval] on integer operands [a] and [b]: when [b] is not zero
    it writes the floor quotient of [a] by [b] to [rd] (through
    [set_val]), and the quotient [q] is the floor of the exact quotient:
    [b*q <= a < b*q + b] for a positive divisor and [b*q + b < a <= b*q]
    for a negative one; when [b] is zero it raises the division-by-zero
    error and nothing else. *)
Theorem div_eval_floor_or_zero_error (rd rs1 rs2 : string) (a b : Z)
    (p : Program) :
  env p !! rs1 = Some (VInt a) →
  env p !! rs2 = Some (VInt b) →
  (b = 0 → inst_eval (Div rd rs1 rs2) p = Raise ZeroDivisionError)
  ∧ (b ≠ 0 →
       inst_eval (Div rd rs1 rs2) p = Ok (set_val rd (VInt (a `div` b)) p)
       ∧ (rd ≠ "x0" →
            get_val rd (set_val rd (VInt (a `div` b)) p) = Ok (VInt (a `div` b)))
       ∧ (0 < b → b * (a `div` b) ≤ a < b * (a `div` b) + b)
       ∧ (b < 0 → b * (a `div` b) + b < a ≤ b * (a `div` b))).
Proof.
  intros H1 H2. simpl. unfold get_val. rewrite H1, H2. simpl.
  split.
  - intros ->. reflexivity.
  - intros Hb. unfold py_floordiv. case_decide; [done|].
    split; [reflexivity|]. split.
    + intros Hrd. by rewrite lookup_set_val_eq.
    + pose proof (Z.div_mod a b Hb) as Hdm. split; intros Hs.
      * pose proof (Z.mod_pos_bound a b Hs). lia.
      * pose proof (Z.mod_neg_bound a b Hs). lia.
Qed.

(** Witness of [div_eval_floor_or_zero_error]: the example of the
    docstring of [Div], 8 // 3 from [{"b0": 8, "b1": 3}]. *)
Lemma div_eval_floor_or_zero_error_witness :
  let p := init 0 {[ "b0" := VInt 8; "b1" := VInt 3 ]} [Div "a" "b0" "b1"] in
  env p !! "b0" = Some (VInt 8) ∧ env p !! "b1" = Some (VInt 3)
  ∧ inst_eval (Div "a" "b0" "b1") p = Ok (set_val "a" (VInt 2) p).
Proof.
  split; [reflexivity|]. split; [reflexivity|].
  refine (proj1 (proj2 (div_eval_floor_or_zero_error "a" "b0" "b1" 8 3 _ _ _) _)).
  - reflexivity.
  - reflexivity.
  - discriminate.
Defined.

Lemma py_index_in_range (len : nat) (i : Z) :
  0 ≤ i < Z.of_nat len → py_index len i = Some (Z.to_nat i).
Proof. intros H. unfold py_index. by rewrite decide_True. Qed.

Lemma py_index_wraps (len : nat) (i : Z) :
  - Z.of_nat len ≤ i < 0 → py_index len i = Some (Z.to_nat (Z.of_nat len + i)).
Proof.
  intros H. unfold py_index.
  rewrite decide_False by lia. by rewrite decide_True.
Qed.

Lemma py_index_out (len : nat) (i : Z) :
  i < - Z.of_nat len ∨ Z.of_nat len ≤ i → py_index len i = None.
Proof.
  intros H. unfold py_index.
  rewrite decide_False by lia. by rewrite decide_False by lia.
Qed.

(** C6, as the code has it: a store or a load whose effective address
    [a = rs1 + offset] is at least the memory size or below its negation
    raises [IndexError] and touches no cell.  An address in
    [[0, |memory|)] reaches cell [a]; an address in [[-|memory|, 0)] is
    a Python index from the end and reaches cell [|memory| + a]. *)
Theorem mem_access_bounds (rs1 reg : string) (offset base : Z) (p : Program) :
  env p !! rs1 = Some (VInt base) →
  let a := base + offset in
  let n := Z.of_nat (length (mem p)) in
  (a < - n ∨ n ≤ a →
     inst_eval (Lw rs1 offset reg) p = Raise IndexError
     ∧ ∀ v, env p !! reg = Some v →
            inst_eval (Sw rs1 offset reg) p = Raise IndexError)
  ∧ (∀ k : nat, (0 ≤ a < n ∧ k = Z.to_nat a) ∨ (- n ≤ a < 0 ∧ k = Z.to_nat (n + a)) →
       (∃ w, mem p !! k = Some w
             ∧ inst_eval (Lw rs1 offset reg) p = Ok (set_val reg w p))
       ∧ ∀ v, env p !! reg = Some v →
              inst_eval (Sw rs1 offset reg) p
              = Ok {| mem := <[k := v]> (mem p); env := env p;
                      insts := insts p; pc := pc p |}).
Proof.
  intros H1 a n. split.
  - intros Hout. split.
    + simpl. unfold get_val. rewrite H1. simpl.
      unfold get_mem. by rewrite py_index_out.
    + intros v Hv. simpl. unfold get_val. rewrite Hv, H1. simpl.
      unfold set_mem. by rewrite py_index_out.
  - intros k Hk.
    assert (Hidx : py_index (length (mem p)) (base + offset) = Some k).
    { destruct Hk as [[Hr ->]|[Hr ->]];
        [by apply py_index_in_range | by apply py_index_wraps]. }
    assert (Hlt : (k < length (mem p))%nat).
    { destruct Hk as [[Hr ->]|[Hr ->]]; subst a n; lia. }
    split.
    + destruct (lookup_lt_is_Some_2 (mem p) k Hlt) as [w Hw].
      exists w. split; [done|].
      simpl. unfold get_val. rewrite H1. simpl.
      unfold get_mem. by rewrite Hidx, Hw.
    + intros v Hv. simpl. unfold get_val. rewrite Hv, H1. simpl.
      unfold set_mem. by rewrite Hidx.
Qed.

(** Witness of [mem_access_bounds]: base register 3, offset 20, in a
    memory of ten cells. *)
Lemma mem_access_bounds_witness :
  let p := init 10 {[ "a" := VInt 3; "b" := VInt 2 ]} [] in
  inst_eval (Lw "a" 20 "b") p = Raise IndexError
  ∧ inst_eval (Sw "a" 20 "b") p = Raise IndexError.
Proof.
  intros p.
  assert (H1 : env p !! "a" = Some (VInt 3)) by reflexivity.
  destruct (mem_access_bounds "a" "b" 20 3 p H1) as [Hout _].
  destruct Hout as [Hl Hs]; [right; vm_compute; discriminate|].
  split; [exact Hl | exact (Hs (VInt 2) eq_refl)].
Defined.

(** C6, counterexample: with ten cells of memory and base register 0,
    the store [sw b, -1(a)] succeeds and writes cell 9, and the load
    [lw c, -1(a)] succeeds and reads cell 9. *)
Lemma negative_address_reaches_last_cell :
  let p := init 10 {[ "a" := VInt 0; "b" := VInt 7 ]} [] in
  (∃ p', inst_eval (Sw "a" (-1) "b") p = Ok p'
         ∧ mem p' !! 9%nat = Some (VInt 7))
  ∧ inst_eval (Lw "a" (-1) "c") p = Ok (set_val "c" (VInt 0) p).
Proof. split; [eexists; split|]; reflexivity. Qed.

Lemma get_inst_out_of_range p n :
  pc p = Some n → n < 0 ∨ Z.of_nat (length (insts p)) ≤ n →
  get_inst p = Ok None.
Proof.
  intros Hpc Hn. unfold get_inst. rewrite Hpc.
  by rewrite decide_False by lia.
Qed.

(** C10: when the program counter is negative or at least the number of
    instructions, [get_inst] returns [None] and [Program.eval] returns
    at once, in the same state and without an error; so a loop turn
    (any instruction, a taken branch or a jump included) that leaves
    the program counter there is the last one. *)
Theorem pc_out_of_range_halts (p : Program) (n : Z) :
  pc p = Some n →
  n < 0 ∨ Z.of_nat (length (insts p)) ≤ n →
  get_inst p = Ok None
  ∧ (∀ fuel, eval (S fuel) p = Ok p)
  ∧ (∀ q fuel, step q = Ok (Some p) → eval (S (S fuel)) q = Ok p).
Proof.
  intros Hpc Hn.
  pose proof (get_inst_out_of_range p n Hpc Hn) as Hg.
  assert (He : ∀ fuel, eval (S fuel) p = Ok p).
  { intros fuel. simpl. unfold step. by rewrite Hg. }
  split; [done|]. split; [done|].
  intros q fuel Hq. change (eval (S (S fuel)) q) with
    (o ← step q; match o with None => Ok q | Some p' => eval (S fuel) p' end).
  rewrite Hq. apply He.
Qed.

(** Witness of [pc_out_of_range_halts]: the one-instruction program
    [jal x0 -5]; after the jump the program counter is [-5] and
    evaluation ends there. *)
Lemma pc_out_of_range_halts_witness :
  let q := init 0 ∅ [Jal "x0" (Some (-5))] in
  let p := set_pc (Some (-5)) q in
  step q = Ok (Some p) ∧ eval 2 q = Ok p ∧ get_inst p = Ok None.
Proof.
  intros q p.
  assert (Hpc : pc p = Some (-5)) by reflexivity.
  assert (Hn : -5 < 0 ∨ Z.of_nat (length (insts p)) ≤ -5) by (left; lia).
  destruct (pc_out_of_range_halts p (-5) Hpc Hn) as (Hg & _ & Hq).
  assert (Hs : step q = Ok (Some p)) by reflexivity.
  split; [exact Hs|]. split; [exact (Hq q 0%nat Hs) | exact Hg].
Defined.

End Machine.

(** ** The code generator *)

Section Generator.
Import Expression GenVisitor.

Lemma extends_refl l : extends l l.
Proof. exists []. by rewrite app_nil_r. Qed.

Lemma extends_app base l l2 : extends base l → extends base (l ++ l2).
Proof. intros [suf ->]. exists (suf ++ l2). by rewrite app_assoc. Qed.

Lemma extends_length base l : extends base l → (length base ≤ length l)%nat.
Proof. intros [suf ->]. rewrite length_app. lia. Qed.

Lemma extends_alter base l f k :
  extends base l → (length base ≤ k)%nat → extends base (alter f k l).
Proof.
  intros [suf ->] Hk. exists (alter f (k - length base)%nat suf).
  replace k with (length base + (k - length base))%nat at 1 by lia.
  apply alter_app_r.
Qed.

Lemma extends_trans a b c : extends a b → extends b c → extends a c.
Proof. intros [s1 ->] [s2 ->]. exists (s1 ++ s2). by rewrite app_assoc. Qed.

Lemma insts_asm_set_val name v p : Asm.insts (Asm.set_val name v p) = Asm.insts p.
Proof. unfold Asm.set_val. case_decide; reflexivity. Qed.

Ltac gen_unfold H :=
  simpl in H;
  unfold binop, gbind, gret, next_var_name, add_inst,
    get_number_of_instructions, set_target_at, with_prog, get_val, set_val,
    lookup_env, current_env in H;
  simpl in H.

Ltac ext_side :=
  unfold Asm.get_number_of_instructions, Asm.add_inst; simpl;
  rewrite ?Nat2Z.id, ?length_alter, ?length_app, ?length_alter, ?length_app;
  simpl;
  repeat match goal with
  | H : extends _ _ |- _ => apply extends_length in H
  end; lia.

Ltac ext_solve :=
  simpl; rewrite ?insts_asm_set_val;
  repeat first
    [ assumption
    | apply extends_app
    | apply extends_alter; [| ext_side] ].

(** The generator only appends to the instruction list: what was there
    before a visit is still there, unchanged, after it. *)
Lemma visit_extends fuel :
  ∀ e st r st', visit fuel e st = Ok (r, st') →
  ∀ base, extends base (Asm.insts (prog st)) →
          extends base (Asm.insts (prog st')).
Proof.
  induction fuel as [|fuel IH]; intros e st r st' H base Hb; [discriminate|].
  destruct e; gen_unfold H;
    repeat first
    [ match type of H with
      | context [visit fuel ?e ?s] =>
        let E := fresh "E" in
        destruct (visit fuel e s) as [[? ?]|] eqn:E; [|discriminate H];
        (let X := fresh "X" in
         pose proof (IH _ _ _ _ E base) as X; simpl in X;
         rewrite ?insts_asm_set_val in X;
         match type of X with ?P → _ =>
           let Y := fresh "Y" in
           assert (Y : P) by ext_solve; specialize (X Y); clear Y end);
        simpl in H
      end
    | match type of H with
      | context [if is_fn ?e then _ else _] => destruct (is_fn e)
      | context [match Asm.get_val ?x ?p with _ => _ end] =>
          destruct (Asm.get_val x p); [|discriminate H]
      | context [match Asm.env ?p !! ?x with _ => _ end] =>
          destruct (Asm.env p !! x) as [[]|]
      | context [match ?e with Var _ => _ | _ => _ end] => destruct e
      end; gen_unfold H ].
  all: try (injection H as <- <-; ext_solve; fail).
Qed.


Lemma tmp_not_x0 n : tmp n ≠ "x0".
Proof. unfold tmp. simpl. discriminate. Qed.

Lemma tmp_inj m n : tmp m = tmp n → m = n.
Proof.
  unfold tmp. simpl. intros [= H]. exact (pretty_nat_inj _ _ H).
Qed.

(** *** Loop turns of the machine on the instructions the generator
    emits *)

Lemma step_at (p : Asm.Program) (z : Z) (k : nat) (i : Asm.inst) :
  Asm.pc p = Some z → z = Z.of_nat k → Asm.insts p !! k = Some i →
  Asm.step p
  = (p2 ← Asm.inst_eval i (Asm.set_pc (Some (z + 1)) p); Ok (Some p2)).
Proof.
  intros Hpc -> Hi. unfold Asm.step, Asm.get_inst. rewrite Hpc.
  pose proof (lookup_lt_Some _ _ _ Hi).
  rewrite decide_True by lia. rewrite Nat2Z.id, Hi. reflexivity.
Qed.

Lemma step_Sub p z k rd rs1 rs2 a b :
  Asm.pc p = Some z → z = Z.of_nat k → Asm.insts p !! k = Some (Asm.Sub rd rs1 rs2) →
  Asm.env p !! rs1 = Some (Asm.VInt a) → Asm.env p !! rs2 = Some (Asm.VInt b) →
  Asm.step p = Ok (Some (Asm.set_val rd (Asm.VInt (a - b))
                           (Asm.set_pc (Some (z + 1)) p))).
Proof.
  intros Hpc Hz Hi H1 H2. rewrite (step_at _ _ _ _ Hpc Hz Hi). simpl.
  unfold Asm.get_val. simpl. by rewrite H1, H2.
Qed.

Lemma step_Slti p z k rd rs1 imm a :
  Asm.pc p = Some z → z = Z.of_nat k → Asm.insts p !! k = Some (Asm.Slti rd rs1 imm) →
  Asm.env p !! rs1 = Some (Asm.VInt a) →
  Asm.step p = Ok (Some (Asm.set_val rd
                           (Asm.VInt (if bool_decide (a < imm) then 1 else 0))
                           (Asm.set_pc (Some (z + 1)) p))).
Proof.
  intros Hpc Hz Hi H1. rewrite (step_at _ _ _ _ Hpc Hz Hi). simpl.
  unfold Asm.get_val. simpl. by rewrite H1.
Qed.

Lemma step_Xor p z k rd rs1 rs2 a b :
  Asm.pc p = Some z → z = Z.of_nat k → Asm.insts p !! k = Some (Asm.Xor rd rs1 rs2) →
  Asm.env p !! rs1 = Some (Asm.VInt a) → Asm.env p !! rs2 = Some (Asm.VInt b) →
  Asm.step p = Ok (Some (Asm.set_val rd (Asm.VInt (Z.lxor a b))
                           (Asm.set_pc (Some (z + 1)) p))).
Proof.
  intros Hpc Hz Hi H1 H2. rewrite (step_at _ _ _ _ Hpc Hz Hi). simpl.
  unfold Asm.get_val. simpl. by rewrite H1, H2.
Qed.

Lemma step_Addi p z k rd rs1 imm a :
  Asm.pc p = Some z → z = Z.of_nat k → Asm.insts p !! k = Some (Asm.Addi rd rs1 imm) →
  Asm.env p !! rs1 = Some (Asm.VInt a) →
  Asm.step p = Ok (Some (Asm.set_val rd (Asm.VInt (a + imm))
                           (Asm.set_pc (Some (z + 1)) p))).
Proof.
  intros Hpc Hz Hi H1. rewrite (step_at _ _ _ _ Hpc Hz Hi). simpl.
  unfold Asm.get_val. simpl. by rewrite H1.
Qed.

Lemma step_Beq_taken p z k rs1 rs2 lab a :
  Asm.pc p = Some z → z = Z.of_nat k → Asm.insts p !! k = Some (Asm.Beq rs1 rs2 lab) →
  Asm.env p !! rs1 = Some (Asm.VInt a) → Asm.env p !! rs2 = Some (Asm.VInt a) →
  Asm.step p = Ok (Some (Asm.set_pc lab p)).
Proof.
  intros Hpc Hz Hi H1 H2. rewrite (step_at _ _ _ _ Hpc Hz Hi). simpl.
  unfold Asm.get_val. simpl. rewrite H1, H2. simpl.
  by rewrite bool_decide_eq_true_2.
Qed.

(** The code of [GenVisitor.visit_eql]. *)
Lemma visit_Eql_inv fuel l r st dest st' :
  visit fuel (Eql l r) st = Ok (dest, st') →
  ∃ fuel' left_var st1 right_var st2,
    fuel = S fuel'
    ∧ visit fuel' l st = Ok (left_var, st1)
    ∧ visit fuel' r st1 = Ok (right_var, st2)
    ∧ dest = tmp (next_var_counter st2 + 4)
    ∧ Asm.insts (prog st')
      = Asm.insts (prog st2)
        ++ [ Asm.Sub (tmp (next_var_counter st2 + 1)) left_var right_var;
             Asm.Slti (tmp (next_var_counter st2 + 2))
                      (tmp (next_var_counter st2 + 1)) 1;
             Asm.Slti (tmp (next_var_counter st2 + 3))
                      (tmp (next_var_counter st2 + 1)) 0;
             Asm.Xor (tmp (next_var_counter st2 + 4))
                     (tmp (next_var_counter st2 + 2))
                     (tmp (next_var_counter st2 + 3)) ].
Proof.
  destruct fuel as [|fuel]; [discriminate|]. intros H.
  gen_unfold H.
  destruct (visit fuel l st) as [[left_var st1]|] eqn:E1; [|discriminate].
  simpl in H.
  destruct (visit fuel r st1) as [[right_var st2]|] eqn:E2; [|discriminate].
  simpl in H. injection H as <- <-.
  exists fuel, left_var, st1, right_var, st2.
  replace (next_var_counter st2 + 1)%nat with (S (next_var_counter st2)) by lia.
  replace (next_var_counter st2 + 2)%nat with (S (S (next_var_counter st2))) by lia.
  replace (next_var_counter st2 + 3)%nat with (S (S (S (next_var_counter st2)))) by lia.
  replace (next_var_counter st2 + 4)%nat with (S (S (S (S (next_var_counter st2))))) by lia.
  repeat split; try done.
  simpl. by rewrite <- !app_assoc.
Qed.


(** The four instructions of [visit_eql] on the machine. *)
Lemma eql_sequence_run (p : Asm.Program) (k : nat) (d x y t rs1 rs2 : string)
    (a b : Z) :
  d ≠ "x0" → x ≠ "x0" → y ≠ "x0" → t ≠ "x0" → x ≠ d → y ≠ d → y ≠ x →
  Asm.pc p = Some (Z.of_nat k) →
  Asm.insts p !! k = Some (Asm.Sub d rs1 rs2) →
  Asm.insts p !! (k + 1)%nat = Some (Asm.Slti x d 1) →
  Asm.insts p !! (k + 2)%nat = Some (Asm.Slti y d 0) →
  Asm.insts p !! (k + 3)%nat = Some (Asm.Xor t x y) →
  Asm.env p !! rs1 = Some (Asm.VInt a) →
  Asm.env p !! rs2 = Some (Asm.VInt b) →
  ∃ p', Asm.run 4 p = Some p'
        ∧ Asm.pc p' = Some (Z.of_nat k + 4)
        ∧ Asm.env p' !! t = Some (Asm.VInt (if decide (a = b) then 1 else 0)).
Proof.
  intros Hd Hx Hy Ht Hxd Hyd Hyx Hpc I0 I1 I2 I3 Ha Hb.
  set (p1 := Asm.set_val d (Asm.VInt (a - b))
               (Asm.set_pc (Some (Z.of_nat k + 1)) p)).
  set (vx := if bool_decide (a - b < 1) then 1 else 0).
  set (p2 := Asm.set_val x (Asm.VInt vx)
               (Asm.set_pc (Some (Z.of_nat k + 1 + 1)) p1)).
  set (vy := if bool_decide (a - b < 0) then 1 else 0).
  set (p3 := Asm.set_val y (Asm.VInt vy)
               (Asm.set_pc (Some (Z.of_nat k + 1 + 1 + 1)) p2)).
  set (p4 := Asm.set_val t (Asm.VInt (Z.lxor vx vy))
               (Asm.set_pc (Some (Z.of_nat k + 1 + 1 + 1 + 1)) p3)).
  assert (S1 : Asm.step p = Ok (Some p1)).
  { eapply (step_Sub p _ k); eauto. }
  assert (S2 : Asm.step p1 = Ok (Some p2)).
  { eapply (step_Slti _ _ (k + 1)%nat).
    - unfold p1. by rewrite pc_set_val.
    - lia.
    - unfold p1. by rewrite insts_set_val.
    - unfold p1. by rewrite lookup_set_val_eq. }
  assert (S3 : Asm.step p2 = Ok (Some p3)).
  { eapply (step_Slti _ _ (k + 2)%nat).
    - unfold p2. by rewrite pc_set_val.
    - lia.
    - unfold p2, p1. by repeat (rewrite insts_set_val || rewrite insts_set_pc).
    - unfold p2. rewrite lookup_set_val_ne by done. simpl.
      unfold p1. by rewrite lookup_set_val_eq. }
  assert (S4 : Asm.step p3 = Ok (Some p4)).
  { eapply (step_Xor _ _ (k + 3)%nat).
    - unfold p3. by rewrite pc_set_val.
    - lia.
    - unfold p3, p2, p1. by repeat (rewrite insts_set_val || rewrite insts_set_pc).
    - unfold p3. rewrite lookup_set_val_ne by done. simpl.
      unfold p2. by rewrite lookup_set_val_eq.
    - unfold p3. by rewrite lookup_set_val_eq. }
  exists p4. split; [|split].
  - simpl. by rewrite S1, S2, S3, S4.
  - unfold p4. rewrite pc_set_val. simpl. f_equal. lia.
  - unfold p4. rewrite lookup_set_val_eq by done. do 2 f_equal.
    unfold vx, vy.
    repeat case_bool_decide; case_decide; simpl; try reflexivity; lia.
Qed.

(** C4: the code [visit_eql] emits for [Eql l r] is the code of [l], the
    code of [r], and then [sub d,a,b; slti x,d,1; slti y,d,0; xor t,x,y]
    on the operands' registers [a] and [b]; run from its first
    instruction with integers in [a] and [b], this sequence ends four
    turns later with 1 in the result register [t] when the two integers
    are equal and 0 otherwise. *)
Theorem eql_code_computes_equality (fuel : nat) (l r : expr)
    (st st' : state) (dest : string) :
  visit fuel (Eql l r) st = Ok (dest, st') →
  ∃ fuel' left_var st1 right_var st2 d x y,
    fuel = S fuel'
    ∧ visit fuel' l st = Ok (left_var, st1)
    ∧ visit fuel' r st1 = Ok (right_var, st2)
    ∧ Asm.insts (prog st')
      = Asm.insts (prog st2)
        ++ [ Asm.Sub d left_var right_var; Asm.Slti x d 1; Asm.Slti y d 0;
             Asm.Xor dest x y ]
    ∧ ∀ (p : Asm.Program) (a b : Z),
        let k := length (Asm.insts (prog st2)) in
        (∀ j, (j < 4)%nat →
              Asm.insts p !! (k + j)%nat = Asm.insts (prog st') !! (k + j)%nat) →
        Asm.pc p = Some (Z.of_nat k) →
        Asm.env p !! left_var = Some (Asm.VInt a) →
        Asm.env p !! right_var = Some (Asm.VInt b) →
        ∃ p', Asm.run 4 p = Some p'
              ∧ Asm.pc p' = Some (Z.of_nat k + 4)
              ∧ Asm.env p' !! dest
                = Some (Asm.VInt (if decide (a = b) then 1 else 0)).
Proof.
  intros H.
  destruct (visit_Eql_inv _ _ _ _ _ _ H)
    as (fuel' & left_var & st1 & right_var & st2 & -> & E1 & E2 & -> & Hi).
  exists fuel', left_var, st1, right_var, st2.
  eexists _, _, _. split; [done|]. split; [done|]. split; [done|].
  split; [exact Hi|].
  intros p a b k Hagree Hpc Ha Hb.
  assert (Hat : ∀ j i, (j < 4)%nat →
    [ Asm.Sub (tmp (next_var_counter st2 + 1)) left_var right_var;
      Asm.Slti (tmp (next_var_counter st2 + 2)) (tmp (next_var_counter st2 + 1)) 1;
      Asm.Slti (tmp (next_var_counter st2 + 3)) (tmp (next_var_counter st2 + 1)) 0;
      Asm.Xor (tmp (next_var_counter st2 + 4)) (tmp (next_var_counter st2 + 2))
              (tmp (next_var_counter st2 + 3)) ] !! j = Some i →
    Asm.insts p !! (k + j)%nat = Some i).
  { intros j i Hj Hl. rewrite (Hagree j Hj), Hi.
    by rewrite lookup_app_r, Nat.add_sub' by (unfold k; lia). }
  apply (eql_sequence_run p k (tmp (next_var_counter st2 + 1))
           (tmp (next_var_counter st2 + 2)) (tmp (next_var_counter st2 + 3))
           (tmp (next_var_counter st2 + 4)) left_var right_var a b);
    try apply tmp_not_x0; try done.
  - intros E%tmp_inj. lia.
  - intros E%tmp_inj. lia.
  - intros E%tmp_inj. lia.
  - rewrite <- (Nat.add_0_r k). by apply Hat; [lia|].
  - by apply Hat; [lia|].
  - by apply Hat; [lia|].
  - by apply Hat; [lia|].
Qed.


(** Witness of [eql_code_computes_equality]: the doctest
    [Eql(Num(13), Num(13))] of [visit_eql].  After the two [addi] of the
    operands, the four instructions leave 1 in the result register. *)
Lemma eql_code_computes_equality_witness :
  let st := {| next_var_counter := 0; prog := Asm.init 0 ∅ [] |} in
  ∃ dest st' p p',
    visit 3 (Eql (Num 13) (Num 13)) st = Ok (dest, st')
    ∧ Asm.run 2 (prog st') = Some p
    ∧ Asm.run 4 p = Some p'
    ∧ Asm.env p' !! dest = Some (Asm.VInt 1).
Proof.
  intros st.
  destruct (visit 3 (Eql (Num 13) (Num 13)) st) as [[dest st']|] eqn:E;
    [|discriminate E].
  destruct (Asm.run 2 (prog st')) as [p|] eqn:Ep.
  2: { vm_compute in E. injection E as <- <-. discriminate Ep. }
  destruct (eql_code_computes_equality _ _ _ _ _ _ E)
    as (f' & lv & st1 & rv & st2 & d & x & y & Hf & E1 & E2 & Hi & Hrun).
  injection Hf as <-.
  vm_compute in E1. injection E1 as <- <-.
  vm_compute in E2. injection E2 as <- <-.
  vm_compute in E. injection E as <- <-.
  assert (Hp : Asm.run 2 (Asm.init 0 ∅
                 [ Asm.Addi "tmp1" "x0" 13; Asm.Addi "tmp2" "x0" 13;
                   Asm.Sub "tmp3" "tmp1" "tmp2"; Asm.Slti "tmp4" "tmp3" 1;
                   Asm.Slti "tmp5" "tmp3" 0; Asm.Xor "tmp6" "tmp4" "tmp5" ])
               = Some p) by exact Ep.
  clear Ep. vm_compute in Hp. injection Hp as Hp.
  destruct (Hrun p 13 13) as (p' & Hr & _ & Hd).
  - intros j _. by rewrite <- Hp.
  - by rewrite <- Hp.
  - by rewrite <- Hp.
  - by rewrite <- Hp.
  - exists "tmp6", (mkState 6 (Asm.init 0 ∅
                 [ Asm.Addi "tmp1" "x0" 13; Asm.Addi "tmp2" "x0" 13;
                   Asm.Sub "tmp3" "tmp1" "tmp2"; Asm.Slti "tmp4" "tmp3" 1;
                   Asm.Slti "tmp5" "tmp3" 0; Asm.Xor "tmp6" "tmp4" "tmp5" ])),
           p, p'.
    split; [reflexivity|]. split; [by rewrite <- Hp|].
    split; [exact Hr | exact Hd].
Defined.

Lemma alter_at_length (f : Asm.inst → Asm.inst) (A B : list Asm.inst) x :
  alter f (length A) (A ++ x :: B) = A ++ f x :: B.
Proof. induction A as [|a A IH]; simpl; [reflexivity|]. by f_equal. Qed.

(** The two patches of [visit_and]: the branch at the head of the right
    operand's block and the jump after it. *)
Lemma patch_branch_and_jump (A block : list Asm.inst) (b add jal addi : Asm.inst)
    (f g : Asm.inst → Asm.inst) :
  alter g (S (length ((A ++ [b]) ++ block)))
    (alter f (length A) ((((A ++ [b]) ++ block) ++ [add]) ++ [jal]) ++ [addi])
  = A ++ f b :: block ++ [add; g jal; addi].
Proof.
  replace ((((A ++ [b]) ++ block) ++ [add]) ++ [jal])
    with (A ++ b :: (block ++ [add; jal]))
    by (rewrite <- !app_assoc; reflexivity).
  rewrite alter_at_length.
  replace ((A ++ f b :: block ++ [add; jal]) ++ [addi])
    with ((A ++ f b :: block ++ [add]) ++ jal :: [addi])
    by (rewrite <- !app_assoc; simpl; rewrite <- !app_assoc; reflexivity).
  replace (S (length ((A ++ [b]) ++ block)))
    with (length (A ++ f b :: block ++ [add]))
    by (rewrite !length_app; simpl; rewrite !length_app; simpl; lia).
  rewrite alter_at_length.
  rewrite <- !app_assoc. simpl. rewrite <- !app_assoc. reflexivity.
Qed.

Lemma visit_And_inv fuel l r st dest st' :
  visit fuel (And l r) st = Ok (dest, st') →
  ∃ fuel' left_var st1 right_var st2 block,
    fuel = S fuel'
    ∧ visit fuel' l st = Ok (left_var, st1)
    ∧ visit fuel' r
        {| next_var_counter := next_var_counter st1;
           prog := Asm.add_inst (Asm.Beq left_var "x0" None) (prog st1) |}
      = Ok (right_var, st2)
    ∧ Asm.insts (prog st2)
      = Asm.insts (prog st1) ++ Asm.Beq left_var "x0" None :: block
    ∧ dest = tmp (S (next_var_counter st2))
    ∧ Asm.insts (prog st')
      = Asm.insts (prog st1)
        ++ Asm.Beq left_var "x0"
             (Some (Z.of_nat (length (Asm.insts (prog st2))) + 2))
        :: block
        ++ [ Asm.Add dest right_var "x0";
             Asm.Jal "x0" (Some (Z.of_nat (length (Asm.insts (prog st2))) + 3));
             Asm.Addi dest "x0" 0 ].
Proof.
  destruct fuel as [|fuel]; [discriminate|]. intros H.
  gen_unfold H.
  destruct (visit fuel l st) as [[left_var st1]|] eqn:E1; [|discriminate].
  simpl in H.
  destruct (visit fuel r _) as [[right_var st2]|] eqn:E2; [|discriminate].
  simpl in H. injection H as <- <-.
  destruct (visit_extends _ _ _ _ _ E2
              (Asm.insts (prog st1) ++ [Asm.Beq left_var "x0" None]))
    as [block Hb]; [apply extends_refl|].
  exists fuel, left_var, st1, right_var, st2, block.
  split; [done|]. split; [done|]. split; [done|].
  split; [by rewrite Hb, <- app_assoc|]. split; [done|].
  simpl. unfold Asm.get_number_of_instructions. simpl.
  rewrite !Nat2Z.id. rewrite Hb.
  replace (length (((Asm.insts (prog st1) ++ [Asm.Beq left_var "x0" None])
                      ++ block)
                     ++ [Asm.Add (tmp (S (next_var_counter st2))) right_var "x0"]))
    with (S (length ((Asm.insts (prog st1) ++ [Asm.Beq left_var "x0" None])
                       ++ block)))
    by (rewrite (length_app _ [_]); simpl; lia).
  rewrite patch_branch_and_jump. simpl.
  rewrite ?length_app, ?length_alter, ?length_app. simpl.
  repeat f_equal; lia.
Qed.


(** C3: the code [visit_and] emits for [And l r] is the code of [l], a
    [beq] on the register of [l] and [x0], the code of [r] (the block),
    a copy of the register of [r] into the destination, a jump, and an
    [addi] that writes 0 into the destination; the [beq] targets that
    [addi].  So when the register of [l] holds 0 the machine goes from
    the [beq] straight to the [addi] and then past the end of the code:
    two loop turns, neither of which fetches an instruction of the
    block, and the destination holds 0. *)
Theorem and_skips_right_operand (fuel : nat) (l r : expr)
    (st st' : state) (dest : string) :
  visit fuel (And l r) st = Ok (dest, st') →
  ∃ fuel' left_var st1 right_var st2 block,
    fuel = S fuel'
    ∧ visit fuel' l st = Ok (left_var, st1)
    ∧ visit fuel' r
        {| next_var_counter := next_var_counter st1;
           prog := Asm.add_inst (Asm.Beq left_var "x0" None) (prog st1) |}
      = Ok (right_var, st2)
    ∧ let beq := length (Asm.insts (prog st1)) in
      let m := length (Asm.insts (prog st2)) in
      Asm.insts (prog st2)
      = Asm.insts (prog st1) ++ Asm.Beq left_var "x0" None :: block
      ∧ Asm.insts (prog st')
        = Asm.insts (prog st1)
          ++ Asm.Beq left_var "x0" (Some (Z.of_nat m + 2))
          :: block
          ++ [ Asm.Add dest right_var "x0";
               Asm.Jal "x0" (Some (Z.of_nat m + 3));
               Asm.Addi dest "x0" 0 ]
      ∧ ∀ p : Asm.Program,
          (∀ i, (beq ≤ i < m + 3)%nat →
                Asm.insts p !! i = Asm.insts (prog st') !! i) →
          Asm.pc p = Some (Z.of_nat beq) →
          Asm.env p !! left_var = Some (Asm.VInt 0) →
          Asm.env p !! "x0" = Some (Asm.VInt 0) →
          ∃ p1 p2,
            Asm.step p = Ok (Some p1)
            ∧ Asm.pc p1 = Some (Z.of_nat m + 2)
            ∧ Asm.step p1 = Ok (Some p2)
            ∧ Asm.pc p2 = Some (Z.of_nat m + 3)
            ∧ Asm.env p2 !! dest = Some (Asm.VInt 0).
Proof.
  intros H.
  destruct (visit_And_inv _ _ _ _ _ _ H)
    as (fuel' & left_var & st1 & right_var & st2 & block
        & -> & E1 & E2 & Hb & -> & Hi).
  exists fuel', left_var, st1, right_var, st2, block.
  split; [done|]. split; [done|]. split; [done|].
  intros beq m. split; [exact Hb|]. split; [exact Hi|].
  intros p Hagree Hpc Hl H0.
  assert (Hm : m = (beq + 1 + length block)%nat).
  { unfold m, beq. rewrite Hb, length_app. simpl. lia. }
  assert (I0 : Asm.insts p !! beq
               = Some (Asm.Beq left_var "x0" (Some (Z.of_nat m + 2)))).
  { rewrite Hagree by lia. rewrite Hi. by apply list_lookup_middle. }
  assert (I1 : Asm.insts p !! (m + 2)%nat
               = Some (Asm.Addi (tmp (S (next_var_counter st2))) "x0" 0)).
  { rewrite Hagree by lia. rewrite Hi.
    rewrite lookup_app_r by (fold beq; lia). fold beq.
    replace (m + 2 - beq)%nat with (S (length block + 2)) by lia.
    simpl. by rewrite lookup_app_r, Nat.add_sub' by lia. }
  exists (Asm.set_pc (Some (Z.of_nat m + 2)) p).
  exists (Asm.set_val (tmp (S (next_var_counter st2))) (Asm.VInt (0 + 0))
            (Asm.set_pc (Some (Z.of_nat m + 2 + 1))
               (Asm.set_pc (Some (Z.of_nat m + 2)) p))).
  split; [by eapply (step_Beq_taken p _ beq)|].
  split; [done|].
  split; [eapply (step_Addi _ _ (m + 2)%nat); simpl; eauto; lia|].
  split; [rewrite pc_set_val; simpl; f_equal; lia|].
  rewrite lookup_set_val_eq; [done | apply tmp_not_x0].
Qed.

(** Witness of [and_skips_right_operand]: the doctest
    [And(Bln(False), Div(Num(3), Num(0)))] of [visit_and].  The division
    by zero of the right operand is never executed, and the whole
    program evaluates to 0. *)
Lemma and_skips_right_operand_witness :
  let st := {| next_var_counter := 0; prog := Asm.init 0 ∅ [] |} in
  ∃ dest st' p p1 p2 p3,
    visit 4 (And (Bln false) (Div (Num 3) (Num 0))) st = Ok (dest, st')
    ∧ Asm.run 1 (prog st') = Some p
    ∧ Asm.step p = Ok (Some p1) ∧ Asm.pc p1 = Some 7
    ∧ Asm.step p1 = Ok (Some p2) ∧ Asm.pc p2 = Some 8
    ∧ Asm.env p2 !! dest = Some (Asm.VInt 0)
    ∧ Asm.eval 4 (prog st') = Ok p3
    ∧ Asm.get_val dest p3 = Ok (Asm.VInt 0).
Proof.
  intros st.
  destruct (visit 4 (And (Bln false) (Div (Num 3) (Num 0))) st)
    as [[dest st']|] eqn:E; [|discriminate E].
  destruct (and_skips_right_operand _ _ _ _ _ _ E)
    as (f' & lv & st1 & rv & st2 & block & Hf & E1 & E2 & Hb & Hi & Hrun).
  injection Hf as <-.
  vm_compute in E1. injection E1 as <- <-.
  vm_compute in E2. injection E2 as <- <-.
  vm_compute in E. injection E as <- <-.
  destruct (Asm.run 1 (Asm.init 0 ∅
             [ Asm.Addi "tmp1" "x0" 0; Asm.Beq "tmp1" "x0" (Some 7);
               Asm.Addi "tmp2" "x0" 3; Asm.Addi "tmp3" "x0" 0;
               Asm.Div "tmp4" "tmp2" "tmp3"; Asm.Add "tmp5" "tmp4" "x0";
               Asm.Jal "x0" (Some 8); Asm.Addi "tmp5" "x0" 0 ]))
    as [p|] eqn:Hp; [|discriminate Hp].
  pose proof Hp as Hp'. vm_compute in Hp'. injection Hp' as Hp'.
  destruct (Hrun p) as (p1 & p2 & S1 & P1 & S2 & P2 & Hd).
  - intros i _. by rewrite <- Hp'.
  - by rewrite <- Hp'.
  - by rewrite <- Hp'.
  - by rewrite <- Hp'.
  - destruct (Asm.eval 4 (Asm.init 0 ∅
             [ Asm.Addi "tmp1" "x0" 0; Asm.Beq "tmp1" "x0" (Some 7);
               Asm.Addi "tmp2" "x0" 3; Asm.Addi "tmp3" "x0" 0;
               Asm.Div "tmp4" "tmp2" "tmp3"; Asm.Add "tmp5" "tmp4" "x0";
               Asm.Jal "x0" (Some 8); Asm.Addi "tmp5" "x0" 0 ]))
      as [p3|] eqn:Hp3; [|discriminate Hp3].
    exists "tmp5", (mkState 5 (Asm.init 0 ∅
             [ Asm.Addi "tmp1" "x0" 0; Asm.Beq "tmp1" "x0" (Some 7);
               Asm.Addi "tmp2" "x0" 3; Asm.Addi "tmp3" "x0" 0;
               Asm.Div "tmp4" "tmp2" "tmp3"; Asm.Add "tmp5" "tmp4" "x0";
               Asm.Jal "x0" (Some 8); Asm.Addi "tmp5" "x0" 0 ])),
           p, p1, p2, p3.
    split; [reflexivity|]. split; [exact Hp|].
    split; [exact S1|]. split; [exact P1|].
    split; [exact S2|]. split; [exact P2|]. split; [exact Hd|].
    split; [exact Hp3|].
    vm_compute in Hp3. injection Hp3 as <-. reflexivity.
Defined.

End Generator.

(** ** The renamer *)

Section Renamer.
Import Expression RenameVisitor.

(** *** Decimal numerals have no underscore *)

Lemma pretty_N_char_no_underscore (x : N) : pretty_N_char x ≠ "_"%char.
Proof. unfold pretty_N_char. repeat case_match; discriminate. Qed.

Lemma pretty_N_go_no_underscore (x : N) (s : string) :
  no_underscore s → no_underscore (pretty_N_go x s).
Proof.
  revert s. induction (N.lt_wf_0 x) as [x _ IH]; intros s Hs.
  destruct (decide (x = 0)%N) as [->|Hx].
  - by rewrite pretty_N_go_0.
  - rewrite pretty_N_go_step by lia. apply IH.
    + apply N.div_lt; lia.
    + split; [apply pretty_N_char_no_underscore | exact Hs].
Qed.

Lemma pretty_nat_no_underscore (n : nat) : no_underscore (pretty n).
Proof.
  unfold pretty, pretty_nat, pretty, pretty_N.
  case_decide; [by repeat split|].
  by apply pretty_N_go_no_underscore.
Qed.

Lemma no_underscore_append (a s : string) :
  no_underscore (a +:+ String "_" s) → False.
Proof.
  induction a as [|c a IH]; simpl.
  - by intros [? _].
  - intros [_ H]. by apply IH.
Qed.

(** What follows the last underscore of a string determines itself. *)
Lemma append_underscore_inj (a b s t : string) :
  no_underscore s → no_underscore t →
  a +:+ String "_" s = b +:+ String "_" t → s = t.
Proof.
  intros Hs Ht. revert b.
  induction a as [|c a IH]; intros [|d b]; simpl; intros H.
  - by injection H.
  - injection H as _ H. subst s. by apply no_underscore_append in Hs.
  - injection H as _ H. subst t. by apply no_underscore_append in Ht.
  - injection H as _ H. by apply (IH b).
Qed.

(** Two names that [rename] makes with different counter values are
    different, whatever their bases. *)
Lemma rename_counter_inj (b1 b2 : string) (k1 k2 : nat) :
  rename b1 k1 = rename b2 k2 → k1 = k2.
Proof.
  unfold rename. intros H.
  apply append_underscore_inj in H; try apply pretty_nat_no_underscore.
  exact (pretty_nat_inj _ _ H).
Qed.

(** *** Binders *)

Lemma stamped_weaken lo hi lo' hi' x :
  (lo' ≤ lo)%nat → (hi ≤ hi')%nat → stamped lo hi x → stamped lo' hi' x.
Proof. intros ?? (b & k & -> & ?). exists b, k. split; [done | lia]. Qed.

Lemma stamped_disjoint lo mid hi x :
  stamped lo mid x → stamped mid hi x → False.
Proof.
  intros (b & k & -> & ?) (b' & k' & E & ?).
  apply rename_counter_inj in E. lia.
Qed.

Lemma NoDup_stamped_app lo mid hi (l1 l2 : list string) :
  NoDup l1 → NoDup l2 →
  Forall (stamped lo mid) l1 → Forall (stamped mid hi) l2 →
  NoDup (l1 ++ l2).
Proof.
  intros N1 N2 F1 F2. apply NoDup_app. split; [done|]. split; [|done].
  intros x H1 H2.
  rewrite Forall_forall in F1, F2.
  exact (stamped_disjoint _ _ _ _ (F1 _ H1) (F2 _ H2)).
Qed.

Lemma Forall_stamped_weaken lo hi lo' hi' (l : list string) :
  (lo' ≤ lo)%nat → (hi ≤ hi')%nat →
  Forall (stamped lo hi) l → Forall (stamped lo' hi') l.
Proof.
  intros ?? HF. eapply Forall_impl; [exact HF|].
  intros x. by apply stamped_weaken.
Qed.

Lemma stamped_self b k hi : (k < hi)%nat → stamped k hi (rename b k).
Proof. intros ?. exists b, k. split; [done | lia]. Qed.

Lemma NoDup_stamped_cons lo hi b (l : list string) :
  NoDup l → Forall (stamped (S lo) hi) l → NoDup (rename b lo :: l).
Proof.
  intros N F. apply NoDup_cons. split; [|done].
  intros Hin. rewrite Forall_forall in F.
  apply (stamped_disjoint lo (S lo) hi (rename b lo)); [|by apply F].
  apply stamped_self. lia.
Qed.

Lemma binders_app c k K (l1 l2 : list string) :
  (c ≤ k)%nat → (k ≤ K)%nat →
  NoDup l1 ∧ Forall (stamped c k) l1 →
  NoDup l2 ∧ Forall (stamped k K) l2 →
  NoDup (l1 ++ l2) ∧ Forall (stamped c K) (l1 ++ l2).
Proof.
  intros ?? [N1 F1] [N2 F2]. split.
  - by apply (NoDup_stamped_app c k K).
  - apply Forall_app_2.
    + apply (Forall_stamped_weaken c k); [lia | lia | done].
    + apply (Forall_stamped_weaken k K); [lia | lia | done].
Qed.

Lemma binders_cons k K b (l : list string) :
  (S k ≤ K)%nat →
  NoDup l ∧ Forall (stamped (S k) K) l →
  NoDup (rename b k :: l) ∧ Forall (stamped k K) (rename b k :: l).
Proof.
  intros ? [N F]. split.
  - by apply (NoDup_stamped_cons k K).
  - apply Forall_cons. split; [apply stamped_self; lia|].
    apply (Forall_stamped_weaken (S k) K); [lia | lia | done].
Qed.

(** The counter only grows, and the binders of the renamed tree carry
    pairwise different names, all made by [rename] with the counter
    values of this visit. *)
Lemma visit_binders (e : expr) :
  ∀ m c e' c', visit e m c = (e', c') →
  (c ≤ c')%nat ∧ NoDup (binders e') ∧ Forall (stamped c c') (binders e').
Proof.
  induction e; intros m c e' c' H; simpl in H;
    repeat match type of H with
    | context [visit ?a ?b ?d] =>
        let E := fresh "E" in
        let x := fresh "x" in let k := fresh "k" in
        destruct (visit a b d) as [x k] eqn:E;
        match goal with
        | IH : ∀ m c e' c', visit a m c = _ → _ |- _ =>
            apply IH in E; destruct E as (? & ?)
        end
    | context [match ?o with Some _ => _ | None => _ end] => destruct o
    end;
    injection H as <- <-; simpl.
  all: try (split; [lia|]; split; constructor; fail).
  all: split; [lia|]; try assumption.
  all: try (eapply binders_app; [| |eassumption|eassumption]; lia).
  - (* [Let] *)
    eapply binders_app; [| |eassumption|apply binders_cons; [|eassumption]];
      lia.
  - (* [IfThenElse] *)
    eapply binders_app; [| |eassumption|eapply binders_app; [| |eassumption|eassumption]];
      lia.
  - (* [Fn] *)
    apply binders_cons; [lia | assumption].
Qed.

(** Each variable of the renamed tree carries the name of the innermost
    binder around it, as [name_map] has it. *)
Lemma visit_scoped (e : expr) :
  ∀ m c, scoped m e (visit e m c).1.
Proof.
  induction e; intros m c; simpl;
    repeat match goal with
    | |- context [visit ?a ?b ?d] =>
        let E := fresh "E" in
        match goal with
        | IH : ∀ m c, scoped m a _ |- _ =>
            pose proof (IH b d) as E; destruct (visit a b d); simpl in E
        end
    end; simpl; try done.
  destruct (m !! identifier); done.
Qed.

(** C2: after [rename_variables], which runs the visitor from the empty
    name map, the binders of the tree ([Let] identifiers and [Fn]
    formals) carry pairwise different names, and every variable carries
    the name of the innermost binder around it in the source, the same
    for all its uses in that scope; a variable with no binder around it
    keeps its name. *)
Theorem renamer_hygiene (e : expr) :
  NoDup (binders (Driver.rename_variables e))
  ∧ scoped ∅ e (Driver.rename_variables e).
Proof.
  unfold Driver.rename_variables. split.
  - destruct (visit e ∅ 0) as [e' c'] eqn:E.
    by apply visit_binders in E as (_ & ? & _).
  - apply visit_scoped.
Qed.

End Renamer.

(** ** The pipeline *)

Section Pipeline.
Import Asm.

(** C8, counterexample: on the annotated binding the run ends in
    [Parser._expect], which finds the colon where it expects [<-]. *)
Lemma annotated_let_is_rejected :
  Lexer.tokens "let v : int <- 21 in v + v end"
  = Ok [ Lexer.mkToken "let" Lexer.LET; Lexer.mkToken "v" Lexer.VAR;
         Lexer.mkToken ":" Lexer.COL; Lexer.mkToken "int" Lexer.INT;
         Lexer.mkToken "<-" Lexer.ASN; Lexer.mkToken "21" Lexer.NUM;
         Lexer.mkToken "in" Lexer.INX; Lexer.mkToken "v" Lexer.VAR;
         Lexer.mkToken "+" Lexer.ADD; Lexer.mkToken "v" Lexer.VAR;
         Lexer.mkToken "end" Lexer.END ]
  ∧ Driver.main 100 "let v : int <- 21 in v + v end"
    = Raise (SysExit "Parse error: Expected ASN").
Proof. split; vm_compute; reflexivity. Qed.

Lemma main_annotated_enough_fuel k :
  Driver.main (11 + k) "let v : int <- 21 in v + v end"
  = Raise (SysExit "Parse error: Expected ASN").
Proof. vm_compute. reflexivity. Qed.

(** C8, as the code has it: the parser of this stage reads a let binding
    without a type annotation.  On [let v <- 21 in v + v end] the run
    succeeds, for every recursion bound from 22 on, and hands 42 to
    [print], which writes [Answer: 42].  On the annotated
    [let v : int <- 21 in v + v end] the run never succeeds: from the
    bound 11 on it ends with the exit [Parse error: Expected ASN]. *)
Theorem let_binding_pipeline :
  (∀ k, Driver.main (22 + k) "let v <- 21 in v + v end" = Ok (VInt 42))
  ∧ Driver.answer_line 42 = "Answer: 42"
  ∧ (∀ fuel, Driver.main fuel "let v : int <- 21 in v + v end"
             = if decide (fuel < 11)%nat then Raise OutOfFuel
               else Raise (SysExit "Parse error: Expected ASN")).
Proof.
  split; [intros k; vm_compute; reflexivity|].
  split; [vm_compute; reflexivity|].
  intros fuel.
  do 11 (destruct fuel as [|fuel]; [vm_compute; reflexivity|]).
  rewrite decide_False by lia.
  apply (main_annotated_enough_fuel fuel).
Qed.

End Pipeline.

(** ** The constraint generator of Vpl9 *)

Section Constraints.
Import Vpl9 Vpl9.CtrGenVisitor.

Lemma fresh_type_var_inj c d : fresh_type_var c = fresh_type_var d → c = d.
Proof.
  unfold fresh_type_var. simpl. intros [= H].
  apply pretty_nat_inj in H. lia.
Qed.



End Constraints.

(** ** The parser *)

Section ParserSafety.
Import Expression Lexer Parser.

Lemma safe_ret {A} (a : A) : safe (pret a).
Proof. intros s Hs. simpl. done. Qed.

Lemma safe_raise {A} (e : exn) : e ≠ IndexError → safe (@praise A e).
Proof. intros He s Hs. simpl. done. Qed.

Lemma safe_bind {A B} (m : parser A) (f : A → parser B) :
  safe m → (∀ a, safe (f a)) → safe (pbind m f).
Proof.
  intros Hm Hf s Hs. unfold pbind. specialize (Hm s Hs).
  destruct (m s) as [[a s1]|e]; [|done].
  destruct Hm as [H1 E1]. specialize (Hf a s1 H1).
  destruct (f a s1) as [[b s2]|e]; [|done].
  destruct Hf as [H2 E2]. split; [done | congruence].
Qed.

Lemma current_in_bounds s :
  in_bounds s → ∃ t, _current s = Ok (t, s).
Proof.
  intros Hs. unfold _current.
  destruct (lookup_lt_is_Some_2 (tokens s) (cur_token_idx s) Hs) as [t Ht].
  exists t. by rewrite Ht.
Qed.

Lemma safe_current : safe _current.
Proof.
  intros s Hs. destruct (current_in_bounds s Hs) as [t ->]. done.
Qed.

Lemma advance_in_bounds s :
  in_bounds s →
  ∃ s', _advance s = Ok (tt, s') ∧ in_bounds s' ∧ tokens s' = tokens s
        ∧ (cur_token_idx s ≤ cur_token_idx s' ≤ cur_token_idx s + 1)%nat.
Proof.
  intros Hs. unfold _advance, in_bounds in *. case_decide.
  - eexists. split; [reflexivity|]. simpl. repeat split; lia.
  - exists s. repeat split; lia.
Qed.

Lemma safe_advance : safe _advance.
Proof.
  intros s Hs. destruct (advance_in_bounds s Hs) as (s' & -> & ? & ? & _).
  done.
Qed.

Lemma safe_error {A} msg : safe (@_error A msg).
Proof. by apply safe_raise. Qed.

Lemma safe_expect k : safe (_expect k).
Proof.
  unfold _expect.
  apply safe_bind; [apply safe_current|]. intros t.
  apply safe_bind; [case_decide; [apply safe_error | apply safe_ret]|].
  intros _. apply safe_bind; [apply safe_advance|]. intros _. apply safe_ret.
Qed.

Lemma safe_is_application_start : safe _is_application_start.
Proof.
  unfold _is_application_start.
  apply safe_bind; [apply safe_current|]. intros t. apply safe_ret.
Qed.

Section WithInt.
Variable int : string → result Z.
Hypothesis int_no_index_error : ∀ txt, int txt ≠ Raise IndexError.

Lemma safe_num_of t : safe (num_of int t).
Proof.
  intros s Hs. unfold num_of. specialize (int_no_index_error (text t)).
  destruct (int (text t)); [done | congruence].
Qed.

Ltac safe_crunch :=
  repeat first
    [ assumption
    | apply safe_ret
    | apply safe_error
    | apply safe_current
    | apply safe_advance
    | apply safe_expect
    | apply safe_is_application_start
    | apply safe_num_of
    | apply safe_raise; discriminate
    | apply safe_bind; [|intros ?]
    | case_decide
    | match goal with |- safe (if ?b then _ else _) => destruct b end
    | match goal with H : ∀ l, safe _ |- _ => apply H end ].

(** Every method of the grammar is safe, whatever the recursion bound. *)
Lemma grammar_safe (fuel : nat) :
  safe (_parse_expression int fuel)
  ∧ safe (_parse_or int fuel)
  ∧ (∀ l, safe (_parse_or_loop int fuel l))
  ∧ safe (_parse_and int fuel)
  ∧ (∀ l, safe (_parse_and_loop int fuel l))
  ∧ safe (_parse_let int fuel)
  ∧ safe (_parse_lambda int fuel)
  ∧ safe (_parse_equality int fuel)
  ∧ (∀ l, safe (_parse_equality_loop int fuel l))
  ∧ safe (_parse_comparison int fuel)
  ∧ (∀ l, safe (_parse_comparison_loop int fuel l))
  ∧ safe (_parse_application int fuel)
  ∧ (∀ l, safe (_parse_application_loop int fuel l))
  ∧ safe (_parse_additive int fuel)
  ∧ (∀ l, safe (_parse_additive_loop int fuel l))
  ∧ safe (_parse_multiplicative int fuel)
  ∧ (∀ l, safe (_parse_multiplicative_loop int fuel l))
  ∧ safe (_parse_unary int fuel)
  ∧ safe (_parse_primary int fuel).
Proof.
  induction fuel as [|fuel IH].
  - repeat split; intros; simpl; apply safe_raise; discriminate.
  - destruct IH as (? & ? & ? & ? & ? & ? & ? & ? & ? & ? & ? & ? & ? & ?
                    & ? & ? & ? & ? & ?).
    repeat split; intros; simpl; safe_crunch.
Qed.

Lemma parse_safe (fuel : nat) : safe (parse int fuel).
Proof.
  unfold parse. apply safe_bind; [apply grammar_safe|]. intros e.
  apply safe_bind; [apply safe_expect|]. intros _. apply safe_ret.
Qed.

End WithInt.

Lemma init_in_bounds toks : in_bounds (init toks).
Proof. unfold in_bounds, init. simpl. rewrite length_app. simpl. lia. Qed.

Lemma int_of_digits_from_no_index_error s acc :
  int_of_digits_from acc s ≠ Raise IndexError.
Proof.
  revert acc. induction s as [|c s IH]; intros acc; simpl; [done|].
  destruct (isdigit c); [apply IH | done].
Qed.

Lemma int_of_digits_no_index_error s : int_of_digits s ≠ Raise IndexError.
Proof.
  destruct s; simpl; [done|]. 
  destruct (isdigit a); [apply int_of_digits_from_no_index_error | done].
Qed.




End ParserSafety.

(** * Further properties *)

(** ** The machine, continued *)

Section MachineMore.
Import Asm.

Lemma env_add_inst i p : env (add_inst i p) = env p.
Proof. reflexivity. Qed.

Lemma pc_add_inst i p : pc (add_inst i p) = pc p.
Proof. reflexivity. Qed.

Lemma get_val_ok r p v : env p !! r = Some v → get_val r p = Ok v.
Proof. intros H. unfold get_val. by rewrite H. Qed.

Lemma eval_step n p p' : step p = Ok (Some p') → eval (S n) p = eval n p'.
Proof. intros H. simpl. by rewrite H. Qed.

Lemma eval_halt n p : step p = Ok None → eval (S n) p = Ok p.
Proof. intros H. simpl. by rewrite H. Qed.

Lemma step_halt p z :
  pc p = Some z → Z.of_nat (length (insts p)) ≤ z → step p = Ok None.
Proof.
  intros Hpc Hz. unfold step.
  by rewrite (get_inst_out_of_range p z Hpc) by lia.
Qed.

(** Lookup of a register whose name is known in an environment built by
    [set_val], [set_pc] and [add_inst]. *)
Ltac env_lookup :=
  repeat first
    [ rewrite env_set_pc
    | rewrite env_add_inst
    | rewrite lookup_set_val_eq by discriminate
    | rewrite lookup_set_val_ne by discriminate ];
  reflexivity.

(** One loop turn on an instruction whose operands are known. *)
Ltac exec_step k :=
  erewrite eval_step;
  [| etrans;
     [ eapply (step_at _ _ k);
       [ repeat first [rewrite pc_set_val | rewrite pc_add_inst]; reflexivity
       | simpl; lia
       | repeat first [rewrite insts_set_val | rewrite insts_set_pc]; reflexivity ]
     | cbn [inst_eval]; unfold link;
       repeat (erewrite get_val_ok by env_lookup; cbn [mbind result_bind]);
       cbn [py_lt py_mul py_add py_sub py_xor py_floordiv py_eq py_add_imm
            mbind result_bind];
       reflexivity ] ].

Ltac exec_halt :=
  erewrite eval_halt
    by (eapply step_halt;
        [ repeat first [rewrite pc_set_val | rewrite pc_add_inst]; reflexivity
        | repeat first [rewrite insts_set_val | rewrite insts_set_pc];
          simpl; lia ]).

(** X1: the example [max(a, b)] of [Asm.py] returns the larger of two
    different integers, and 0 when the two are equal (both [slt] then
    give 0). *)
Theorem max_program (a b : Z) (k : nat) :
  AsmPrograms.max (6 + k) a b
  = Ok (VInt (if decide (a = b) then 0 else Z.max a b)).
Proof.
  unfold AsmPrograms.max.
  change (6 + k)%nat with (S (S (S (S (S (S k)))))).
  cbn [mbind result_bind].
  exec_step 0%nat. exec_step 1%nat. exec_step 2%nat. exec_step 3%nat.
  exec_step 4%nat. exec_halt. cbn [mbind result_bind].
  erewrite get_val_ok by env_lookup. do 2 f_equal.
  repeat case_bool_decide; case_decide; lia.
Qed.

(** X2: the example [distance_with_acceleration(V, A, T)] of [Asm.py]
    returns [V*T + (A*T*T) // 2], with Python's floor division. *)
Theorem distance_with_acceleration_program (V A T : Z) (k : nat) :
  AsmPrograms.distance_with_acceleration (7 + k) V A T
  = Ok (VInt (V * T + (A * (T * T)) `div` 2)).
Proof.
  unfold AsmPrograms.distance_with_acceleration.
  change (7 + k)%nat with (S (S (S (S (S (S (S k))))))).
  cbn [mbind result_bind].
  exec_step 0%nat. exec_step 1%nat. exec_step 2%nat. exec_step 3%nat.
  exec_step 4%nat. exec_step 5%nat. exec_halt. cbn [mbind result_bind].
  erewrite get_val_ok by env_lookup. reflexivity.
Qed.


(** X3: a store followed by a load at the same effective address gives
    back the stored value: when the address [rs1 + offset] is a valid
    Python index of the memory, [sw src, offset(rs1)] succeeds, changes
    that one cell only, and [lw dst, offset(rs1)] then writes the stored
    value to [dst]. *)
Theorem sw_lw_round_trip (p : Program) (rs1 src dst : string)
    (offset base : Z) (v : value) :
  env p !! rs1 = Some (VInt base) →
  env p !! src = Some v →
  - Z.of_nat (length (mem p)) ≤ base + offset < Z.of_nat (length (mem p)) →
  ∃ p1 k,
    inst_eval (Sw rs1 offset src) p = Ok p1
    ∧ py_index (length (mem p)) (base + offset) = Some k
    ∧ mem p1 !! k = Some v
    ∧ (∀ j, j ≠ k → mem p1 !! j = mem p !! j)
    ∧ env p1 = env p
    ∧ inst_eval (Lw rs1 offset dst) p1 = Ok (set_val dst v p1)
    ∧ (dst ≠ "x0" → get_val dst (set_val dst v p1) = Ok v).
Proof.
  intros H1 Hv Hr.
  assert (∃ k, py_index (length (mem p)) (base + offset) = Some k
               ∧ (k < length (mem p))%nat) as (k & Hk & Hlt).
  { destruct (decide (0 ≤ base + offset)).
    - eexists. split; [apply py_index_in_range; lia | lia].
    - eexists. split; [apply py_index_wraps; lia | lia]. }
  exists {| mem := <[k := v]> (mem p); env := env p; insts := insts p;
            pc := pc p |}, k.
  split.
  { simpl. unfold get_val. rewrite Hv, H1. simpl. unfold set_mem.
    by rewrite Hk. }
  split; [done|]. simpl.
  split; [by apply list_lookup_insert_eq|].
  split; [intros j Hj; by apply list_lookup_insert_ne|].
  split; [done|]. split.
  - unfold get_val. simpl. rewrite H1. simpl. unfold get_mem. simpl.
    rewrite length_insert, Hk. by rewrite list_lookup_insert_eq.
  - intros Hd. apply get_val_ok. by apply lookup_set_val_eq.
Qed.

(** Witness of [sw_lw_round_trip]: the doctest of [Lw],
    [Sw("a", 0, "b")] then [Lw("a", 0, "c")] from [{"a": 2, "b": 5}] in
    ten cells. *)
Lemma sw_lw_round_trip_witness :
  let p := init 10 {[ "a" := VInt 2; "b" := VInt 5 ]} [] in
  ∃ p1, inst_eval (Sw "a" 0 "b") p = Ok p1
        ∧ inst_eval (Lw "a" 0 "c") p1 = Ok (set_val "c" (VInt 5) p1)
        ∧ get_val "c" (set_val "c" (VInt 5) p1) = Ok (VInt 5).
Proof.
  intros p.
  destruct (sw_lw_round_trip p "a" "b" "c" 0 2 (VInt 5))
    as (p1 & k & Hs & _ & _ & _ & _ & Hl & Hg).
  - reflexivity.
  - reflexivity.
  - vm_compute. split; [discriminate | reflexivity].
  - exists p1. split; [exact Hs|]. split; [exact Hl|].
    apply Hg. discriminate.
Defined.

Lemma link_frame rd p p' :
  link rd p = Ok p' →
  mem p' = mem p ∧ ∀ r, r ≠ rd → env p' !! r = env p !! r.
Proof.
  unfold link. intros H. case_decide.
  - destruct (get_pc p); [|discriminate]. injection H as <-.
    split; [apply mem_set_val|]. intros r Hr. by apply lookup_set_val_ne.
  - injection H as <-. done.
Qed.

(** X4: an instruction that executes without error changes no register
    other than its destination, never changes the instruction list, and
    never changes the size of the memory; only a store changes the
    content of the memory. *)
Theorem inst_eval_frame (i : inst) (p p' : Program) :
  inst_eval i p = Ok p' →
  insts p' = insts p
  ∧ length (mem p') = length (mem p)
  ∧ (∀ r, destination i ≠ Some r → env p' !! r = env p !! r)
  ∧ ((∀ rs1 offset reg, i ≠ Sw rs1 offset reg) → mem p' = mem p).
Proof.
  intros H. split; [by eapply inst_eval_insts|].
  destruct i; simpl in H; split_result H;
    try (injection H as <-); simpl;
    repeat match goal with
    | H1 : link _ _ = _ |- _ => apply link_frame in H1 as [? ?]
    end;
    rewrite ?mem_set_val; simpl.
  all: try (split; [congruence|]; split;
            [ intros r Hr; rewrite ?env_set_pc;
              try (rewrite lookup_set_val_ne by congruence); simpl;
              auto with congruence
            | intros _; congruence ]; fail).
  (* the store *)
  unfold set_mem in H. destruct (py_index _ _); [|discriminate].
  injection H as <-. simpl. rewrite length_insert.
  split; [done|]. split; [done|]. intros Hn. by destruct (Hn rs1 offset reg).
Qed.

(** Witness of [inst_eval_frame]: [Add("t0", "b0", "b1")] from
    [{"b0": 2, "b1": 3}] leaves [b0], the memory and the instructions as
    they were. *)
Lemma inst_eval_frame_witness :
  let p := init 2 {[ "b0" := VInt 2; "b1" := VInt 3 ]} [Add "t0" "b0" "b1"] in
  ∃ p', inst_eval (Add "t0" "b0" "b1") p = Ok p'
        ∧ insts p' = insts p
        ∧ env p' !! "b0" = env p !! "b0"
        ∧ mem p' = mem p.
Proof.
  intros p.
  destruct (inst_eval (Add "t0" "b0" "b1") p) as [p'|] eqn:E;
    [|discriminate E].
  destruct (inst_eval_frame _ _ _ E) as (Hi & _ & He & Hm).
  exists p'. split; [reflexivity|]. split; [exact Hi|].
  split; [apply He; discriminate | apply Hm; discriminate].
Defined.


Lemma link_env_None rd p p' r :
  link rd p = Ok p' → env p' !! r = None → env p !! r = None.
Proof.
  unfold link. intros H. case_decide.
  - destruct (get_pc p); [|discriminate]. injection H as <-.
    unfold set_val. rewrite decide_True by done. simpl.
    intros Hn. apply lookup_insert_None in Hn. tauto.
  - by injection H as <-.
Qed.

Lemma get_val_exit r p msg :
  get_val r p = Raise (SysExit msg) →
  env p !! r = None ∧ msg = "Undefined register: " +:+ r.
Proof.
  unfold get_val. destruct (env p !! r); [discriminate|].
  by intros [= <-].
Qed.

Lemma get_val_raise r p e :
  get_val r p = Raise e → ∃ msg, e = SysExit msg.
Proof.
  unfold get_val. destruct (env p !! r); [discriminate|].
  intros [= <-]. eauto.
Qed.

(** X5: the only exit an instruction can end with is
    [Undefined register: r], for a register [r] that the instruction
    reads and the environment lacks. *)
Theorem inst_eval_exit_is_undefined_register (i : inst) (p : Program)
    (msg : string) :
  inst_eval i p = Raise (SysExit msg) →
  ∃ r, r ∈ AsmFacts.sources i ∧ env p !! r = None
       ∧ msg = "Undefined register: " +:+ r.
Proof.
  intros H.
  destruct i; simpl in H; unbind;
    repeat match type of H with
    | context [match get_val ?r ?q with _ => _ end] =>
        let E := fresh "E" in
        destruct (get_val r q) as [[]|] eqn:E;
        [..| injection H as ->; apply get_val_exit in E as [E ->];
             try (eapply link_env_None in E; [|eassumption]);
             exists r; split; [set_solver | done]]
    | context [match link ?r ?q with _ => _ end] =>
        let E := fresh "E" in
        destruct (link r q) eqn:E;
        [| unfold link in E; case_decide; [destruct (get_pc q)|];
           congruence]
    end;
    simpl in H; try discriminate.
  all: repeat case_decide; try discriminate.
  all: try (unfold set_mem in H; destruct (py_index _ _); discriminate).
  all: try (unfold get_mem in H;
            repeat (destruct (py_index _ _) || destruct (_ !! _));
            discriminate).
  all: try (destruct offset; discriminate).
Qed.

(** Witness of [inst_eval_exit_is_undefined_register]: an addition
    that reads the register [b1], which nothing has defined. *)
Lemma inst_eval_exit_is_undefined_register_witness :
  let p := init 0 {[ "b0" := VInt 2 ]} [] in
  inst_eval (Add "a" "b0" "b1") p = Raise (SysExit "Undefined register: b1")
  ∧ ∃ r, r ∈ AsmFacts.sources (Add "a" "b0" "b1") ∧ env p !! r = None
         ∧ "Undefined register: b1" = "Undefined register: " +:+ r.
Proof.
  intros p. split; [reflexivity|].
  exact (inst_eval_exit_is_undefined_register (Add "a" "b0" "b1") p
           "Undefined register: b1" eq_refl).
Defined.




(** X7: [beq rs1, rs2, lab] on two integers changes the program counter
    only: to [lab] when they are equal and to the next index otherwise.
    A taken branch whose target was never set leaves the program without
    a program counter, and the next fetch raises [TypeError]. *)
Theorem beq_step (p : Program) (k : nat) (rs1 rs2 : string)
    (lab : option Z) (a b : Z) :
  pc p = Some (Z.of_nat k) →
  insts p !! k = Some (Beq rs1 rs2 lab) →
  env p !! rs1 = Some (VInt a) →
  env p !! rs2 = Some (VInt b) →
  step p = Ok (Some (set_pc (if decide (a = b) then lab
                             else Some (Z.of_nat k + 1)) p))
  ∧ (a = b → lab = None → step (set_pc None p) = Raise TypeError).
Proof.
  intros Hpc Hi H1 H2. split.
  - rewrite (step_at p _ k _ Hpc eq_refl Hi). simpl.
    unfold get_val. simpl. rewrite H1, H2. simpl.
    case_bool_decide; case_decide; try done.
  - intros _ _. reflexivity.
Qed.

(** Witness of [beq_step]: a branch on [x0] and itself is taken. *)
Lemma beq_step_witness :
  let p := init 0 ∅ [Beq "x0" "x0" (Some 7)] in
  step p = Ok (Some (set_pc (Some 7) p)).
Proof.
  intros p.
  exact (proj1 (beq_step p 0 "x0" "x0" (Some 7) 0 0 eq_refl eq_refl
                  eq_refl eq_refl)).
Defined.

End MachineMore.

(** ** The code generator, continued *)

Section GeneratorMore.
Import Expression GenVisitor.

Ltac gen_unfold H :=
  simpl in H;
  unfold binop, gbind, gret, next_var_name, add_inst,
    get_number_of_instructions, set_target_at, with_prog, get_val, set_val,
    lookup_env, current_env in H;
  simpl in H.

(** X8: a visit of the generator only appends to the instruction list:
    the instructions that were there before the visit are still there,
    at the same indices and unchanged (the branches a visit patches are
    its own). *)
Theorem generator_only_appends (fuel : nat) (e : expr) (st st' : state)
    (r : string) :
  visit fuel e st = Ok (r, st') →
  ∃ code, Asm.insts (prog st') = Asm.insts (prog st) ++ code.
Proof.
  intros H. exact (visit_extends fuel e st r st' H _ (extends_refl _)).
Qed.

(** Witness of [generator_only_appends]: [Or(Bln(False), Bln(True))]
    visited after one instruction is already there. *)
Lemma generator_only_appends_witness :
  let st := {| next_var_counter := 0;
               prog := Asm.init 0 ∅ [Asm.Addi "a" "x0" 5] |} in
  ∃ r st' code,
    visit 3 (Or (Bln false) (Bln true)) st = Ok (r, st')
    ∧ Asm.insts (prog st') = [Asm.Addi "a" "x0" 5] ++ code.
Proof.
  intros st.
  destruct (visit 3 (Or (Bln false) (Bln true)) st) as [[r st']|] eqn:E;
    [|discriminate E].
  destruct (generator_only_appends _ _ _ _ _ E) as [code Hc].
  exists r, st', code. split; [reflexivity | exact Hc].
Defined.

(** The code of the nodes lowered by [binop]. *)
Lemma visit_arith_inv fuel op l r st dest st' :
  visit fuel (GenFacts.node op l r) st = Ok (dest, st') →
  ∃ fuel' left_var st1 right_var st2,
    fuel = S fuel'
    ∧ visit fuel' l st = Ok (left_var, st1)
    ∧ visit fuel' r st1 = Ok (right_var, st2)
    ∧ dest = tmp (S (next_var_counter st2))
    ∧ Asm.insts (prog st')
      = Asm.insts (prog st2) ++ [GenFacts.instruction op dest left_var right_var].
Proof.
  destruct fuel as [|fuel]; [by destruct op|]. intros H.
  assert (H' : binop fuel visit (GenFacts.instruction op) l r st = Ok (dest, st'))
    by (destruct op; exact H).
  clear H. gen_unfold H'.
  destruct (visit fuel l st) as [[left_var st1]|] eqn:E1; [|discriminate].
  simpl in H'.
  destruct (visit fuel r st1) as [[right_var st2]|] eqn:E2; [|discriminate].
  simpl in H'. injection H' as <- <-.
  exists fuel, left_var, st1, right_var, st2. done.
Qed.

Lemma lookup_at_end (l : list Asm.inst) (i : Asm.inst) :
  (l ++ [i]) !! length l = Some i.
Proof. by rewrite lookup_app_r, Nat.sub_diag by lia. Qed.

(** X9: the code [visit_add], [visit_sub], [visit_mul] and [visit_lth]
    emit is the code of the left operand, the code of the right operand
    and one instruction on their registers; run on integers [a] and [b]
    in these registers, this instruction leaves [a + b], [a - b],
    [a * b], or 1 or 0 as [a < b] or not, in the result register. *)
Theorem arithmetic_code (op : GenFacts.arith) (fuel : nat) (l r : expr)
    (st st' : state) (dest : string) :
  visit fuel (GenFacts.node op l r) st = Ok (dest, st') →
  ∃ fuel' left_var st1 right_var st2,
    fuel = S fuel'
    ∧ visit fuel' l st = Ok (left_var, st1)
    ∧ visit fuel' r st1 = Ok (right_var, st2)
    ∧ Asm.insts (prog st')
      = Asm.insts (prog st2) ++ [GenFacts.instruction op dest left_var right_var]
    ∧ ∀ (p : Asm.Program) (a b : Z),
        let k := length (Asm.insts (prog st2)) in
        Asm.insts p !! k = Asm.insts (prog st') !! k →
        Asm.pc p = Some (Z.of_nat k) →
        Asm.env p !! left_var = Some (Asm.VInt a) →
        Asm.env p !! right_var = Some (Asm.VInt b) →
        ∃ p', Asm.step p = Ok (Some p')
              ∧ Asm.pc p' = Some (Z.of_nat k + 1)
              ∧ Asm.env p' !! dest = Some (Asm.VInt (GenFacts.denote op a b)).
Proof.
  intros H.
  destruct (visit_arith_inv _ _ _ _ _ _ _ H)
    as (fuel' & left_var & st1 & right_var & st2 & -> & E1 & E2 & -> & Hi).
  exists fuel', left_var, st1, right_var, st2.
  split; [done|]. split; [done|]. split; [done|]. split; [exact Hi|].
  intros p a b k Hk Hpc Ha Hb. subst k.
  rewrite Hi, lookup_at_end in Hk.
  rewrite (step_at p _ _ _ Hpc eq_refl Hk).
  destruct op; simpl; unfold Asm.get_val; simpl; rewrite Ha, Hb; simpl;
    (eexists; split; [reflexivity|]);
    rewrite pc_set_val, lookup_set_val_eq by apply tmp_not_x0;
    (split; [done|]); try done.
  by case_bool_decide; case_decide.
Qed.

(** Witness of [arithmetic_code]: the doctest [Sub(Num(13), Num(10))] of
    [visit_sub]. *)
Lemma arithmetic_code_witness :
  let st := {| next_var_counter := 0; prog := Asm.init 0 ∅ [] |} in
  ∃ dest st' p p',
    visit 3 (Sub (Num 13) (Num 10)) st = Ok (dest, st')
    ∧ Asm.run 2 (prog st') = Some p
    ∧ Asm.step p = Ok (Some p')
    ∧ Asm.env p' !! dest = Some (Asm.VInt 3).
Proof.
  intros st.
  destruct (visit 3 (Sub (Num 13) (Num 10)) st) as [[dest st']|] eqn:E;
    [|discriminate E].
  destruct (Asm.run 2 (prog st')) as [p|] eqn:Ep.
  2: { vm_compute in E. injection E as <- <-. discriminate Ep. }
  destruct (arithmetic_code GenFacts.PSub _ _ _ _ _ _ E)
    as (f' & lv & st1 & rv & st2 & Hf & E1 & E2 & Hi & Hrun).
  injection Hf as <-.
  vm_compute in E1. injection E1 as <- <-.
  vm_compute in E2. injection E2 as <- <-.
  vm_compute in E. injection E as <- <-.
  assert (Hp : Asm.run 2 (Asm.init 0 ∅
                 [ Asm.Addi "tmp1" "x0" 13; Asm.Addi "tmp2" "x0" 10;
                   Asm.Sub "tmp3" "tmp1" "tmp2" ]) = Some p) by exact Ep.
  clear Ep. vm_compute in Hp. injection Hp as Hp.
  destruct (Hrun p 13 10) as (p' & Hs & _ & Hd).
  - by rewrite <- Hp.
  - by rewrite <- Hp.
  - by rewrite <- Hp.
  - by rewrite <- Hp.
  - exists "tmp3", (mkState 3 (Asm.init 0 ∅
                 [ Asm.Addi "tmp1" "x0" 13; Asm.Addi "tmp2" "x0" 10;
                   Asm.Sub "tmp3" "tmp1" "tmp2" ])), p, p'.
    split; [reflexivity|]. split; [by rewrite <- Hp|].
    split; [exact Hs | exact Hd].
Defined.

End GeneratorMore.

(** ** The generated code computes the value of the expression *)

Section Compiler.
Import Expression GenVisitor GenFacts.

Implicit Types (p q : Asm.Program) (k : nat) (code : list Asm.inst).

Ltac gen_unfold H :=
  simpl in H;
  unfold binop, gbind, gret, next_var_name, add_inst,
    get_number_of_instructions, set_target_at, with_prog, get_val, set_val,
    lookup_env, current_env in H;
  simpl in H.

Lemma loaded_app p k (c1 c2 : list Asm.inst) :
  loaded p k (c1 ++ c2) ↔ loaded p k c1 ∧ loaded p (k + length c1) c2.
Proof.
  unfold loaded. split.
  - intros H. split; intros i x Hx.
    + apply H. by apply lookup_app_l_Some.
    + rewrite <- Nat.add_assoc. apply H.
      rewrite lookup_app_r by lia. by rewrite Nat.add_sub'.
  - intros [H1 H2] i x Hx. apply lookup_app_Some in Hx as [Hx|[Hle Hx]].
    + by apply H1.
    + specialize (H2 _ _ Hx).
      by replace (k + i)%nat with (k + length c1 + (i - length c1))%nat by lia.
Qed.

Lemma loaded_cons p k i code :
  loaded p k (i :: code) ↔ Asm.insts p !! k = Some i ∧ loaded p (S k) code.
Proof.
  unfold loaded. split.
  - intros H. split.
    + rewrite <- (Nat.add_0_r k). by apply H.
    + intros j x Hx. replace (S k + j)%nat with (k + S j)%nat by lia.
      by apply H.
  - intros [H0 H] [|j] x Hx.
    + rewrite Nat.add_0_r. by injection Hx as <-.
    + replace (k + S j)%nat with (S k + j)%nat by lia. by apply H.
Qed.

Lemma loaded_insts p q k code :
  Asm.insts q = Asm.insts p → loaded p k code → loaded q k code.
Proof. unfold loaded. intros -> H. exact H. Qed.

Lemma run_app n m p p' :
  Asm.run n p = Some p' → Asm.run (n + m) p = Asm.run m p'.
Proof.
  revert p. induction n as [|n IH]; simpl; intros p H.
  - by injection H as ->.
  - destruct (Asm.step p) as [[q|]|]; try done. by apply IH.
Qed.

Lemma run_insts n p p' : Asm.run n p = Some p' → Asm.insts p' = Asm.insts p.
Proof.
  revert p. induction n as [|n IH]; simpl; intros p H.
  - by injection H as ->.
  - destruct (Asm.step p) as [[q|]|] eqn:E; try done.
    rewrite (IH _ H). by apply inst_eval_insts_step.
Qed.

(** One turn of the loop at an instruction that writes a register. *)
Lemma run_write n p k i rd v :
  Asm.pc p = Some (Z.of_nat k) →
  Asm.insts p !! k = Some i →
  Asm.inst_eval i (Asm.set_pc (Some (Z.of_nat (S k))) p)
  = Ok (Asm.set_val rd v (Asm.set_pc (Some (Z.of_nat (S k))) p)) →
  Asm.run (S n) p
  = Asm.run n (Asm.set_val rd v (Asm.set_pc (Some (Z.of_nat (S k))) p)).
Proof.
  intros Hpc Hi He. simpl.
  rewrite (step_at p _ k i Hpc eq_refl Hi).
  replace (Z.of_nat k + 1) with (Z.of_nat (S k)) by lia.
  by rewrite He.
Qed.

(** One turn of the loop at a branch or a jump to [x0]. *)
Lemma run_jump n p k i l :
  Asm.pc p = Some (Z.of_nat k) →
  Asm.insts p !! k = Some i →
  Asm.inst_eval i (Asm.set_pc (Some (Z.of_nat (S k))) p)
  = Ok (Asm.set_pc (Some (Z.of_nat l)) p) →
  Asm.run (S n) p = Asm.run n (Asm.set_pc (Some (Z.of_nat l)) p).
Proof.
  intros Hpc Hi He. simpl.
  rewrite (step_at p _ k i Hpc eq_refl Hi).
  replace (Z.of_nat k + 1) with (Z.of_nat (S k)) by lia.
  by rewrite He.
Qed.

Lemma user_name_not_tmp x j : user_name x → x ≠ tmp j.
Proof. intros [_ H]. apply H. Qed.

Lemma user_name_not_x0 x : user_name x → x ≠ "x0".
Proof. by intros [H _]. Qed.

Lemma untouched_x0 (c0 c1 : nat) W :
  (∀ x, x ∈ W → user_name x) → untouched c0 c1 W "x0".
Proof.
  intros HW. split.
  - intros j _ E. by apply (tmp_not_x0 j).
  - intros Hin. by destruct (HW _ Hin) as [H _].
Qed.

Lemma untouched_weaken c0 c0' c1 c1' W W' x :
  untouched c0 c0' W x → (c0 ≤ c1)%nat → (c1' ≤ c0')%nat → W' ⊆ W →
  untouched c1 c1' W' x.
Proof.
  intros [H1 H2] ? ? HW. split.
  - intros j Hj. apply H1. lia.
  - intros Hin. apply H2. by apply HW.
Qed.


Lemma pc_set_pc l p : Asm.pc (Asm.set_pc l p) = l.
Proof. reflexivity. Qed.

Lemma runs_pre (P Q : Asm.Program → Prop) code k c0 c1 W r v :
  runs Q code k c0 c1 W r v → (∀ p, P p → Q p) → runs P code k c0 c1 W r v.
Proof. intros H HPQ p Hl Hpc H0 HP. apply H; auto. Qed.

(** Two blocks one after the other. *)
Lemma runs_seq (P1 P2 : Asm.Program → Prop) (b1 b2 : list Asm.inst) k
    (lo1 hi1 : nat) W1 (lo2 hi2 : nat) W2 (lo hi : nat) W r1 v1 r2 v2 :
  runs P1 b1 k lo1 hi1 W1 r1 v1 →
  runs P2 b2 (k + length b1) lo2 hi2 W2 r2 v2 →
  (∀ x, untouched lo hi W x → untouched lo1 hi1 W1 x ∧ untouched lo2 hi2 W2 x) →
  untouched lo1 hi1 W1 "x0" →
  (∀ p p', P1 p → Asm.env p' !! r1 = Some (Asm.VInt v1) →
           (∀ x, untouched lo1 hi1 W1 x → Asm.env p' !! x = Asm.env p !! x) →
           P2 p') →
  runs P1 (b1 ++ b2) k lo hi W r2 v2.
Proof.
  intros R1 R2 Hun Hx0 Htr p Hl Hpc H0 HP.
  apply loaded_app in Hl as [Hl1 Hl2].
  destruct (R1 p Hl1 Hpc H0 HP) as (n1 & p1 & Hr1 & Hpc1 & Hi1 & Hv1 & Hk1).
  destruct (R2 p1) as (n2 & p2 & Hr2 & Hpc2 & Hi2 & Hv2 & Hk2).
  - by apply (loaded_insts p).
  - done.
  - by rewrite Hk1.
  - by apply (Htr p).
  - exists (n1 + n2)%nat, p2. rewrite (run_app _ _ _ _ Hr1).
    split; [done|]. split.
    { rewrite Hpc2, length_app. f_equal. lia. }
    split; [by rewrite Hi2|]. split; [done|].
    intros x Hx. destruct (Hun x Hx) as [Hx1 Hx2].
    by rewrite Hk2, Hk1.
Qed.

(** A block of one instruction that writes [v] into register [d]. *)
Lemma runs_one (P : Asm.Program → Prop) (i : Asm.inst) (d : string) (v : Z)
    k (lo hi : nat) W :
  d ≠ "x0" →
  (∀ x, untouched lo hi W x → x ≠ d) →
  (∀ q l, P q → Asm.env q !! "x0" = Some (Asm.VInt 0) →
     Asm.inst_eval i (Asm.set_pc l q)
     = Ok (Asm.set_val d (Asm.VInt v) (Asm.set_pc l q))) →
  runs P [i] k lo hi W d v.
Proof.
  intros Hd Hun He p Hl Hpc H0 HP.
  apply loaded_cons in Hl as [Hi _].
  exists 1%nat. eexists. split.
  { rewrite (run_write 0 p k i d (Asm.VInt v) Hpc Hi) by (by apply He).
    reflexivity. }
  split; [rewrite pc_set_val, pc_set_pc; simpl length; f_equal; lia|].
  split; [by rewrite insts_set_val, insts_set_pc|].
  split; [by rewrite lookup_set_val_eq|].
  intros x Hx. rewrite lookup_set_val_ne by (by apply Hun).
  by rewrite env_set_pc.
Qed.

(** The empty block, for a value that is already in its register. *)
Lemma runs_nil (P : Asm.Program → Prop) (r : string) (v : Z) k (lo hi : nat) W :
  (∀ p, P p → Asm.env p !! r = Some (Asm.VInt v)) →
  runs P [] k lo hi W r v.
Proof.
  intros Hr p _ Hpc _ HP. exists 0%nat, p.
  split; [done|]. split; [by rewrite Nat.add_0_r|].
  split; [done|]. split; [by apply Hr | done].
Qed.


Lemma runs_at (P : Asm.Program → Prop) code k k' (lo hi : nat) W r v :
  runs P code k lo hi W r v → k = k' → runs P code k' lo hi W r v.
Proof. by intros H <-. Qed.

(** A block that starts with a branch or a jump to its end. *)
Lemma runs_goto (P : Asm.Program → Prop) (i : Asm.inst) (rest : list Asm.inst)
    (r : string) (v : Z) k (lo hi : nat) W :
  (∀ q, P q → Asm.env q !! r = Some (Asm.VInt v)) →
  (∀ q, P q → Asm.env q !! "x0" = Some (Asm.VInt 0) →
     Asm.inst_eval i (Asm.set_pc (Some (Z.of_nat (S k))) q)
     = Ok (Asm.set_pc (Some (Z.of_nat (k + length (i :: rest)))) q)) →
  runs P (i :: rest) k lo hi W r v.
Proof.
  intros Hr He p Hl Hpc H0 HP.
  apply loaded_cons in Hl as [Hi _].
  exists 1%nat. eexists. split.
  { rewrite (run_jump 0 p k i _ Hpc Hi (He p HP H0)). reflexivity. }
  split; [done|]. split; [done|]. split; [exact (Hr p HP) | done].
Qed.

(** *** Names *)

Lemma hygienic_names_app ρ (W1 W2 : list string) :
  hygienic_names ρ (W1 ++ W2) →
  hygienic_names ρ W1 ∧ hygienic_names ρ W2 ∧ (∀ x, x ∈ W1 → x ∉ W2).
Proof.
  intros (Hnd & Hall & Hρ). apply NoDup_app in Hnd as (N1 & N12 & N2).
  split; [|split].
  - split; [done|]. split; [|done].
    intros x Hx. apply Hall, elem_of_app. by left.
  - split; [done|]. split; [|done].
    intros x Hx. apply Hall, elem_of_app. by right.
  - done.
Qed.

Lemma hygienic_names_let ρ (W1 W2 : list string) (x : string) (a : Z) :
  hygienic_names ρ (W1 ++ x :: W2) →
  hygienic_names ρ W1 ∧ hygienic_names (<[x := a]> ρ) W2
  ∧ user_name x ∧ (x ∉ W1) ∧ (x ∉ W2) ∧ ρ !! x = None
  ∧ (∀ y, y ∈ W1 → y ∉ W2).
Proof.
  intros (Hnd & Hall & Hρ). apply NoDup_app in Hnd as (N1 & N12 & N2).
  apply NoDup_cons in N2 as [Hx N2].
  assert (Ux : user_name x ∧ ρ !! x = None).
  { apply Hall, elem_of_app. right. apply elem_of_cons. by left. }
  destruct Ux as [Ux Hx0].
  assert (Hin2 : ∀ y, y ∈ W2 → y ∈ W1 ++ x :: W2).
  { intros y Hy. apply elem_of_app. right. apply elem_of_cons. by right. }
  split; [|split; [|split; [|split; [|split; [|split]]]]]; try done.
  - split; [done|]. split; [|done].
    intros y Hy. apply Hall, elem_of_app. by left.
  - split; [done|]. split.
    + intros y Hy. split; [by apply Hall, Hin2|].
      rewrite lookup_insert_ne; [by apply Hall, Hin2|].
      by intros ->.
    + intros y Hy. destruct (decide (x = y)) as [<-|Hne]; [done|].
      rewrite lookup_insert_ne in Hy by done. by apply Hρ.
  - intros Hin. apply (N12 _ Hin). apply elem_of_cons. by left.
  - intros y Hy Hin. apply (N12 _ Hy). apply elem_of_cons. by right.
Qed.

Lemma variable_untouched ρ (W : list string) (lo hi : nat) x :
  hygienic_names ρ W → is_Some (ρ !! x) → untouched lo hi W x.
Proof.
  intros (_ & Hw & Hρ) Hx. split.
  - intros j _. by apply user_name_not_tmp, Hρ.
  - intros Hin. destruct (Hw _ Hin) as [_ Hn]. rewrite Hn in Hx.
    by destruct Hx.
Qed.

Lemma x0_untouched ρ (W : list string) (lo hi : nat) :
  hygienic_names ρ W → untouched lo hi W "x0".
Proof.
  intros (_ & Hw & _). apply untouched_x0. intros x Hx. by apply Hw.
Qed.

Lemma result_register_survives ρ (W1 W2 : list string) (lo1 hi1 lo2 hi2 : nat) r :
  result_register ρ W1 lo1 hi1 r →
  hygienic_names ρ (W1 ++ W2) → (hi1 ≤ lo2)%nat →
  untouched lo2 hi2 W2 r.
Proof.
  intros Hr Hh Hle.
  destruct (hygienic_names_app _ _ _ Hh) as (H1 & H2 & H12).
  destruct Hr as [(j & -> & Hj)|[Hin|Hs]].
  - split.
    + intros j' Hj' E%tmp_inj. lia.
    + intros Hin. destruct H2 as (_ & Hw & _).
      destruct (Hw _ Hin) as [U _]. by apply (user_name_not_tmp _ j U).
  - split.
    + intros j _. destruct H1 as (_ & Hw & _).
      by apply user_name_not_tmp, Hw.
    + by apply H12.
  - by apply (variable_untouched ρ).
Qed.

Lemma result_register_not_later ρ (W : list string) (lo hi : nat) r :
  result_register ρ W lo hi r → hygienic_names ρ W →
  ∀ j, (hi < j)%nat → r ≠ tmp j.
Proof.
  intros Hr (_ & Hw & Hρ) j Hj.
  destruct Hr as [(j' & -> & Hj')|[Hin|Hs]].
  - intros E%tmp_inj. lia.
  - by apply user_name_not_tmp, Hw.
  - by apply user_name_not_tmp, Hρ.
Qed.


Lemma untouched_split (lo mid hi : nat) (W1 W2 : list string) x :
  untouched lo hi (W1 ++ W2) x → (lo ≤ mid ≤ hi)%nat →
  untouched lo mid W1 x ∧ untouched mid hi W2 x.
Proof.
  intros [H1 H2] Hm. split; split.
  - intros j Hj. apply H1. lia.
  - intros Hin. apply H2, elem_of_app. by left.
  - intros j Hj. apply H1. lia.
  - intros Hin. apply H2, elem_of_app. by right.
Qed.

Lemma untouched_nil (lo hi : nat) x :
  (∀ j, (lo < j ≤ hi)%nat → x ≠ tmp j) → untouched lo hi [] x.
Proof. intros H. split; [done|]. by intros ?%elem_of_nil. Qed.

(** *** Straight-line code *)

Ltac names :=
  first [ apply tmp_not_x0
        | (let E := fresh "E" in intros E; apply tmp_inj in E; lia)
        | assumption
        | (let E := fresh "E" in intros E; symmetry in E; revert E; assumption)
        | done ].

Ltac env_rewrite :=
  repeat first
    [ rewrite env_set_pc
    | rewrite lookup_set_val_eq by names
    | rewrite lookup_set_val_ne by names
    | match goal with
      | H : Asm.env ?q !! ?r = Some _ |- context [Asm.env ?q !! ?r] => rewrite H
      end ].

Ltac eval_inst :=
  cbn [Asm.inst_eval]; unfold Asm.get_val; env_rewrite;
  cbn [mbind result_bind Asm.py_add Asm.py_sub Asm.py_mul Asm.py_xor
       Asm.py_lt Asm.py_floordiv Asm.py_eq];
  try reflexivity.

Ltac write_step :=
  eapply eq_trans;
  [ eapply run_write;
    [ repeat (rewrite pc_set_val || rewrite pc_set_pc);
      first [eassumption | reflexivity]
    | repeat (rewrite insts_set_val || rewrite insts_set_pc); eassumption
    | eval_inst ]
  | ].

Lemma tail_binary (mk : string → string → string → Asm.inst)
    (lv rv : string) (a b v : Z) k (c : nat) :
  (∀ q rd, Asm.env q !! lv = Some (Asm.VInt a) →
           Asm.env q !! rv = Some (Asm.VInt b) →
           Asm.inst_eval (mk rd lv rv) q = Ok (Asm.set_val rd (Asm.VInt v) q)) →
  runs (λ q, Asm.env q !! lv = Some (Asm.VInt a)
             ∧ Asm.env q !! rv = Some (Asm.VInt b))
       [mk (tmp (S c)) lv rv] k c (S c) [] (tmp (S c)) v.
Proof.
  intros He. apply runs_one.
  - apply tmp_not_x0.
  - intros x [Hx _]. apply Hx. lia.
  - intros q l [Ha Hb] _. apply He; by rewrite env_set_pc.
Qed.

Lemma tail_eql (lv rv : string) (a b : Z) k (c : nat) :
  runs (λ q, Asm.env q !! lv = Some (Asm.VInt a)
             ∧ Asm.env q !! rv = Some (Asm.VInt b))
       [ Asm.Sub (tmp (S c)) lv rv;
         Asm.Slti (tmp (S (S c))) (tmp (S c)) 1;
         Asm.Slti (tmp (S (S (S c)))) (tmp (S c)) 0;
         Asm.Xor (tmp (S (S (S (S c))))) (tmp (S (S c))) (tmp (S (S (S c)))) ]
       k c (S (S (S (S c)))) [] (tmp (S (S (S (S c)))))
       (if decide (a = b) then 1 else 0).
Proof.
  intros p Hl Hpc H0 [Ha Hb].
  apply loaded_cons in Hl as [I0 Hl]. apply loaded_cons in Hl as [I1 Hl].
  apply loaded_cons in Hl as [I2 Hl]. apply loaded_cons in Hl as [I3 _].
  exists 4%nat. eexists. split.
  { write_step. write_step. write_step. write_step. reflexivity. }
  split.
  { repeat (rewrite pc_set_val || rewrite pc_set_pc). simpl length.
    f_equal. lia. }
  split; [by repeat (rewrite insts_set_val || rewrite insts_set_pc)|].
  split.
  { rewrite lookup_set_val_eq by names. do 2 f_equal.
    repeat case_bool_decide; case_decide; simpl; try reflexivity; lia. }
  intros x [Hx _].
  by repeat first [rewrite lookup_set_val_ne by (apply Hx; lia) | rewrite env_set_pc].
Qed.

Lemma tail_leq (lv rv : string) (a b : Z) k (c : nat) :
  runs (λ q, Asm.env q !! lv = Some (Asm.VInt a)
             ∧ Asm.env q !! rv = Some (Asm.VInt b))
       [ Asm.Slt (tmp (S c)) rv lv; Asm.Xori (tmp (S (S c))) (tmp (S c)) 1 ]
       k c (S (S c)) [] (tmp (S (S c)))
       (if decide (a ≤ b) then 1 else 0).
Proof.
  intros p Hl Hpc H0 [Ha Hb].
  apply loaded_cons in Hl as [I0 Hl]. apply loaded_cons in Hl as [I1 _].
  exists 2%nat. eexists. split.
  { write_step. write_step. reflexivity. }
  split.
  { repeat (rewrite pc_set_val || rewrite pc_set_pc). simpl length.
    f_equal. lia. }
  split; [by repeat (rewrite insts_set_val || rewrite insts_set_pc)|].
  split.
  { rewrite lookup_set_val_eq by names. do 2 f_equal.
    repeat case_bool_decide; case_decide; simpl; try reflexivity; lia. }
  intros x [Hx _].
  by repeat first [rewrite lookup_set_val_ne by (apply Hx; lia) | rewrite env_set_pc].
Qed.

Lemma tail_not (ev : string) (a : Z) k (c : nat) :
  (∀ j, (c < j)%nat → ev ≠ tmp j) →
  runs (λ q, Asm.env q !! ev = Some (Asm.VInt a))
       [ Asm.Slti (tmp (S c)) ev 1;
         Asm.Slti (tmp (S (S c))) ev 0;
         Asm.Xor (tmp (S (S (S c)))) (tmp (S c)) (tmp (S (S c))) ]
       k c (S (S (S c))) [] (tmp (S (S (S c))))
       (if decide (a = 0) then 1 else 0).
Proof.
  intros Hev p Hl Hpc H0 Ha.
  apply loaded_cons in Hl as [I0 Hl]. apply loaded_cons in Hl as [I1 Hl].
  apply loaded_cons in Hl as [I2 _].
  assert (ev ≠ tmp (S c)) by (apply Hev; lia).
  exists 3%nat. eexists. split.
  { write_step. write_step. write_step. reflexivity. }
  split.
  { repeat (rewrite pc_set_val || rewrite pc_set_pc). simpl length.
    f_equal. lia. }
  split; [by repeat (rewrite insts_set_val || rewrite insts_set_pc)|].
  split.
  { rewrite lookup_set_val_eq by names. do 2 f_equal.
    repeat case_bool_decide; case_decide; simpl; try reflexivity; lia. }
  intros x [Hx _].
  by repeat first [rewrite lookup_set_val_ne by (apply Hx; lia) | rewrite env_set_pc].
Qed.

Lemma tail_neg (ev : string) (a : Z) k (c : nat) :
  runs (λ q, Asm.env q !! ev = Some (Asm.VInt a))
       [Asm.Sub (tmp (S c)) "x0" ev] k c (S c) [] (tmp (S c)) (- a).
Proof.
  apply runs_one.
  - apply tmp_not_x0.
  - intros x [Hx _]. apply Hx. lia.
  - intros q l Ha H0. eval_inst.
Qed.

Lemma tail_literal (P : Asm.Program → Prop) (n : Z) k (c : nat) :
  runs P [Asm.Addi (tmp (S c)) "x0" n] k c (S c) [] (tmp (S c)) n.
Proof.
  apply runs_one.
  - apply tmp_not_x0.
  - intros x [Hx _]. apply Hx. lia.
  - intros q l _ H0. eval_inst.
Qed.


(** *** Operands, then the instructions of the node *)

Lemma computes_operands ρ (bl br tail : list Asm.inst) k (c0 c1 c2 c3 : nat)
    (Wl Wr : list string) (lv rv : string) (a b : Z) (d : string) (v : Z) :
  computes bl k c0 c1 Wl ρ lv a →
  computes br (k + length bl) c1 c2 Wr ρ rv b →
  runs (λ q, Asm.env q !! lv = Some (Asm.VInt a)
             ∧ Asm.env q !! rv = Some (Asm.VInt b))
       tail (k + length bl + length br) c2 c3 [] d v →
  result_register ρ Wl c0 c1 lv →
  hygienic_names ρ (Wl ++ Wr) →
  (c0 ≤ c1 ≤ c2)%nat → (c2 ≤ c3)%nat →
  computes (bl ++ br ++ tail) k c0 c3 (Wl ++ Wr) ρ d v.
Proof.
  intros Rl Rr Rt Hlv Hh Hc Hc3.
  destruct (hygienic_names_app _ _ _ Hh) as (H1 & H2 & H12).
  unfold computes in *.
  apply (runs_seq _ (λ q, holds q ρ ∧ Asm.env q !! lv = Some (Asm.VInt a))
           bl (br ++ tail) k c0 c1 Wl c1 c3 Wr c0 c3 (Wl ++ Wr) lv a d v).
  - exact Rl.
  - apply (runs_seq _ (λ q, Asm.env q !! lv = Some (Asm.VInt a)
                           ∧ Asm.env q !! rv = Some (Asm.VInt b))
             br tail _ c1 c2 Wr c2 c3 [] c1 c3 Wr rv b d v).
    + apply (runs_pre _ _ _ _ _ _ _ _ _ Rr). by intros q [? _].
    + exact Rt.
    + intros x Hx. rewrite <- (app_nil_r Wr) in Hx.
      apply (untouched_split c1 c2 c3 Wr [] x Hx). lia.
    + by apply (x0_untouched ρ).
    + intros p p' [Hρ Hl] Hrv Hk. split; [|done].
      rewrite Hk; [done|].
      apply (result_register_survives ρ Wl Wr c0 c1); [done|done|lia].
  - intros x Hx. apply (untouched_split c0 c1 c3 Wl Wr x Hx). lia.
  - by apply (x0_untouched ρ).
  - intros p p' Hρ Hl Hk. split; [|done].
    intros y z Hy. rewrite Hk; [by apply Hρ|].
    by apply (variable_untouched ρ).
Qed.

Lemma computes_operand ρ (be tail : list Asm.inst) k (c0 c1 c2 : nat)
    (W : list string) (ev : string) (a : Z) (d : string) (v : Z) :
  computes be k c0 c1 W ρ ev a →
  runs (λ q, Asm.env q !! ev = Some (Asm.VInt a))
       tail (k + length be) c1 c2 [] d v →
  hygienic_names ρ W →
  (c0 ≤ c1 ≤ c2)%nat →
  computes (be ++ tail) k c0 c2 W ρ d v.
Proof.
  intros Re Rt Hh Hc. unfold computes in *.
  apply (runs_seq _ (λ q, Asm.env q !! ev = Some (Asm.VInt a))
           be tail k c0 c1 W c1 c2 [] c0 c2 W ev a d v).
  - exact Re.
  - exact Rt.
  - intros x Hx. rewrite <- (app_nil_r W) in Hx.
    apply (untouched_split c0 c1 c2 W [] x Hx). lia.
  - by apply (x0_untouched ρ).
  - by intros p p' _ He _.
Qed.

(** The counter of temporaries never goes back. *)
Lemma visit_counter fuel :
  ∀ e st r st', visit fuel e st = Ok (r, st') →
  (next_var_counter st ≤ next_var_counter st')%nat.
Proof.
  induction fuel as [|fuel IH]; intros e st r st' H; [discriminate|].
  destruct e; gen_unfold H;
    repeat first
    [ match type of H with
      | context [visit fuel ?e ?s] =>
        let E := fresh "E" in
        destruct (visit fuel e s) as [[? ?]|] eqn:E; [|discriminate H];
        apply IH in E; simpl in E, H
      end
    | match type of H with
      | context [if is_fn ?e then _ else _] => destruct (is_fn e)
      | context [match Asm.get_val ?x ?p with _ => _ end] =>
          destruct (Asm.get_val x p); [|discriminate H]
      | context [match Asm.env ?p !! ?x with _ => _ end] =>
          destruct (Asm.env p !! x) as [[]|]
      | context [match ?e with Var _ => _ | _ => _ end] => destruct e
      end; gen_unfold H ].
  all: try (injection H as <- <-; simpl; lia).
Qed.


(** *** The shape of the code with branches *)

Ltac list_eq :=
  repeat first [rewrite length_app | progress cbn [length]];
  repeat first
    [ reflexivity
    | lia
    | match goal with
      | |- @eq (list _) _ _ => f_equal
      | |- @eq Asm.inst _ _ => f_equal
      | |- @eq (option _) _ _ => f_equal
      end ].

Lemma alter_at (f : Asm.inst → Asm.inst) (A B : list Asm.inst) x (n : nat) :
  n = length A → alter f n (A ++ x :: B) = A ++ f x :: B.
Proof. intros ->. apply alter_at_length. Qed.

Lemma visit_Or_shape fuel l r st dest st' :
  visit fuel (Or l r) st = Ok (dest, st') →
  ∃ fuel' left_var st1 right_var stm st2 block,
    fuel = S fuel'
    ∧ visit fuel' l st = Ok (left_var, st1)
    ∧ visit fuel' r stm = Ok (right_var, st2)
    ∧ next_var_counter stm = S (next_var_counter st1)
    ∧ dest = tmp (S (next_var_counter st1))
    ∧ next_var_counter st' = next_var_counter st2
    ∧ Asm.insts (prog stm)
      = Asm.insts (prog st1)
        ++ [ Asm.Beq left_var "x0"
               (Some (Z.of_nat (length (Asm.insts (prog st1)) + 3)));
             Asm.Addi dest "x0" 1; Asm.Jal "x0" None ]
    ∧ Asm.insts (prog st2) = Asm.insts (prog stm) ++ block
    ∧ Asm.insts (prog st')
      = Asm.insts (prog st1)
        ++ [ Asm.Beq left_var "x0"
               (Some (Z.of_nat (length (Asm.insts (prog st1)) + 3)));
             Asm.Addi dest "x0" 1;
             Asm.Jal "x0"
               (Some (Z.of_nat (length (Asm.insts (prog st1)) + 3
                               + length block + 1))) ]
        ++ block ++ [Asm.Add dest right_var "x0"].
Proof.
  destruct fuel as [|fuel]; [discriminate|]. intros H.
  gen_unfold H.
  destruct (visit fuel l st) as [[left_var st1]|] eqn:E1; [|discriminate].
  simpl in H.
  match type of H with context [visit fuel r ?s] => set (stm := s) in * end.
  destruct (visit fuel r stm) as [[right_var st2]|] eqn:E2; [|discriminate].
  simpl in H. injection H as <- <-.
  assert (Hm : Asm.insts (prog stm)
      = Asm.insts (prog st1)
        ++ [ Asm.Beq left_var "x0"
               (Some (Z.of_nat (length (Asm.insts (prog st1)) + 3)));
             Asm.Addi (tmp (S (next_var_counter st1))) "x0" 1;
             Asm.Jal "x0" None ]).
  { unfold stm. simpl. unfold Asm.get_number_of_instructions. simpl.
    rewrite Nat2Z.id. rewrite <- !app_assoc. simpl.
    rewrite alter_at_length. simpl.
    rewrite ?length_app. simpl. repeat f_equal; try lia. }
  destruct (visit_extends _ _ _ _ _ E2 (Asm.insts (prog stm)))
    as [block Hb]; [apply extends_refl|].
  exists fuel, left_var, st1, right_var, stm, st2, block.
  split; [done|]. split; [done|]. split; [done|]. split; [done|].
  split; [done|]. split; [done|]. split; [exact Hm|]. split; [exact Hb|].
  simpl. unfold Asm.get_number_of_instructions. simpl.
  rewrite Nat2Z.id, Hb, Hm.
  generalize (Asm.insts (prog st1)). intros A.
  match goal with |- alter _ _ ?L = _ =>
    replace L with ((A ++ [Asm.Beq left_var "x0" (Some (Z.of_nat (length A + 3)));
                           Asm.Addi (tmp (S (next_var_counter st1))) "x0" 1])
                    ++ Asm.Jal "x0" None
                    :: (block ++ [Asm.Add (tmp (S (next_var_counter st1)))
                                    right_var "x0"]))
      by (rewrite <- !app_assoc; reflexivity)
  end.
  rewrite alter_at by (rewrite !length_app; simpl; lia).
  rewrite <- !app_assoc. simpl.
  rewrite ?length_app. simpl. rewrite ?length_app. simpl.
  list_eq.
Qed.

Lemma visit_And_shape fuel l r st dest st' :
  visit fuel (And l r) st = Ok (dest, st') →
  ∃ fuel' left_var st1 right_var stm st2 block,
    fuel = S fuel'
    ∧ visit fuel' l st = Ok (left_var, st1)
    ∧ visit fuel' r stm = Ok (right_var, st2)
    ∧ next_var_counter stm = next_var_counter st1
    ∧ dest = tmp (S (next_var_counter st2))
    ∧ next_var_counter st' = S (next_var_counter st2)
    ∧ Asm.insts (prog stm)
      = Asm.insts (prog st1) ++ [Asm.Beq left_var "x0" None]
    ∧ Asm.insts (prog st2) = Asm.insts (prog stm) ++ block
    ∧ Asm.insts (prog st')
      = Asm.insts (prog st1)
        ++ [ Asm.Beq left_var "x0"
               (Some (Z.of_nat (length (Asm.insts (prog st1)) + 1
                               + length block + 2))) ]
        ++ block
        ++ [ Asm.Add dest right_var "x0";
             Asm.Jal "x0"
               (Some (Z.of_nat (length (Asm.insts (prog st1)) + 1
                               + length block + 3)));
             Asm.Addi dest "x0" 0 ].
Proof.
  destruct fuel as [|fuel]; [discriminate|]. intros H.
  gen_unfold H.
  destruct (visit fuel l st) as [[left_var st1]|] eqn:E1; [|discriminate].
  simpl in H.
  match type of H with context [visit fuel r ?s] => set (stm := s) in * end.
  destruct (visit fuel r stm) as [[right_var st2]|] eqn:E2; [|discriminate].
  simpl in H. injection H as <- <-.
  destruct (visit_extends _ _ _ _ _ E2 (Asm.insts (prog stm)))
    as [block Hb]; [apply extends_refl|].
  exists fuel, left_var, st1, right_var, stm, st2, block.
  split; [done|]. split; [done|]. split; [done|]. split; [done|].
  split; [done|]. split; [done|]. split; [done|]. split; [exact Hb|].
  simpl. unfold Asm.get_number_of_instructions. simpl.
  rewrite !Nat2Z.id, Hb. simpl.
  generalize (Asm.insts (prog st1)). intros A.
  replace (length (((A ++ [Asm.Beq left_var "x0" None]) ++ block)
                     ++ [Asm.Add (tmp (S (next_var_counter st2))) right_var "x0"]))
    with (S (length ((A ++ [Asm.Beq left_var "x0" None]) ++ block)))
    by (rewrite (length_app _ [_]); simpl; lia).
  rewrite patch_branch_and_jump. simpl.
  rewrite ?length_app, ?length_alter, ?length_app. simpl.
  list_eq.
Qed.

Lemma visit_If_shape fuel c l r st dest st' :
  visit fuel (IfThenElse c l r) st = Ok (dest, st') →
  ∃ fuel' cv st1 sta lv st2 stb rv st3 b0 b1,
    fuel = S fuel'
    ∧ visit fuel' c st = Ok (cv, st1)
    ∧ visit fuel' l sta = Ok (lv, st2)
    ∧ visit fuel' r stb = Ok (rv, st3)
    ∧ next_var_counter sta = next_var_counter st1
    ∧ next_var_counter stb = S (next_var_counter st2)
    ∧ dest = tmp (S (next_var_counter st2))
    ∧ next_var_counter st' = next_var_counter st3
    ∧ Asm.insts (prog sta) = Asm.insts (prog st1) ++ [Asm.Beq cv "x0" None]
    ∧ Asm.insts (prog st2) = Asm.insts (prog sta) ++ b0
    ∧ Asm.insts (prog stb)
      = Asm.insts (prog st1)
        ++ [ Asm.Beq cv "x0"
               (Some (Z.of_nat (length (Asm.insts (prog st1)) + 1
                               + length b0 + 2))) ]
        ++ b0 ++ [Asm.Add dest lv "x0"; Asm.Jal "x0" None]
    ∧ Asm.insts (prog st3) = Asm.insts (prog stb) ++ b1
    ∧ Asm.insts (prog st')
      = Asm.insts (prog st1)
        ++ [ Asm.Beq cv "x0"
               (Some (Z.of_nat (length (Asm.insts (prog st1)) + 1
                               + length b0 + 2))) ]
        ++ b0
        ++ [ Asm.Add dest lv "x0";
             Asm.Jal "x0"
               (Some (Z.of_nat (length (Asm.insts (prog st1)) + 1
                               + length b0 + 2 + length b1 + 1))) ]
        ++ b1 ++ [Asm.Add dest rv "x0"].
Proof.
  destruct fuel as [|fuel]; [discriminate|]. intros H.
  gen_unfold H.
  destruct (visit fuel c st) as [[cv st1]|] eqn:E1; [|discriminate].
  simpl in H.
  match type of H with context [visit fuel l ?s] => set (sta := s) in * end.
  destruct (visit fuel l _) as [[lv st2]|] eqn:E2; [|discriminate].
  simpl in H.
  match type of H with context [visit fuel r ?s] => set (stb := s) in * end.
  destruct (visit fuel r _) as [[rv st3]|] eqn:E3; [|discriminate].
  simpl in H. injection H as <- <-.
  destruct (visit_extends _ _ _ _ _ E2 (Asm.insts (prog sta)))
    as [b0 Hb0]; [apply extends_refl|].
  assert (Hm : Asm.insts (prog stb)
      = Asm.insts (prog st1)
        ++ [ Asm.Beq cv "x0"
               (Some (Z.of_nat (length (Asm.insts (prog st1)) + 1
                               + length b0 + 2))) ]
        ++ b0 ++ [Asm.Add (tmp (S (next_var_counter st2))) lv "x0";
                  Asm.Jal "x0" None]).
  { unfold stb. simpl. unfold Asm.get_number_of_instructions. simpl.
    rewrite Nat2Z.id, Hb0. simpl.
    generalize (Asm.insts (prog st1)). intros A.
    rewrite <- !app_assoc. simpl.
    rewrite alter_at_length. simpl.
    rewrite ?length_app. simpl. rewrite ?length_app. simpl.
    list_eq. }
  destruct (visit_extends _ _ _ _ _ E3 (Asm.insts (prog stb)))
    as [b1 Hb1]; [apply extends_refl|].
  exists fuel, cv, st1, sta, lv, st2, stb, rv, st3, b0, b1.
  split; [done|]. split; [done|]. split; [done|]. split; [done|].
  split; [done|]. split; [done|]. split; [done|]. split; [done|].
  split; [done|]. split; [exact Hb0|]. split; [exact Hm|].
  split; [exact Hb1|].
  simpl. unfold Asm.get_number_of_instructions. simpl.
  rewrite Nat2Z.id, Hb1, Hm, Hb0. simpl.
  set (A := Asm.insts (prog st1)).
  match goal with |- alter _ _ ?L = _ =>
    replace L with ((A ++ [Asm.Beq cv "x0"
                             (Some (Z.of_nat (length A + 1 + length b0 + 2)))]
                       ++ b0 ++ [Asm.Add (tmp (S (next_var_counter st2))) lv "x0"])
                    ++ Asm.Jal "x0" None
                    :: (b1 ++ [Asm.Add (tmp (S (next_var_counter st2))) rv "x0"]))
      by (rewrite <- !app_assoc; simpl; rewrite <- !app_assoc; reflexivity)
  end.
  rewrite alter_at
    by (rewrite ?length_app; simpl; rewrite ?length_app; simpl; lia).
  rewrite <- ?app_assoc. simpl. rewrite <- ?app_assoc. simpl.
  rewrite ?length_app. simpl. rewrite ?length_app. simpl.
  list_eq.
Qed.


(** *** Branches, jumps and copies *)

Lemma runs_jal (P : Asm.Program → Prop) (rest : list Asm.inst) (T : Z)
    (r : string) (v : Z) k (lo hi : nat) W :
  T = Z.of_nat (k + S (length rest)) →
  (∀ q, P q → Asm.env q !! r = Some (Asm.VInt v)) →
  runs P (Asm.Jal "x0" (Some T) :: rest) k lo hi W r v.
Proof.
  intros -> Hr. apply runs_goto; [exact Hr|].
  intros q _ _. reflexivity.
Qed.

Lemma runs_beq_taken (P : Asm.Program → Prop) (lv : string)
    (rest : list Asm.inst) (T : Z) (r : string) (v : Z) k (lo hi : nat) W :
  T = Z.of_nat (k + S (length rest)) →
  (∀ q, P q → Asm.env q !! lv = Some (Asm.VInt 0)) →
  (∀ q, P q → Asm.env q !! r = Some (Asm.VInt v)) →
  runs P (Asm.Beq lv "x0" (Some T) :: rest) k lo hi W r v.
Proof.
  intros -> Hl Hr. apply runs_goto; [exact Hr|].
  intros q HP H0. pose proof (Hl q HP) as Hq.
  cbn [Asm.inst_eval]. unfold Asm.get_val. rewrite !env_set_pc, Hq, H0.
  reflexivity.
Qed.

Lemma runs_beq_fall (P : Asm.Program → Prop) (lv : string) (a : Z)
    (lab : option Z) (r : string) (v : Z) k (lo hi : nat) W :
  a ≠ 0 →
  (∀ q, P q → Asm.env q !! lv = Some (Asm.VInt a)) →
  (∀ q, P q → Asm.env q !! r = Some (Asm.VInt v)) →
  runs P [Asm.Beq lv "x0" lab] k lo hi W r v.
Proof.
  intros Ha Hl Hr. apply runs_goto; [exact Hr|].
  intros q HP H0. pose proof (Hl q HP) as Hq.
  cbn [Asm.inst_eval]. unfold Asm.get_val. rewrite !env_set_pc, Hq, H0.
  cbn [mbind result_bind Asm.py_eq].
  rewrite bool_decide_eq_false_2 by done.
  replace (k + length [Asm.Beq lv "x0" lab])%nat with (S k)
    by (cbn [length]; lia).
  reflexivity.
Qed.

(** [add d, r, x0] copies register [r] into [d]. *)
Lemma runs_copy (d rv : string) (b : Z) k (lo hi : nat) W :
  d ≠ "x0" →
  (∀ x, untouched lo hi W x → x ≠ d) →
  runs (λ q, Asm.env q !! rv = Some (Asm.VInt b))
       [Asm.Add d rv "x0"] k lo hi W d b.
Proof.
  intros Hd Hun. apply runs_one; [done|done|].
  intros q l Hrv H0. eval_inst. by rewrite Z.add_0_r.
Qed.


(** *** The code of [And], [Or] and [IfThenElse] on the machine *)

Ltac un_incl :=
  let x := fresh "x" in let Hx1 := fresh "Hx" in let Hx2 := fresh "Hx" in
  intros x [Hx1 Hx2]; split; (split;
    [ let j := fresh "j" in intros j ?; apply Hx1; lia
    | first [ by intros ?%elem_of_nil
            | exact Hx2
            | (let Hin := fresh in
               intros Hin; apply Hx2; rewrite ?elem_of_app, ?elem_of_cons;
               auto; fail) ] ]).

Ltac un_x0 ρ :=
  first [ by apply (x0_untouched ρ)
        | (apply untouched_nil; let E := fresh in intros ? _ E;
           symmetry in E; by apply tmp_not_x0 in E) ].

Lemma and_code ρ (lv rv : string) (a v : Z) (block : list Asm.inst) k
    (c1 c2 : nat) (Wr : list string) :
  (a ≠ 0 → computes block (S k) c1 c2 Wr ρ rv v) →
  (a = 0 → v = 0) →
  (c1 ≤ c2)%nat → hygienic_names ρ Wr →
  runs (λ q, holds q ρ ∧ Asm.env q !! lv = Some (Asm.VInt a))
    (Asm.Beq lv "x0" (Some (Z.of_nat (k + 1 + length block + 2)))
     :: block
     ++ [ Asm.Add (tmp (S c2)) rv "x0";
          Asm.Jal "x0" (Some (Z.of_nat (k + 1 + length block + 3)));
          Asm.Addi (tmp (S c2)) "x0" 0 ])
    k c1 (S c2) Wr (tmp (S c2)) v.
Proof.
  intros Hb Hz Hc Hh.
  destruct (decide (a = 0)) as [->|Ha].
  - rewrite (Hz eq_refl).
    match goal with |- runs _ (?i :: block ++ [?x; ?y; ?z]) _ _ _ _ _ _ =>
      replace (i :: block ++ [x; y; z]) with ((i :: block ++ [x; y]) ++ [z])
        by (simpl; rewrite <- app_assoc; reflexivity)
    end.
    apply (runs_seq _ (λ _, True) _ _ k c1 c1 [] c2 (S c2) [] c1 (S c2) Wr
             lv 0 (tmp (S c2)) 0).
    + apply runs_beq_taken.
      * rewrite length_app. cbn [length]. lia.
      * by intros q [_ ?].
      * by intros q [_ ?].
    + apply tail_literal.
    + un_incl.
    + un_x0 ρ.
    + done.
  - specialize (Hb Ha).
    change (runs (λ q, holds q ρ ∧ Asm.env q !! lv = Some (Asm.VInt a))
      ([Asm.Beq lv "x0" (Some (Z.of_nat (k + 1 + length block + 2)))]
       ++ (block
           ++ ([Asm.Add (tmp (S c2)) rv "x0"]
               ++ [ Asm.Jal "x0" (Some (Z.of_nat (k + 1 + length block + 3)));
                    Asm.Addi (tmp (S c2)) "x0" 0 ])))
      k c1 (S c2) Wr (tmp (S c2)) v).
    apply (runs_seq _ (λ q, holds q ρ) _ _ k c1 c1 [] c1 (S c2) Wr c1 (S c2) Wr
             lv a (tmp (S c2)) v).
    + apply (runs_beq_fall _ lv a); [done| by intros q [_ ?] | by intros q [_ ?]].
    + apply (runs_seq _ (λ q, Asm.env q !! rv = Some (Asm.VInt v)) _ _ _
               c1 c2 Wr c2 (S c2) [] c1 (S c2) Wr rv v (tmp (S c2)) v).
      * apply (runs_at _ _ (S k)); [exact Hb | cbn [length]; lia].
      * apply (runs_seq _ (λ q, Asm.env q !! tmp (S c2) = Some (Asm.VInt v))
                 _ _ _ c2 (S c2) [] c2 (S c2) [] c2 (S c2) []
                 (tmp (S c2)) v (tmp (S c2)) v).
        -- apply runs_copy; [apply tmp_not_x0|].
           intros x [Hx _]. apply Hx. lia.
        -- apply runs_jal; [cbn [length]; lia | done].
        -- un_incl.
        -- un_x0 ρ.
        -- by intros p p' _ ? _.
      * un_incl.
      * un_x0 ρ.
      * by intros p p' _ ? _.
    + un_incl.
    + un_x0 ρ.
    + intros p p' [Hρ _] _ Hk. intros y z Hy. rewrite Hk; [by apply Hρ|].
      apply untouched_nil. intros; lia.
Qed.

Lemma or_code ρ (lv rv : string) (a v : Z) (block : list Asm.inst) k
    (c1 c2 : nat) (Wr : list string) :
  (a = 0 → computes block (k + 3) (S c1) c2 Wr ρ rv v) →
  (a ≠ 0 → v = 1) →
  (S c1 ≤ c2)%nat → hygienic_names ρ Wr →
  runs (λ q, holds q ρ ∧ Asm.env q !! lv = Some (Asm.VInt a))
    ([ Asm.Beq lv "x0" (Some (Z.of_nat (k + 3)));
       Asm.Addi (tmp (S c1)) "x0" 1;
       Asm.Jal "x0" (Some (Z.of_nat (k + 3 + length block + 1))) ]
     ++ block ++ [Asm.Add (tmp (S c1)) rv "x0"])
    k c1 c2 Wr (tmp (S c1)) v.
Proof.
  intros Hb Hz Hc Hh.
  destruct (decide (a = 0)) as [->|Ha].
  - specialize (Hb eq_refl).
    apply (runs_seq _ (λ q, holds q ρ) _ _ k c1 c1 [] c1 c2 Wr c1 c2 Wr
             lv 0 (tmp (S c1)) v).
    + apply runs_beq_taken.
      * cbn [length]. lia.
      * by intros q [_ ?].
      * by intros q [_ ?].
    + apply (runs_seq _ (λ q, Asm.env q !! rv = Some (Asm.VInt v)) _ _ _
               (S c1) c2 Wr c1 (S c1) [] c1 c2 Wr rv v (tmp (S c1)) v).
      * apply (runs_at _ _ (k + 3)); [exact Hb | cbn [length]; lia].
      * apply runs_copy; [apply tmp_not_x0|].
        intros x [Hx _]. apply Hx. lia.
      * un_incl.
      * un_x0 ρ.
      * by intros p p' _ ? _.
    + un_incl.
    + un_x0 ρ.
    + intros p p' [Hρ _] _ Hk. intros y z Hy. rewrite Hk; [by apply Hρ|].
      apply untouched_nil. intros; lia.
  - rewrite (Hz Ha).
    change (runs (λ q, holds q ρ ∧ Asm.env q !! lv = Some (Asm.VInt a))
      ([Asm.Beq lv "x0" (Some (Z.of_nat (k + 3)))]
       ++ ([Asm.Addi (tmp (S c1)) "x0" 1]
           ++ (Asm.Jal "x0" (Some (Z.of_nat (k + 3 + length block + 1)))
               :: (block ++ [Asm.Add (tmp (S c1)) rv "x0"]))))
      k c1 c2 Wr (tmp (S c1)) 1).
    apply (runs_seq _ (λ _, True) _ _ k c1 c1 [] c1 (S c1) [] c1 c2 Wr
             lv a (tmp (S c1)) 1).
    + apply (runs_beq_fall _ lv a); [done| by intros q [_ ?] | by intros q [_ ?]].
    + apply (runs_seq _ (λ q, Asm.env q !! tmp (S c1) = Some (Asm.VInt 1)) _ _ _
               c1 (S c1) [] c1 (S c1) [] c1 (S c1) []
               (tmp (S c1)) 1 (tmp (S c1)) 1).
      * apply tail_literal.
      * apply runs_jal; [|done].
        rewrite length_app. cbn [length]. lia.
      * un_incl.
      * un_x0 ρ.
      * by intros p p' _ ? _.
    + un_incl.
    + un_x0 ρ.
    + done.
Qed.

Lemma if_code ρ (cv lv rv : string) (a v : Z) (b0 b1 : list Asm.inst) k
    (c1 c2 c3 : nat) (W0 W1 : list string) :
  (a ≠ 0 → computes b0 (S k) c1 c2 W0 ρ lv v) →
  (a = 0 → computes b1 (k + 1 + length b0 + 2) (S c2) c3 W1 ρ rv v) →
  (c1 ≤ c2)%nat → (S c2 ≤ c3)%nat → hygienic_names ρ (W0 ++ W1) →
  runs (λ q, holds q ρ ∧ Asm.env q !! cv = Some (Asm.VInt a))
    ([Asm.Beq cv "x0" (Some (Z.of_nat (k + 1 + length b0 + 2)))]
     ++ b0
     ++ [ Asm.Add (tmp (S c2)) lv "x0";
          Asm.Jal "x0" (Some (Z.of_nat (k + 1 + length b0 + 2 + length b1 + 1))) ]
     ++ b1 ++ [Asm.Add (tmp (S c2)) rv "x0"])
    k c1 c3 (W0 ++ W1) (tmp (S c2)) v.
Proof.
  intros H0 H1 Hc Hc' Hh.
  destruct (decide (a = 0)) as [->|Ha].
  - specialize (H1 eq_refl).
    match goal with |- runs _ ([?i] ++ b0 ++ [?x; ?y] ++ ?R) _ _ _ _ _ _ =>
      replace ([i] ++ b0 ++ [x; y] ++ R) with ((i :: b0 ++ [x; y]) ++ R)
        by (simpl; rewrite <- app_assoc; reflexivity)
    end.
    apply (runs_seq _ (λ q, holds q ρ) _ _ k c1 c1 [] c2 c3 W1 c1 c3 (W0 ++ W1)
             cv 0 (tmp (S c2)) v).
    + apply runs_beq_taken.
      * rewrite length_app. cbn [length]. lia.
      * by intros q [_ ?].
      * by intros q [_ ?].
    + apply (runs_seq _ (λ q, Asm.env q !! rv = Some (Asm.VInt v)) _ _ _
               (S c2) c3 W1 c2 (S c2) [] c2 c3 W1 rv v (tmp (S c2)) v).
      * apply (runs_at _ _ (k + 1 + length b0 + 2)); [exact H1|].
        rewrite length_cons, length_app. cbn [length]. lia.
      * apply runs_copy; [apply tmp_not_x0|].
        intros x [Hx _]. apply Hx. lia.
      * un_incl.
      * destruct (hygienic_names_app _ _ _ Hh) as (_ & ? & _). un_x0 ρ.
      * by intros p p' _ ? _.
    + un_incl.
    + un_x0 ρ.
    + intros p p' [Hρ _] _ Hk. intros y z Hy. rewrite Hk; [by apply Hρ|].
      apply untouched_nil. intros; lia.
  - specialize (H0 Ha).
    change (runs (λ q, holds q ρ ∧ Asm.env q !! cv = Some (Asm.VInt a))
      ([Asm.Beq cv "x0" (Some (Z.of_nat (k + 1 + length b0 + 2)))]
       ++ (b0
           ++ ([Asm.Add (tmp (S c2)) lv "x0"]
               ++ (Asm.Jal "x0"
                     (Some (Z.of_nat (k + 1 + length b0 + 2 + length b1 + 1)))
                   :: (b1 ++ [Asm.Add (tmp (S c2)) rv "x0"])))))
      k c1 c3 (W0 ++ W1) (tmp (S c2)) v).
    apply (runs_seq _ (λ q, holds q ρ) _ _ k c1 c1 [] c1 (S c2) W0
             c1 c3 (W0 ++ W1) cv a (tmp (S c2)) v).
    + apply (runs_beq_fall _ cv a); [done| by intros q [_ ?] | by intros q [_ ?]].
    + apply (runs_seq _ (λ q, Asm.env q !! lv = Some (Asm.VInt v)) _ _ _
               c1 c2 W0 c2 (S c2) [] c1 (S c2) W0 lv v (tmp (S c2)) v).
      * apply (runs_at _ _ (S k)); [exact H0 | cbn [length]; lia].
      * apply (runs_seq _ (λ q, Asm.env q !! tmp (S c2) = Some (Asm.VInt v))
                 _ _ _ c2 (S c2) [] c2 (S c2) [] c2 (S c2) []
                 (tmp (S c2)) v (tmp (S c2)) v).
        -- apply runs_copy; [apply tmp_not_x0|].
           intros x [Hx _]. apply Hx. lia.
        -- apply runs_jal; [|done].
           rewrite length_app. cbn [length]. lia.
        -- un_incl.
        -- un_x0 ρ.
        -- by intros p p' _ ? _.
      * un_incl.
      * destruct (hygienic_names_app _ _ _ Hh) as (? & _ & _). un_x0 ρ.
      * by intros p p' _ ? _.
    + un_incl.
    + un_x0 ρ.
    + intros p p' [Hρ _] _ Hk. intros y z Hy. rewrite Hk; [by apply Hρ|].
      apply untouched_nil. intros; lia.
Qed.

(** An operand, then code that reads its register. *)
Lemma computes_then ρ (bl rest : list Asm.inst) k (c0 c1 c3 : nat)
    (Wl Wr : list string) (lv : string) (a : Z) (d : string) (v : Z) :
  computes bl k c0 c1 Wl ρ lv a →
  runs (λ q, holds q ρ ∧ Asm.env q !! lv = Some (Asm.VInt a))
       rest (k + length bl) c1 c3 Wr d v →
  hygienic_names ρ (Wl ++ Wr) →
  (c0 ≤ c1 ≤ c3)%nat →
  computes (bl ++ rest) k c0 c3 (Wl ++ Wr) ρ d v.
Proof.
  intros Rl Rr Hh Hc.
  destruct (hygienic_names_app _ _ _ Hh) as (H1 & H2 & H12).
  unfold computes in *.
  apply (runs_seq _ (λ q, holds q ρ ∧ Asm.env q !! lv = Some (Asm.VInt a))
           bl rest k c0 c1 Wl c1 c3 Wr c0 c3 (Wl ++ Wr) lv a d v).
  - exact Rl.
  - exact Rr.
  - intros x Hx. apply (untouched_split c0 c1 c3 Wl Wr x Hx). lia.
  - by apply (x0_untouched ρ).
  - intros p p' Hρ Hl Hk. split; [|done].
    intros y z Hy. rewrite Hk; [by apply Hρ|].
    by apply (variable_untouched ρ).
Qed.

(** The code of a binding: the definition, a copy into the register of
    the variable, the body. *)
Lemma let_code ρ (bd bb : list Asm.inst) k (c0 c1 c2 : nat)
    (Wd Wb : list string) (x dv r : string) (a v : Z) :
  computes bd k c0 c1 Wd ρ dv a →
  computes bb (k + length bd + 1) c1 c2 Wb (<[x := a]> ρ) r v →
  hygienic_names ρ (Wd ++ x :: Wb) →
  (c0 ≤ c1 ≤ c2)%nat →
  computes (bd ++ [Asm.Add x dv "x0"] ++ bb) k c0 c2 (Wd ++ x :: Wb) ρ r v.
Proof.
  intros Rd Rb Hh Hc.
  destruct (hygienic_names_let _ _ _ _ a Hh)
    as (Hd & Hb & Ux & HxWd & HxWb & Hρx & Hdb).
  unfold computes in *.
  apply (runs_seq _ (λ q, holds q ρ ∧ Asm.env q !! dv = Some (Asm.VInt a))
           bd _ k c0 c1 Wd c1 c2 (x :: Wb) c0 c2 (Wd ++ x :: Wb) dv a r v).
  - exact Rd.
  - apply (runs_seq _ (λ q, holds q (<[x := a]> ρ)) _ _ _
             c1 c1 [x] c1 c2 Wb c1 c2 (x :: Wb) x a r v).
    + apply (runs_pre _ (λ q, Asm.env q !! dv = Some (Asm.VInt a))).
      * apply runs_copy; [by destruct Ux|].
        intros y [_ Hy] ->. apply Hy, list_elem_of_singleton. done.
      * by intros q [_ ?].
    + apply (runs_at _ _ _ _ _ _ _ _ _ Rb). cbn [length]. lia.
    + intros y [Hy1 Hy2]. split; split.
      * intros j Hj. apply Hy1. lia.
      * intros Hin%list_elem_of_singleton. apply Hy2. subst. by left.
      * intros j Hj. apply Hy1. lia.
      * intros Hin. apply Hy2. by right.
    + split.
      * intros j _ E. symmetry in E. by apply tmp_not_x0 in E.
      * intros Hin%list_elem_of_singleton. by destruct Ux.
    + intros p p' [Hρ _] Hx Hk. intros y z Hy.
      destruct (decide (x = y)) as [<-|Hne].
      * rewrite lookup_insert_eq in Hy. by injection Hy as <-.
      * rewrite lookup_insert_ne in Hy by done.
        rewrite Hk; [by apply Hρ|]. split.
        -- intros j Hj. lia.
        -- intros Hin%list_elem_of_singleton. by subst.
  - intros y [Hy1 Hy2]. split; split.
    + intros j Hj. apply Hy1. lia.
    + intros Hin. apply Hy2, elem_of_app. by left.
    + intros j Hj. apply Hy1. lia.
    + intros Hin. apply Hy2, elem_of_app. by right.
  - by apply (x0_untouched ρ).
  - intros p p' Hρ Hl Hk. split; [|done].
    intros y z Hy. rewrite Hk; [by apply Hρ|].
    by apply (variable_untouched ρ).
Qed.

Lemma value_not_fn ρ e v : value ρ e = Some v → is_fn e = false.
Proof. by destruct e. Qed.

(** Two operands and the instructions of the node. *)
Lemma operands_case (fuel : nat) (IH : correct fuel)
    (l r : expr) (st st1 st2 : state) (lv rv : string) ρ (a b v : Z)
    (tail : list Asm.inst) (c3 : nat) (d : string) :
  visit fuel l st = Ok (lv, st1) →
  visit fuel r st1 = Ok (rv, st2) →
  value ρ l = Some a → value ρ r = Some b →
  hygienic_names ρ (RenameVisitor.binders l ++ RenameVisitor.binders r) →
  (∀ k, runs (λ q, Asm.env q !! lv = Some (Asm.VInt a)
                   ∧ Asm.env q !! rv = Some (Asm.VInt b))
             tail k (next_var_counter st2) c3 [] d v) →
  (next_var_counter st2 ≤ c3)%nat →
  ∃ code, Asm.insts (prog st2) ++ tail = Asm.insts (prog st) ++ code
    ∧ computes code (length (Asm.insts (prog st)))
        (next_var_counter st) c3
        (RenameVisitor.binders l ++ RenameVisitor.binders r) ρ d v.
Proof.
  intros E1 E2 Va Vb Hh Ht Hc3.
  destruct (hygienic_names_app _ _ _ Hh) as (H1 & H2 & _).
  destruct (IH _ _ _ _ _ _ E1 Va H1) as (cl & I1 & R1 & C1).
  destruct (IH _ _ _ _ _ _ E2 Vb H2) as (cr & I2 & R2 & C2).
  pose proof (visit_counter _ _ _ _ _ E1).
  pose proof (visit_counter _ _ _ _ _ E2).
  exists (cl ++ cr ++ tail). split.
  { rewrite I2, I1, <- !app_assoc. reflexivity. }
  rewrite I1, length_app in C2.
  by apply (computes_operands ρ cl cr tail _ _ (next_var_counter st1)
              (next_var_counter st2) c3 _ _ lv rv a b).
Qed.

(** One operand and the instructions of the node. *)
Lemma operand_case (fuel : nat) (IH : correct fuel)
    (e : expr) (st st1 : state) (ev : string) ρ (a v : Z)
    (tail : list Asm.inst) (c2 : nat) (d : string) :
  visit fuel e st = Ok (ev, st1) →
  value ρ e = Some a →
  hygienic_names ρ (RenameVisitor.binders e) →
  ((∀ j, (next_var_counter st1 < j)%nat → ev ≠ tmp j) →
   ∀ k, runs (λ q, Asm.env q !! ev = Some (Asm.VInt a))
             tail k (next_var_counter st1) c2 [] d v) →
  (next_var_counter st1 ≤ c2)%nat →
  ∃ code, Asm.insts (prog st1) ++ tail = Asm.insts (prog st) ++ code
    ∧ computes code (length (Asm.insts (prog st)))
        (next_var_counter st) c2 (RenameVisitor.binders e) ρ d v.
Proof.
  intros E1 Va Hh Ht Hc2.
  destruct (IH _ _ _ _ _ _ E1 Va Hh) as (ce & I1 & R1 & C1).
  pose proof (visit_counter _ _ _ _ _ E1).
  exists (ce ++ tail). split.
  { rewrite I1, <- !app_assoc. reflexivity. }
  apply (computes_operand ρ ce tail _ _ (next_var_counter st1) c2 _ ev a);
    [done| |done|lia].
  apply Ht. by apply (result_register_not_later ρ _ _ _ _ R1).
Qed.

Ltac value_inv Hv :=
  simpl in Hv;
  repeat match type of Hv with
  | context [value ?ρ ?e] =>
      let a := fresh "a" in let Va := fresh "Va" in
      destruct (value ρ e) as [a|] eqn:Va; [|discriminate Hv]; simpl in Hv
  end.

Ltac counters :=
  repeat match goal with
  | E : visit _ _ ?s = Ok (_, ?s') |- _ =>
      lazymatch goal with
      | _ : (next_var_counter s ≤ next_var_counter s')%nat |- _ => fail
      | _ => pose proof (visit_counter _ _ _ _ _ E)
      end
  end.

Ltac binary_case fuel IH H Hv Hh tl :=
  gen_unfold H;
  lazymatch type of H with context [visit fuel ?l ?st] =>
    let lv := fresh "lv" in let st1 := fresh "st1" in let E1 := fresh "E1" in
    destruct (visit fuel l st) as [[lv st1]|] eqn:E1; [|discriminate H];
    simpl in H;
    lazymatch type of H with context [visit fuel ?r st1] =>
      let rv := fresh "rv" in let st2 := fresh "st2" in let E2 := fresh "E2" in
      destruct (visit fuel r st1) as [[rv st2]|] eqn:E2; [|discriminate H];
      simpl in H; injection H as <- <-;
      simpl in Hv;
      let a := fresh "a" in let Va := fresh "Va" in
      destruct (value _ l) as [a|] eqn:Va; [|discriminate Hv];
      simpl in Hv;
      let b := fresh "b" in let Vb := fresh "Vb" in
      destruct (value _ r) as [b|] eqn:Vb; [|discriminate Hv];
      simpl in Hv;
      try (case_decide; [discriminate Hv|]);
      injection Hv as <-;
      counters;
      let code := fresh "code" in
      let Hcode := fresh "Hcode" in let Hc := fresh "Hc" in
      let X := fresh "X" in
      epose proof (operands_case fuel IH l r st st1 st2 lv rv _ a b _ _ _ _
                     E1 E2 Va Vb Hh) as X;
      destruct X as (code & Hcode & Hc);
      [ intros ?; tl
      | simpl; lia
      | exists code; split;
        [ simpl; rewrite <- ?app_assoc; exact Hcode
        | split;
          [ left; eexists; split; [reflexivity | simpl; lia]
          | exact Hc ] ] ]
    end
  end.

Lemma visit_correct fuel : correct fuel.
Proof.
  induction fuel as [|fuel IH]; intros e st r st' ρ v H Hv Hh;
    [discriminate|].
  destruct e.
  - (* Var *)
    gen_unfold H. injection H as <- <-. simpl in Hv.
    exists []. split; [by rewrite app_nil_r|]. split.
    + right. right. by rewrite Hv.
    + apply runs_nil. intros p Hp. by apply Hp.
  - (* Bln *)
    gen_unfold H. injection H as <- <-. simpl in Hv. injection Hv as <-.
    eexists. split; [reflexivity|]. split.
    + left. eexists. split; [reflexivity|]. simpl. lia.
    + apply tail_literal.
  - (* Num *)
    gen_unfold H. injection H as <- <-. simpl in Hv. injection Hv as <-.
    eexists. split; [reflexivity|]. split.
    + left. eexists. split; [reflexivity|]. simpl. lia.
    + apply tail_literal.
  - (* Eql *)
    binary_case fuel IH H Hv Hh ltac:(apply tail_eql).
  - (* And *)
    destruct (visit_And_shape _ _ _ _ _ _ H)
      as (fuel' & lv & st1 & rv & stm & st2 & block
          & Hf & E1 & E2 & Cm & -> & Cs & Im & Ib & If).
    injection Hf as <-.
    simpl in Hv. destruct (value ρ e1) as [a|] eqn:Va; [|discriminate].
    simpl in Hv.
    destruct (hygienic_names_app _ _ _ Hh) as (H1 & H2 & H12).
    destruct (IH _ _ _ _ _ _ E1 Va H1) as (cl & I1 & R1 & C1).
    counters.
    rewrite If, I1, Cs. eexists. split; [rewrite <- app_assoc; reflexivity|].
    split; [left; eexists; split; [reflexivity | lia]|].
    apply (computes_then ρ cl _ _ _ (next_var_counter st1) _ _ _ lv a);
      [exact C1 | | exact Hh | lia].
    rewrite length_app.
    apply (and_code ρ lv rv a v block _ _ _ _); [| |lia|exact H2].
    + intros Ha. rewrite decide_False in Hv by done.
      destruct (IH _ _ _ _ _ _ E2 Hv H2) as (cr & I2 & R2 & C2).
      rewrite Ib in I2. apply app_inv_head in I2 as <-.
      rewrite Im, I1, !length_app, Cm in C2.
      apply (runs_at _ _ _ _ _ _ _ _ _ C2). cbn [length]. lia.
    + intros ->. rewrite decide_True in Hv by done. by injection Hv.
  - (* Or *)
    destruct (visit_Or_shape _ _ _ _ _ _ H)
      as (fuel' & lv & st1 & rv & stm & st2 & block
          & Hf & E1 & E2 & Cm & -> & Cs & Im & Ib & If).
    injection Hf as <-.
    simpl in Hv. destruct (value ρ e1) as [a|] eqn:Va; [|discriminate].
    simpl in Hv.
    destruct (hygienic_names_app _ _ _ Hh) as (H1 & H2 & H12).
    destruct (IH _ _ _ _ _ _ E1 Va H1) as (cl & I1 & R1 & C1).
    counters.
    rewrite If, I1, Cs. eexists. split; [rewrite <- app_assoc; reflexivity|].
    split; [left; eexists; split; [reflexivity | lia]|].
    apply (computes_then ρ cl _ _ _ (next_var_counter st1) _ _ _ lv a);
      [exact C1 | | exact Hh | lia].
    rewrite length_app.
    apply (or_code ρ lv rv a v block _ _ _ _); [| |lia|exact H2].
    + intros ->. rewrite decide_True in Hv by done.
      destruct (IH _ _ _ _ _ _ E2 Hv H2) as (cr & I2 & R2 & C2).
      rewrite Ib in I2. apply app_inv_head in I2 as <-.
      rewrite Im, I1, !length_app, Cm in C2.
      apply (runs_at _ _ _ _ _ _ _ _ _ C2). cbn [length]. lia.
    + intros Ha. rewrite decide_False in Hv by done. by injection Hv.
  - (* Add *)
    binary_case fuel IH H Hv Hh
      ltac:(apply (tail_binary Asm.Add); intros; eval_inst).
  - (* Sub *)
    binary_case fuel IH H Hv Hh
      ltac:(apply (tail_binary Asm.Sub); intros; eval_inst).
  - (* Mul *)
    binary_case fuel IH H Hv Hh
      ltac:(apply (tail_binary Asm.Mul); intros; eval_inst).
  - (* Div *)
    binary_case fuel IH H Hv Hh
      ltac:(apply (tail_binary Asm.Div); intros; eval_inst;
            by rewrite decide_False).
  - (* Leq *)
    binary_case fuel IH H Hv Hh ltac:(apply tail_leq).
  - (* Lth *)
    binary_case fuel IH H Hv Hh
      ltac:(lazymatch goal with
            | |- runs (λ q, _ = Some (Asm.VInt ?a) ∧ _ = Some (Asm.VInt ?b))
                   _ _ _ _ _ _ _ =>
                apply (tail_binary Asm.Slt _ _ a b
                         (if decide (a < b) then 1 else 0))
            end;
            intros; eval_inst; by case_bool_decide; case_decide).
  - (* Neg *)
    gen_unfold H.
    destruct (visit fuel e st) as [[ev st1]|] eqn:E1; [|discriminate].
    simpl in H. injection H as <- <-.
    simpl in Hv. destruct (value ρ e) as [a|] eqn:Va; [|discriminate].
    simpl in Hv. injection Hv as <-.
    counters.
    epose proof (operand_case fuel IH e st st1 ev ρ a _ _ _ _ E1 Va Hh) as X.
    destruct X as (code & Hcode & Hc);
      [intros _ k; apply tail_neg | simpl; lia |].
    exists code. split; [exact Hcode|].
    split; [left; eexists; split; [reflexivity | simpl; lia] | exact Hc].
  - (* Not *)
    gen_unfold H.
    destruct (visit fuel e st) as [[ev st1]|] eqn:E1; [|discriminate].
    simpl in H. injection H as <- <-.
    simpl in Hv. destruct (value ρ e) as [a|] eqn:Va; [|discriminate].
    simpl in Hv. injection Hv as <-.
    counters.
    epose proof (operand_case fuel IH e st st1 ev ρ a _ _ _ _ E1 Va Hh) as X.
    destruct X as (code & Hcode & Hc);
      [intros Hev k; by apply tail_not | simpl; lia |].
    exists code. split; [simpl; rewrite <- ?app_assoc; exact Hcode|].
    split; [left; eexists; split; [reflexivity | simpl; lia] | exact Hc].
  - (* Let *)
    gen_unfold H.
    destruct (visit fuel e1 st) as [[dv st1]|] eqn:E1; [|discriminate].
    simpl in H.
    simpl in Hv. destruct (value ρ e1) as [a|] eqn:Va; [|discriminate].
    simpl in Hv.
    rewrite (value_not_fn _ _ _ Va) in H. gen_unfold H.
    match type of H with context [visit fuel e2 ?s] => set (stm := s) in * end.
    destruct (hygienic_names_let _ _ _ _ a Hh)
      as (Hd & Hb & Ux & HxWd & HxWb & Hρx & Hdb).
    destruct (IH _ _ _ _ _ _ E1 Va Hd) as (cd & I1 & R1 & C1).
    destruct (IH _ _ _ _ _ _ H Hv Hb) as (cb & I2 & R2 & C2).
    counters.
    exists (cd ++ [Asm.Add identifier dv "x0"] ++ cb). split.
    { rewrite I2. unfold stm. simpl. rewrite I1, <- !app_assoc. reflexivity. }
    split.
    + destruct R2 as [(j & -> & Hj)|[Hin|Hs]].
      * left. exists j. split; [done|]. simpl in Hj. lia.
      * right. left. simpl. apply elem_of_app. right. by right.
      * destruct (decide (identifier = r)) as [<-|Hne].
        -- right. left. simpl. apply elem_of_app. right. by left.
        -- rewrite lookup_insert_ne in Hs by done. by right; right.
    + unfold stm in C2. simpl in C2. rewrite I1, !length_app in C2.
      apply (let_code ρ cd cb _ _ (next_var_counter st1) _ _ _ _ dv r a v);
        [exact C1 | | exact Hh | simpl in *; lia].
      apply (runs_at _ _ _ _ _ _ _ _ _ C2). cbn [length]. lia.
  - (* IfThenElse *)
    destruct (visit_If_shape _ _ _ _ _ _ _ H)
      as (fuel' & cv & st1 & sta & lv & st2 & stb & rv & st3 & b0 & b1
          & Hf & E1 & E2 & E3 & Ca & Cb & -> & Cs & Ia & Ib0 & Ib & Ib1 & If).
    injection Hf as <-.
    simpl in Hv. destruct (value ρ e1) as [a|] eqn:Va; [|discriminate].
    simpl in Hv.
    destruct (hygienic_names_app _ _ _ Hh) as (H1 & H23 & _).
    destruct (hygienic_names_app _ _ _ H23) as (H2 & H3 & _).
    destruct (IH _ _ _ _ _ _ E1 Va H1) as (cc & I1 & R1 & C1).
    counters.
    rewrite If, I1, Cs. eexists. split; [rewrite <- app_assoc; reflexivity|].
    split; [left; eexists; split; [reflexivity | lia]|].
    apply (computes_then ρ cc _ _ _ (next_var_counter st1) _ _ _ cv a);
      [exact C1 | | exact Hh | lia].
    rewrite length_app.
    apply (if_code ρ cv lv rv a v b0 b1 _ _ (next_var_counter st2) _ _ _);
      [| |lia|lia|exact H23].
    + intros Ha. rewrite decide_False in Hv by done.
      destruct (IH _ _ _ _ _ _ E2 Hv H2) as (c0' & I2 & R2 & C2).
      rewrite Ib0 in I2. apply app_inv_head in I2 as <-.
      rewrite Ia, I1, !length_app, Ca in C2.
      apply (runs_at _ _ _ _ _ _ _ _ _ C2). cbn [length]. lia.
    + intros ->. rewrite decide_True in Hv by done.
      destruct (IH _ _ _ _ _ _ E3 Hv H3) as (c1' & I3 & R3 & C3).
      rewrite Ib1 in I3. apply app_inv_head in I3 as <-.
      rewrite Ib, I1, !length_app, Cb in C3.
      apply (runs_at _ _ _ _ _ _ _ _ _ C3). cbn [length]. lia.
  - discriminate Hv.
  - discriminate Hv.
Qed.




End Compiler.

(** ** From the tree to the answer *)

Section EndToEnd.
Import Expression GenVisitor GenFacts.

Ltac gen_unfold H :=
  simpl in H;
  unfold binop, gbind, gret, next_var_name, add_inst,
    get_number_of_instructions, set_target_at, with_prog, get_val, set_val,
    lookup_env, current_env in H;
  simpl in H.

(** *** The renamer keeps the value *)

Lemma stamped_user_name (lo hi : nat) x :
  RenameVisitor.stamped lo hi x → user_name x.
Proof.
  intros (b & k & -> & _). unfold RenameVisitor.rename. split.
  - intros E.
    assert (Hn : RenameVisitor.no_underscore "x0") by (by repeat split).
    rewrite <- E in Hn. by apply no_underscore_append in Hn.
  - intros j E.
    assert (Hn : RenameVisitor.no_underscore (tmp j)).
    { unfold tmp. repeat (split; [done|]). apply pretty_nat_no_underscore. }
    rewrite <- E in Hn. by apply no_underscore_append in Hn.
Qed.

Lemma renames_weaken m (c c' : nat) ρ ρ' :
  (c ≤ c')%nat → RenameFacts.renames m c ρ ρ' → RenameFacts.renames m c' ρ ρ'.
Proof.
  intros Hc Hm y a Hy. destruct (Hm y a Hy) as (y' & ? & ? & ?).
  exists y'. split; [done|]. split; [|done].
  apply (stamped_weaken 0 c); [lia|lia|done].
Qed.

Lemma renames_bind m (c : nat) ρ ρ' (x : string) (a : Z) :
  RenameFacts.renames m c ρ ρ' →
  RenameFacts.renames (<[x := RenameVisitor.rename x c]> m) (S c)
    (<[x := a]> ρ) (<[RenameVisitor.rename x c := a]> ρ').
Proof.
  intros Hm y z Hy. destruct (decide (x = y)) as [<-|Hne].
  - rewrite lookup_insert_eq in Hy. injection Hy as <-.
    exists (RenameVisitor.rename x c). rewrite !lookup_insert_eq.
    split; [done|]. split; [|done]. apply stamped_weaken with c (S c); [lia|lia|].
    apply stamped_self. lia.
  - rewrite lookup_insert_ne in Hy by done.
    destruct (Hm y z Hy) as (y' & Hy' & Hs & Hρ').
    exists y'. rewrite lookup_insert_ne by done. split; [done|].
    split; [apply (stamped_weaken 0 c); [lia|lia|done]|].
    rewrite lookup_insert_ne; [done|].
    intros <-. destruct Hs as (b & k & E & Hk).
    apply rename_counter_inj in E. lia.
Qed.

Ltac rn IHe Hm :=
  lazymatch type of IHe with
  | ∀ m c ρ ρ' v, value ρ ?e = Some v → _ =>
    lazymatch goal with
    | Va : value ?ρ e = Some ?a |- context [RenameVisitor.visit e ?m ?c] =>
        let E := fresh "E" in let X := fresh "X" in let Y := fresh "Y" in
        let e' := fresh "e'" in let k := fresh "k" in
        pose proof (IHe m c ρ _ a Va Hm) as Y;
        destruct (RenameVisitor.visit e m c) as [e' k] eqn:E;
        pose proof (visit_binders _ _ _ _ _ E) as (X & _ & _);
        simpl in Y; simpl
    end
  end.

Ltac skip_visit :=
  lazymatch goal with
  | |- context [RenameVisitor.visit ?e ?m ?c] =>
      let E := fresh "E" in let X := fresh "X" in
      destruct (RenameVisitor.visit e m c) eqn:E;
      pose proof (visit_binders _ _ _ _ _ E) as (X & _ & _);
      simpl
  end.

Ltac operand Hv :=
  lazymatch type of Hv with
  | (value ?ρ ?e ≫= _) = _ =>
      let a := fresh "a" in let Va := fresh "Va" in
      destruct (value ρ e) as [a|] eqn:Va; [|discriminate Hv]; simpl in Hv
  end.

Ltac rn_binary IH1 IH2 Hv Hm :=
  operand Hv; operand Hv;
  rn IH1 Hm;
  lazymatch goal with
  | X : (_ ≤ _)%nat |- _ => rn IH2 (renames_weaken _ _ _ _ _ X Hm)
  end;
  repeat match goal with
  | Y : value _ _ = Some _ |- _ => rewrite Y; clear Y; simpl
  end;
  exact Hv.

Lemma rename_value (e : expr) :
  ∀ m c ρ ρ' v,
    value ρ e = Some v →
    RenameFacts.renames m c ρ ρ' →
    value ρ' (RenameVisitor.visit e m c).1 = Some v.
Proof.
  induction e; intros m c ρ ρ' v Hv Hm; simpl in Hv; simpl;
    try discriminate.
  - destruct (Hm _ _ Hv) as (y' & -> & _ & Hy). done.
  - done.
  - done.
  - rn_binary IHe1 IHe2 Hv Hm.
  - (* And *)
    operand Hv. rn IHe1 Hm. case_decide.
    + skip_visit. rewrite Y. simpl. by rewrite decide_True.
    + rn IHe2 (renames_weaken _ _ _ _ _ X Hm).
      rewrite Y. simpl. by rewrite decide_False.
  - (* Or *)
    operand Hv. rn IHe1 Hm. case_decide.
    + rn IHe2 (renames_weaken _ _ _ _ _ X Hm).
      rewrite Y. simpl. by rewrite decide_True.
    + skip_visit. rewrite Y. simpl. by rewrite decide_False.
  - rn_binary IHe1 IHe2 Hv Hm.
  - rn_binary IHe1 IHe2 Hv Hm.
  - rn_binary IHe1 IHe2 Hv Hm.
  - rn_binary IHe1 IHe2 Hv Hm.
  - rn_binary IHe1 IHe2 Hv Hm.
  - rn_binary IHe1 IHe2 Hv Hm.
  - operand Hv. rn IHe Hm. rewrite Y. exact Hv.
  - operand Hv. rn IHe Hm. rewrite Y. exact Hv.
  - (* Let *)
    operand Hv. rn IHe1 Hm.
    rn IHe2 (renames_bind _ _ _ _ identifier a
               (renames_weaken _ _ _ _ _ X Hm)).
    rewrite Y. simpl. exact Y0.
  - (* IfThenElse *)
    operand Hv. rn IHe1 Hm. case_decide.
    + skip_visit.
      rn IHe3 (renames_weaken m c _ ρ ρ' ltac:(etrans; eassumption) Hm).
      rewrite Y. simpl. by rewrite decide_True.
    + rn IHe2 (renames_weaken _ _ _ _ _ X Hm). skip_visit.
      rewrite Y. simpl. by rewrite decide_False.
Qed.


Lemma rename_hygienic (e : expr) : hygienic ∅ (Driver.rename_variables e).
Proof.
  unfold Driver.rename_variables, hygienic.
  destruct (RenameVisitor.visit e ∅ 0) as [e' c'] eqn:E.
  apply visit_binders in E as (_ & Hnd & Hst). simpl.
  split; [done|]. split.
  - intros x Hx. split; [|apply lookup_empty].
    rewrite Forall_forall in Hst. by apply (stamped_user_name 0 c'), Hst.
  - intros x [a Hx]. by rewrite lookup_empty in Hx.
Qed.

Lemma rename_shape (e : expr) :
  ∀ m c, first_order (RenameVisitor.visit e m c).1 = first_order e
         ∧ depth (RenameVisitor.visit e m c).1 = depth e.
Proof.
  induction e; intros m c; simpl;
    repeat match goal with
    | |- context [RenameVisitor.visit ?a ?b ?d] =>
        let E := fresh "E" in
        match goal with
        | IH : ∀ m c, first_order _ = first_order a ∧ _ |- _ =>
            pose proof (IH b d) as E;
            destruct (RenameVisitor.visit a b d); simpl in E;
            destruct E as [? ?]
        end
    end; simpl; try (split; congruence).
  destruct (m !! identifier); done.
Qed.

(** *** The generator on first-order trees *)

Lemma visit_total (e : expr) :
  first_order e = true →
  ∀ fuel st, (depth e < fuel)%nat → ∃ r st', visit fuel e st = Ok (r, st').
Proof.
  induction e; intros Hf fuel st Hd; simpl in Hf, Hd; try discriminate;
    repeat match type of Hf with
    | _ && _ = true => apply andb_true_iff in Hf as [Hf ?]
    end;
    (destruct fuel as [|fuel]; [lia|]); simpl;
    unfold binop, gbind, gret, next_var_name, add_inst,
      get_number_of_instructions, set_target_at, with_prog, get_val, set_val,
      lookup_env, current_env; simpl;
    repeat match goal with
    | IH : first_order ?a = true → _, Ha : first_order ?a = true
      |- context [visit fuel ?a ?s] =>
        let r := fresh "r" in let s' := fresh "s" in let E := fresh "E" in
        destruct (IH Ha fuel s ltac:(lia)) as (r & s' & E);
        rewrite E; clear E; simpl
    | |- context [is_fn ?a] =>
        replace (is_fn a) with false by (by destruct a); simpl
    end;
    eauto.
Qed.

Lemma visit_fuel_S (fuel : nat) :
  ∀ e st x, visit fuel e st = Ok x → visit (S fuel) e st = Ok x.
Proof.
  induction fuel as [|fuel IH]; intros e st x H; [discriminate|].
  remember (S fuel) as f2 eqn:Hf in |- *. rewrite <- Hf in IH. clear Hf.
  destruct e; gen_unfold H; simpl;
    unfold binop, gbind, gret, next_var_name, add_inst,
      get_number_of_instructions, set_target_at, with_prog, get_val, set_val,
      lookup_env, current_env; simpl;
    repeat first
    [ match type of H with
      | context [visit fuel ?e ?s] =>
        let E := fresh "E" in
        destruct (visit fuel e s) as [[? ?]|] eqn:E; [|discriminate H];
        apply IH in E; rewrite E; clear E; simpl in H; simpl
      end
    | match type of H with
      | context [if is_fn ?e then _ else _] => destruct (is_fn e)
      | context [match Asm.get_val ?x ?p with _ => _ end] =>
          destruct (Asm.get_val x p); [|discriminate H]
      | context [match Asm.env ?p !! ?x with _ => _ end] =>
          destruct (Asm.env p !! x) as [[]|]
      | context [match ?e with Var _ => _ | _ => _ end] => destruct e
      end; gen_unfold H; simpl;
      unfold binop, gbind, gret, next_var_name, add_inst,
        get_number_of_instructions, set_target_at, with_prog, get_val,
        set_val, lookup_env, current_env; simpl ];
    try exact H.
Qed.

Lemma visit_fuel_more (k fuel : nat) :
  ∀ e st x, visit fuel e st = Ok x → visit (k + fuel) e st = Ok x.
Proof.
  induction k as [|k IH]; intros e st x H; [done|].
  apply visit_fuel_S. by apply IH.
Qed.


(** A visit changes neither the program counter nor [x0]. *)
Lemma visit_machine_state fuel :
  ∀ e st r st', visit fuel e st = Ok (r, st') →
  Asm.pc (prog st') = Asm.pc (prog st)
  ∧ Asm.env (prog st') !! "x0" = Asm.env (prog st) !! "x0".
Proof.
  induction fuel as [|fuel IH]; intros e st r st' H; [discriminate|].
  destruct e; gen_unfold H;
    repeat first
    [ match type of H with
      | context [visit fuel ?e ?s] =>
        let E := fresh "E" in
        destruct (visit fuel e s) as [[? ?]|] eqn:E; [|discriminate H];
        apply IH in E; destruct E as [? ?]; simpl in *;
        rewrite ?pc_set_val, ?lookup_set_val_x0 in *
      end
    | match type of H with
      | context [if is_fn ?e then _ else _] => destruct (is_fn e)
      | context [match Asm.get_val ?x ?p with _ => _ end] =>
          destruct (Asm.get_val x p); [|discriminate H]
      | context [match Asm.env ?p !! ?x with _ => _ end] =>
          destruct (Asm.env p !! x) as [[]|]
      | context [match ?e with Var _ => _ | _ => _ end] => destruct e
      end; gen_unfold H ].
  all: try (injection H as <- <-; cbn [prog];
            rewrite ?pc_set_val, ?lookup_set_val_x0; simpl;
            split; congruence).
Qed.

Lemma eval_of_run (n k : nat) (p p' : Asm.Program) :
  Asm.run n p = Some p' → Asm.step p' = Ok None →
  Asm.eval (n + S k) p = Ok p'.
Proof.
  revert p. induction n as [|n IH]; simpl; intros p Hr Hs.
  - injection Hr as ->. by rewrite Hs.
  - destruct (Asm.step p) as [[q|]|]; try done. simpl. by apply IH.
Qed.

(** X11: the back half of the driver is correct on first-order
    programs.  For an expression without functions and applications
    that has the value [v] with no free variables, renaming, code
    generation into a fresh program, the run of the machine and the
    reading of the answer register give [v], for every recursion bound
    from some bound on. *)
Theorem first_order_programs_compute_their_value (e : expr) (v : Z) :
  first_order e = true →
  value ∅ e = Some v →
  ∃ N, ∀ fuel, (N ≤ fuel)%nat →
    Backend.compile_and_run fuel e = Ok (Asm.VInt v).
Proof.
  intros Hf Hv.
  assert (Hv' : value ∅ (Driver.rename_variables e) = Some v).
  { apply (rename_value e ∅ 0 ∅ ∅ v Hv).
    intros y a Hy. by rewrite lookup_empty in Hy. }
  destruct (rename_shape e ∅ 0) as [Hf' _]. rewrite Hf in Hf'.
  fold (Driver.rename_variables e) in Hf'.
  pose proof (rename_hygienic e) as Hh.
  unfold Backend.compile_and_run.
  generalize dependent (Driver.rename_variables e). clear e Hf Hv.
  intros e Hv Hf Hh.
  set (st0 := {| next_var_counter := 0; prog := Asm.init 1000 ∅ [] |}).
  destruct (visit_total e Hf (S (depth e)) st0 ltac:(lia)) as (r & st' & E).
  destruct (visit_correct _ _ _ _ _ _ _ E Hv Hh) as (code & Hi & _ & Hc).
  destruct (visit_machine_state _ _ _ _ _ E) as [Hpc H0].
  simpl in Hi.
  destruct (Hc (prog st')) as (n & p' & Hr & Hpc' & Hins & Hres & _).
  - intros i x Hx. by rewrite Hi.
  - by rewrite Hpc.
  - by rewrite H0.
  - intros y a Hy. by rewrite lookup_empty in Hy.
  - exists (S (depth e) + S n)%nat. intros fuel Hfuel.
    assert (Ev : visit fuel e st0 = Ok (r, st')).
    { replace fuel with ((fuel - S (depth e)) + S (depth e))%nat by lia.
      by apply visit_fuel_more. }
    assert (Ee : Asm.eval fuel (prog st') = Ok p').
    { replace fuel with (n + S (fuel - n - 1))%nat by lia.
      apply eval_of_run; [done|].
      apply (step_halt p' _ Hpc'). rewrite Hins, Hi. simpl. lia. }
    simpl. rewrite Ev. simpl. rewrite Ee. simpl.
    unfold Asm.get_val. by rewrite Hres.
Qed.

(** Witness of [first_order_programs_compute_their_value]: an inner
    binding that shadows the outer one, which the renamer keeps apart. *)
Lemma first_order_programs_compute_their_value_witness :
  ∃ N, ∀ fuel, (N ≤ fuel)%nat →
    Backend.compile_and_run fuel
      (Let "x" (Num 1) (Add (Let "x" (Num 2) (Var "x")) (Var "x")))
    = Ok (Asm.VInt 3).
Proof.
  apply first_order_programs_compute_their_value; reflexivity.
Defined.

(** X12: renaming keeps the meaning.  An expression that has the value
    [v] with no free variables has the same value after
    [rename_variables]. *)
Theorem renaming_keeps_the_value (e : expr) (v : Z) :
  value ∅ e = Some v → value ∅ (Driver.rename_variables e) = Some v.
Proof.
  intros Hv. apply (rename_value e ∅ 0 ∅ ∅ v Hv).
  intros y a Hy. by rewrite lookup_empty in Hy.
Qed.

(** Witness of [renaming_keeps_the_value]. *)
Lemma renaming_keeps_the_value_witness :
  value ∅ (Driver.rename_variables
             (Let "x" (Num 1) (Add (Let "x" (Num 2) (Var "x")) (Var "x"))))
  = Some 3.
Proof. apply renaming_keeps_the_value. reflexivity. Defined.

(** X13: the names of the renamer are apart from the registers of the
    generator.  After [rename_variables] no binder is called [x0] or
    carries the name of a temporary [tmpN]. *)
Theorem renamed_binders_are_user_names (e : expr) :
  Forall user_name (RenameVisitor.binders (Driver.rename_variables e)).
Proof.
  apply Forall_forall. intros x Hx.
  destruct (rename_hygienic e) as (_ & Hw & _). by apply Hw.
Qed.

End EndToEnd.
